(** * Fork database: a shallow embedding of [libraries/chain/fork_database.cpp]

    The development follows the source file top-down: the fork-choice
    comparison [first_preferred], the multi-index container with its three
    views ([by_block_id], [by_prev], [by_lib_block_num]), and then the
    operations of [fork_database_impl] in the order they are used by the
    properties proved at the end of the file.

    Modelling conventions.
    - A [block_id_type] (a sha256 digest, compared by [sha256_less]) is a
      natural number [N]; [uint32_t] block numbers are [N] as well: the code
      only compares them, it never does arithmetic on them.
    - A [bsp] is a shared pointer.  A null pointer is [None].  The pointee is
      the record [bs]; the only field the fork database mutates is the
      validity flag, and it only does so through [modify] on the container.
    - The container is represented by the sequence of its [by_lib_block_num]
      view, i.e. a list kept ordered by the composite key.
    - [root] and [head] hold the block state they point to, and what a
      pointer shows changes with its pointee.  The validity flag of an index
      entry is only ever set through [modify]: to [false] in
      [rollback_head_to_root_impl], which then moves the head to the root,
      and to [true] in [mark_valid_impl], where a head that points at the
      modified entry shows the flag set ([head_after_modify]); this is how a
      head that [open_impl] took unvalidated from a file becomes valid.  The
      root is never an index entry.  The head points at the entry when the
      block state it holds is that entry: an unvalidated head is always the
      entry [open_impl] found, which stays in the index as long as it is the
      head, unless [close_impl] empties the index under it.  Only after a
      [close_impl] can the head be an object of its own next to an equal
      entry added later, so what is proved about the flag of a head that is
      flipped is stated for databases that have not been closed
      ([reachable_unclosed]).
    - The facade [fork_database] owns one tree per block-state variant and
      forwards every call to the active one; its own functions come after
      those of the tree.
    - A C++ exception is a [Throw]; dereferencing a null pointer is [UB];
      loops whose termination depends on the shape of the index take a fuel
      argument and answer [Fuel] when it runs out. *)

From Stdlib Require Import List NArith Bool Arith Lia Permutation Sorted.
Import ListNotations.
Local Open Scope N_scope.

(** ** Block states *)

Definition block_id_type := N.

(** Modelled from the spec: the block-state types [block_state_legacy] and
    [block_state] are declared in headers that are not part of the sources at
    hand.  The record keeps what the fork database reads through the
    accessors [id()], [previous()], [block_num()], [irreversible_blocknum()]
    and [is_valid()] (the BlockRef of the data model).  The block body, the
    timestamp and the header extensions are only handed on to the validator
    and to the serializer, and are left out. *)
Record bs : Type := mk_bs {
  id : block_id_type;
  previous : block_id_type;
  block_num : N;
  irreversible_blocknum : N;
  is_valid : bool
}.

Definition set_valid (b : bool) (n : bs) : bs :=
  mk_bs (id n) (previous n) (block_num n) (irreversible_blocknum n) b.

(** [std::pair(lhs.irr, lhs.num) > std::pair(rhs.irr, rhs.num)] *)
Definition first_preferred (lhs rhs : bs) : bool :=
  (irreversible_blocknum rhs <? irreversible_blocknum lhs)
  || (negb (irreversible_blocknum lhs <? irreversible_blocknum rhs)
      && (block_num rhs <? block_num lhs)).

(** ** The multi-index container *)

(** [std::greater<bool>] *)
Definition bool_gt (a b : bool) : bool := a && negb b.

(** [composite_key_compare<greater<bool>, greater<uint32_t>,
    greater<uint32_t>, sha256_less>] on
    [(is_valid, irreversible_blocknum, block_num, id)]. *)
Definition by_lib_less (a b : bs) : bool :=
  if bool_gt (is_valid a) (is_valid b) then true
  else if bool_gt (is_valid b) (is_valid a) then false
  else if irreversible_blocknum b <? irreversible_blocknum a then true
  else if irreversible_blocknum a <? irreversible_blocknum b then false
  else if block_num b <? block_num a then true
  else if block_num a <? block_num b then false
  else id a <? id b.

Definition fork_multi_index_type := list bs.

(** Position of a new element in the ordered view. *)
Fixpoint ordered_insert (n : bs) (idx : fork_multi_index_type)
  : fork_multi_index_type :=
  match idx with
  | [] => [n]
  | e :: rest => if by_lib_less n e then n :: e :: rest
                 else e :: ordered_insert n rest
  end.

(** [index.find(id)] through the hashed [by_block_id] view. *)
Definition index_find (i : block_id_type) (idx : fork_multi_index_type)
  : option bs :=
  find (fun e => id e =? i) idx.

(** [index.insert(n)]: refused when the id is already present; the boolean
    is [inserted.second]. *)
Definition index_insert (n : bs) (idx : fork_multi_index_type)
  : fork_multi_index_type * bool :=
  match index_find (id n) idx with
  | Some _ => (idx, false)
  | None => (ordered_insert n idx, true)
  end.

(** [index.erase(id)] *)
Definition index_erase (i : block_id_type) (idx : fork_multi_index_type)
  : fork_multi_index_type :=
  filter (fun e => negb (id e =? i)) idx.

(** [by_id_idx.modify(itr, [](bsp& p){ p->set_valid(b); })]: the element is
    changed in place and repositioned in the ordered view. *)
Definition index_modify_valid (b : bool) (i : block_id_type)
  (idx : fork_multi_index_type) : fork_multi_index_type :=
  match index_find i idx with
  | Some e => ordered_insert (set_valid b e) (index_erase i idx)
  | None => idx
  end.

(** [indx.lower_bound(v)] on the first key component: the suffix that starts
    at the first element whose validity is not ordered before [v]. *)
Fixpoint lower_bound_valid (v : bool) (idx : fork_multi_index_type)
  : fork_multi_index_type :=
  match idx with
  | [] => []
  | e :: rest => if bool_gt (is_valid e) v then lower_bound_valid v rest
                 else idx
  end.

(** The elements in front of [lower_bound(v)]. *)
Fixpoint before_lower_bound_valid (v : bool) (idx : fork_multi_index_type)
  : fork_multi_index_type :=
  match idx with
  | [] => []
  | e :: rest => if bool_gt (is_valid e) v
                 then e :: before_lower_bound_valid v rest
                 else []
  end.

(** The equal range of [id] in the [by_prev] view.  The entries come in the
    order of the ordered view rather than in insertion order; [remove_impl],
    the only user, erases the ids it collects and so depends on the set
    only. *)
Definition children_of (i : block_id_type) (idx : fork_multi_index_type)
  : list bs :=
  filter (fun e => previous e =? i) idx.

(** ** State and results *)

Record fork_database_impl : Type := mk_db {
  index : fork_multi_index_type;
  root : option bs;
  head : option bs
}.

Definition empty_db : fork_database_impl := mk_db [] None None.

Inductive error : Type :=
| RootNotSet            (* "root not yet set" *)
| NullBlockState        (* "attempt to add null block state" *)
| Unlinkable            (* unlinkable_block_exception *)
| ValidatorRejected     (* rethrown validator failure *)
| Duplicate             (* "duplicate block added" *)
| NotFound              (* a looked-up block does not exist *)
| NotValidated          (* "cannot advance root to a block that has not yet been validated" *)
| OrphanedBranch        (* "invariant violation: orphaned branch was present" *)
| WouldRemoveHead       (* "removing the block and its descendants would remove the current head block" *)
| BadMagic
| UnsupportedVersion
| Corrupt.

Inductive result (A : Type) : Type :=
| Ret (a : A)
| Throw (e : error)
| UB
| Fuel.
Arguments Ret {A} a.
Arguments Throw {A} e.
Arguments UB {A}.
Arguments Fuel {A}.

Definition bind {A B : Type} (m : result A) (k : A -> result B) : result B :=
  match m with
  | Ret a => k a
  | Throw e => Throw e
  | UB => UB
  | Fuel => Fuel
  end.

Notation "x <- m ;; k" := (bind m (fun x => k))
  (at level 61, m at next level, right associativity).

(** Dereference of a shared pointer. *)
Definition deref {A : Type} (p : option A) : result A :=
  match p with
  | Some a => Ret a
  | None => UB
  end.

(** ** Lookups *)

Definition get_block_impl (db : fork_database_impl) (i : block_id_type)
  : option bs :=
  index_find i (index db).

Definition get_block_header_impl (db : fork_database_impl) (i : block_id_type)
  : result (option bs) :=
  r <- deref (root db) ;;
  if id r =? i then Ret (Some r)
  else Ret (index_find i (index db)).

(** ** head / pending_head *)

Definition pending_head (db : fork_database_impl) : result (option bs) :=
  match lower_bound_valid false (index db) with
  | c :: _ =>
      if negb (is_valid c) then
        h <- deref (head db) ;;
        if first_preferred c h then Ret (Some c) else Ret (head db)
      else Ret (head db)
  | [] => Ret (head db)
  end.

(** ** reset / rollback *)

(** Modelled from the spec: the [block_header_state] part of a block state
    (its base class, also declared outside the sources at hand): everything
    but the validity flag. *)
Record bhs : Type := mk_bhs {
  bhs_id : block_id_type;
  bhs_previous : block_id_type;
  bhs_block_num : N;
  bhs_irreversible_blocknum : N
}.

(** [*static_cast<bhs*>(&*p)] *)
Definition header_state (n : bs) : bhs :=
  mk_bhs (id n) (previous n) (block_num n) (irreversible_blocknum n).

Definition reset_impl (root_bhs : bhs) (db : fork_database_impl)
  : fork_database_impl :=
  let r := mk_bs (bhs_id root_bhs) (bhs_previous root_bhs)
                 (bhs_block_num root_bhs) (bhs_irreversible_blocknum root_bhs)
                 true in
  mk_db [] (Some r) (Some r).

Definition rollback_head_to_root_impl (db : fork_database_impl)
  : fork_database_impl :=
  let idx := fold_left (fun acc i => index_modify_valid false i acc)
                       (map id (index db)) (index db) in
  mk_db idx (root db) (root db).

(** ** add *)

(** The external protocol-feature validator, seen from [add_impl].  The
    source calls it, when the new block state carries a
    protocol-feature-activation extension, with the block's timestamp, the
    features activated at the parent and the features the block activates,
    and it either returns or throws.  Here it is a function of the new block
    state and the parent found by [get_block_header_impl]: [true] when the
    block carries no such extension or the validator returns, [false] when
    it throws. *)
Definition validator_t := bs -> bs -> bool.

Definition step : Type := fork_database_impl * result unit.

Definition add_impl (n : option bs) (ignore_duplicate validate : bool)
  (validator : validator_t) (db : fork_database_impl) : step :=
  match root db with
  | None => (db, Throw RootNotSet)
  | Some r =>
    match n with
    | None => (db, Throw NullBlockState)
    | Some n =>
      match get_block_header_impl db (previous n) with
      | Throw e => (db, Throw e)
      | UB => (db, UB)
      | Fuel => (db, Fuel)
      | Ret None => (db, Throw Unlinkable)
      | Ret (Some p) =>
        if validate && negb (validator n p) then (db, Throw ValidatorRejected)
        else
          let (idx, inserted) := index_insert n (index db) in
          if negb inserted then
            if ignore_duplicate then (db, Ret tt) else (db, Throw Duplicate)
          else
            match idx with
            | c :: _ =>
                if is_valid c then (mk_db idx (root db) (Some c), Ret tt)
                else (mk_db idx (root db) (head db), Ret tt)
            | [] => (mk_db idx (root db) (head db), UB)
            end
      end
    end
  end.

(** The public [add]: no validation, a validator that accepts everything. *)
Definition add (n : option bs) (ignore_duplicate : bool)
  (db : fork_database_impl) : step :=
  add_impl n ignore_duplicate false (fun _ _ => true) db.

(** ** mark_valid *)

(** Equality of block states, field by field. *)
Definition same_block_state (a b : bs) : bool :=
  (id a =? id b) && (previous a =? previous b)
  && (block_num a =? block_num b)
  && (irreversible_blocknum a =? irreversible_blocknum b)
  && Bool.eqb (is_valid a) (is_valid b).

(** What the pointer [head] shows once [modify] has set the flag of the
    entry [e]: the pointer itself is not assigned, but when it points at [e]
    its pointee is the modified entry.  The head points at [e] when the block
    state it holds is [e]. *)
Definition head_after_modify (e : bs) (head : option bs) : option bs :=
  option_map (fun hd => if same_block_state hd e then set_valid true hd else hd)
             head.

Definition mark_valid_impl (h : bs) (db : fork_database_impl) : step :=
  if is_valid h then (db, Ret tt)
  else
    match index_find (id h) (index db) with
    | None => (db, Throw NotFound)
    | Some e =>
      let idx := index_modify_valid true (id h) (index db) in
      let head := head_after_modify e (head db) in
      let db' := mk_db idx (root db) head in
      match idx, head with
      | c :: _, Some hd =>
          if first_preferred c hd then (mk_db idx (root db) (Some c), Ret tt)
          else (db', Ret tt)
      | _, _ => (db', UB)
      end
    end.

(** ** remove *)

(** The scan over [remove_queue]: [done] is the part of the deque before
    position [i], [pending] the part from [i] on.  One unit of fuel is one
    iteration of the [for] loop. *)
Fixpoint remove_scan (fuel : nat) (head_id : block_id_type)
  (idx : fork_multi_index_type) (done pending : list block_id_type)
  : result (list block_id_type) :=
  match pending with
  | [] => Ret done
  | x :: rest =>
    match fuel with
    | O => Fuel
    | S f =>
      if x =? head_id then Throw WouldRemoveHead
      else remove_scan f head_id idx (done ++ [x])
                       (rest ++ map id (children_of x idx))
    end
  end.

Definition erase_all (ids : list block_id_type) (idx : fork_multi_index_type)
  : fork_multi_index_type :=
  fold_left (fun acc i => index_erase i acc) ids idx.

Definition remove_impl (fuel : nat) (i : block_id_type)
  (db : fork_database_impl) : step :=
  match head db with
  | None => (db, UB)
  | Some h =>
    match remove_scan fuel (id h) (index db) [] [i] with
    | Ret remove_queue =>
        (mk_db (erase_all remove_queue (index db)) (root db) (head db), Ret tt)
    | Throw e => (db, Throw e)
    | UB => (db, UB)
    | Fuel => (db, Fuel)
    end
  end.

(** ** advance_root *)

(** The loop that fills [blocks_to_remove], entered with [b] non-null. *)
Fixpoint collect_blocks_to_remove (fuel : nat) (db : fork_database_impl)
  (root_id : block_id_type) (b : bs) (blocks_to_remove : list block_id_type)
  : result (list block_id_type) :=
  match fuel with
  | O => Fuel
  | S f =>
    let blocks_to_remove := blocks_to_remove ++ [previous b] in
    match get_block_impl db (previous b) with
    | Some b' => collect_blocks_to_remove f db root_id b' blocks_to_remove
    | None => if previous b =? root_id then Ret blocks_to_remove
              else Throw OrphanedBranch
    end
  end.

(** [for (const auto& block_id : blocks_to_remove) remove_impl(block_id);] *)
Fixpoint remove_each (fuel : nat) (ids : list block_id_type)
  (db : fork_database_impl) : step :=
  match ids with
  | [] => (db, Ret tt)
  | i :: rest =>
    match remove_impl fuel i db with
    | (db', Ret _) => remove_each fuel rest db'
    | failed => failed
    end
  end.

Definition advance_root_impl (fuel : nat) (i : block_id_type)
  (db : fork_database_impl) : step :=
  match root db with
  | None => (db, Throw RootNotSet)
  | Some r =>
    match get_block_impl db i with
    | None => (db, Throw NotFound)
    | Some new_root =>
      if negb (is_valid new_root) then (db, Throw NotValidated)
      else
        match collect_blocks_to_remove fuel db (id r) new_root [] with
        | Ret blocks_to_remove =>
          let db1 := mk_db (index_erase i (index db)) (root db) (head db) in
          match remove_each fuel blocks_to_remove db1 with
          | (db2, Ret _) => (mk_db (index db2) (Some new_root) (head db2), Ret tt)
          | failed => failed
          end
        | Throw e => (db, Throw e)
        | UB => (db, UB)
        | Fuel => (db, Fuel)
        end
    end
  end.

(** ** Branch queries *)

(** [for (auto s = get_block_impl(h); s; s = get_block_impl(s->previous()))];
    [s] is the current value of the loop variable. *)
Fixpoint fetch_branch_loop (fuel : nat) (db : fork_database_impl)
  (trim_after_block_num : N) (s : option bs) (res : list bs)
  : result (list bs) :=
  match s with
  | None => Ret res
  | Some n =>
    match fuel with
    | O => Fuel
    | S f =>
      let res := if block_num n <=? trim_after_block_num then res ++ [n]
                 else res in
      fetch_branch_loop f db trim_after_block_num
                        (get_block_impl db (previous n)) res
    end
  end.

Definition fetch_branch_impl (fuel : nat) (db : fork_database_impl)
  (h : block_id_type) (trim_after_block_num : N) : result (list bs) :=
  fetch_branch_loop fuel db trim_after_block_num (get_block_impl db h) [].

Definition MAX_U32 : N := 4294967295.

Fixpoint search_on_branch_loop (fuel : nat) (db : fork_database_impl)
  (bnum : N) (s : option bs) : result (option bs) :=
  match s with
  | None => Ret None
  | Some n =>
    match fuel with
    | O => Fuel
    | S f =>
      if block_num n =? bnum then Ret (Some n)
      else search_on_branch_loop f db bnum (get_block_impl db (previous n))
    end
  end.

Definition search_on_branch_impl (fuel : nat) (db : fork_database_impl)
  (h : block_id_type) (bnum : N) : result (option bs) :=
  search_on_branch_loop fuel db bnum (get_block_impl db h).

(** [(x == root->id()) ? root : get_block_impl(x)] *)
Definition root_or_block (db : fork_database_impl) (r : bs)
  (x : block_id_type) : option bs :=
  if x =? id r then Some r else get_block_impl db x.

Definition branch_type_pair : Type := list bs * list bs.

(** First and second [while] of [fetch_branch_from_impl]: [lo] stays put
    while [hi] descends to its height, pushing onto [acc]. *)
Fixpoint descend_to_height (fuel : nat) (db : fork_database_impl) (r : bs)
  (hi lo : bs) (acc : list bs) : result (bs * list bs) :=
  if block_num lo <? block_num hi then
    match fuel with
    | O => Fuel
    | S f =>
      match root_or_block db r (previous hi) with
      | None => Throw NotFound
      | Some hi' => descend_to_height f db r hi' lo (acc ++ [hi])
      end
    end
  else Ret (hi, acc).

(** Third [while]: both sides step together until they share a parent. *)
Fixpoint descend_together (fuel : nat) (db : fork_database_impl)
  (first_branch second_branch : bs) (res : branch_type_pair)
  : result (bs * bs * branch_type_pair) :=
  if negb (previous first_branch =? previous second_branch) then
    match fuel with
    | O => Fuel
    | S f =>
      let res := (fst res ++ [first_branch], snd res ++ [second_branch]) in
      match get_block_impl db (previous first_branch),
            get_block_impl db (previous second_branch) with
      | Some a, Some b => descend_together f db a b res
      | _, _ => Throw NotFound
      end
    end
  else Ret (first_branch, second_branch, res).

Definition fetch_branch_from_impl (fuel : nat) (db : fork_database_impl)
  (first second : block_id_type) : result branch_type_pair :=
  r <- deref (root db) ;;
  match root_or_block db r first, root_or_block db r second with
  | None, _ => Throw NotFound
  | _, None => Throw NotFound
  | Some first_branch, Some second_branch =>
    p1 <- descend_to_height fuel db r first_branch second_branch [] ;;
    let (first_branch, res1) := p1 in
    p2 <- descend_to_height fuel db r second_branch first_branch [] ;;
    let (second_branch, res2) := p2 in
    if id first_branch =? id second_branch then Ret (res1, res2)
    else
      p3 <- descend_together fuel db first_branch second_branch (res1, res2) ;;
      let '(a, b, (res1, res2)) := p3 in
      Ret (res1 ++ [a], res2 ++ [b])
  end.

(** ** Persistence *)

(** The decoded content of a fork database file: the byte-level pack/unpack
    of [fc::raw] is taken as given, so a file is what the reader gets out of
    it.  [f_head_id] is [None] when the file ends before a head id. *)
Record forkdb_file : Type := mk_file {
  f_magic : N;
  f_version : N;
  f_root : bhs;
  f_blocks : list bs;
  f_head_id : option block_id_type
}.

(** Modelled from the spec: [fork_database::min_supported_version] and
    [fork_database::max_supported_version] are declared in the header, which
    is not part of the sources at hand; the file format table gives version 1
    for both. *)
Definition min_supported_version : N := 1.
Definition max_supported_version : N := 1.

(** The merge loop of [close_impl].  [validated] and [unvalidated] are the
    two reverse ranges, front first: each iteration writes the front of one
    of them and advances it. *)
Fixpoint close_merge (validated unvalidated : list bs) : list bs :=
  match validated with
  | [] => unvalidated
  | v :: validated' =>
    (fix against (unvalidated : list bs) : list bs :=
       match unvalidated with
       | [] => v :: validated'
       | u :: unvalidated' =>
           if first_preferred v u then u :: against unvalidated'
           else v :: close_merge validated' unvalidated
       end) unvalidated
  end.

(** The blocks in the order [close_impl] packs them. *)
Definition close_order (idx : fork_multi_index_type) : list bs :=
  close_merge (rev (before_lower_bound_valid false idx))
              (rev (lower_bound_valid false idx)).

(** [close_impl]: the new state and the file written, if any. *)
Definition close_impl (magic_number : N) (db : fork_database_impl)
  : fork_database_impl * option forkdb_file :=
  match root db with
  | None => (db, None)
  | Some r =>
    (mk_db [] (root db) (head db),
     Some (mk_file magic_number max_supported_version (header_state r)
                   (close_order (index db))
                   (option_map id (head db))))
  end.

(** The loop of [open_impl] that re-adds the stored block states. *)
Fixpoint open_add_all (validator : validator_t) (blocks : list bs)
  (db : fork_database_impl) : step :=
  match blocks with
  | [] => (db, Ret tt)
  | s :: rest =>
    match add_impl (Some s) false true validator db with
    | (db', Ret _) => open_add_all validator rest db'
    | failed => failed
    end
  end.

(** The consistency check at the end of [open_impl]. *)
Definition open_check (db : fork_database_impl) : result unit :=
  h <- deref (head db) ;;
  r <- deref (root db) ;;
  match index db with
  | c :: _ =>
      if is_valid c then
        if negb (first_preferred c h) then Ret tt else Throw Corrupt
      else if id h =? id r then Ret tt else Throw Corrupt
  | [] => if id h =? id r then Ret tt else Throw Corrupt
  end.

(** [open_impl] on an existing file.  The third component tells whether the
    file is still on disk afterwards. *)
Definition open_file (magic_number : N) (validator : validator_t)
  (f : forkdb_file) (db : fork_database_impl) : step * option forkdb_file :=
  if negb (f_magic f =? magic_number) then ((db, Throw BadMagic), Some f)
  else if negb ((min_supported_version <=? f_version f)
                && (f_version f <=? max_supported_version))
  then ((db, Throw UnsupportedVersion), Some f)
  else
    let db0 := reset_impl (f_root f) db in
    match open_add_all validator (f_blocks f) db0 with
    | (db1, Ret _) =>
      match f_head_id f, root db1 with
      | None, _ => ((db1, Throw Corrupt), Some f)
      | _, None => ((db1, UB), Some f)
      | Some head_id, Some r =>
        if id r =? head_id then
          let db2 := mk_db (index db1) (root db1) (root db1) in
          match open_check db2 with
          | Ret _ => ((db2, Ret tt), None)
          | failed => ((db2, failed), Some f)
          end
        else
          match get_block_impl db1 head_id with
          | None => ((mk_db (index db1) (root db1) None, Throw Corrupt), Some f)
          | Some h =>
            let db2 := mk_db (index db1) (root db1) (Some h) in
            match open_check db2 with
            | Ret _ => ((db2, Ret tt), None)
            | failed => ((db2, failed), Some f)
            end
          end
      end
    | failed => (failed, Some f)
    end.

Definition open_impl (magic_number : N) (validator : validator_t)
  (file : option forkdb_file) (db : fork_database_impl)
  : step * option forkdb_file :=
  match file with
  | None => ((db, Ret tt), None)
  | Some f => open_file magic_number validator f db
  end.

(** * The facade [fork_database] *)

(** Modelled from the spec: the public class [fork_database_t] is declared in
    the header, which is not part of the sources at hand.  It owns the
    implementation [my] and, next to it, the [chain_head] that
    [switch_from_legacy] reads and writes. *)
Record fork_database_t : Type := mk_fork_database_t {
  my : fork_database_impl;
  chain_head : option bs
}.

(** [fork_database_t(magic_number)]: a fresh implementation, no chain head.
    The magic number is the argument [close_impl] and [open_impl] take. *)
Definition new_fork_database_t : fork_database_t :=
  mk_fork_database_t empty_db None.

(** Modelled from the spec: the members of the class [fork_database], also
    declared in the header: the flag [legacy] that selects the active tree,
    the legacy tree and the instant-finality tree, which is null until it is
    constructed.  Block states of both trees are records of type [bs]. *)
Record fork_database : Type := mk_fork_database {
  legacy : bool;
  fork_db_legacy : fork_database_t;
  fork_db_if : option fork_database_t
}.

(** [fork_database::fork_database]: the legacy tree is created, the
    instant-finality tree is not.  Modelled from the spec: [legacy] starts
    out set, which the header's member initialiser does. *)
Definition new_fork_database : fork_database :=
  mk_fork_database true new_fork_database_t None.

(** [fork_database::close]: [apply] runs [close] on the active tree.
    Modelled from the spec: [apply] dispatches on [legacy]; the
    instant-finality tree is dereferenced, so a null one is undefined
    behaviour.  [legacy_magic_number] and [magic_number] stand for
    [fork_database_legacy_t::legacy_magic_number] and
    [fork_database_if_t::magic_number], header constants given to the two
    trees when they are constructed. *)
Definition fork_database_close (legacy_magic_number magic_number : N)
  (fd : fork_database) : (fork_database * result unit) * option forkdb_file :=
  if legacy fd then
    let (db', file) := close_impl legacy_magic_number (my (fork_db_legacy fd)) in
    ((mk_fork_database (legacy fd)
        (mk_fork_database_t db' (chain_head (fork_db_legacy fd)))
        (fork_db_if fd), Ret tt), file)
  else
    match fork_db_if fd with
    | None => ((fd, UB), None)
    | Some t =>
      let (db', file) := close_impl magic_number (my t) in
      ((mk_fork_database (legacy fd) (fork_db_legacy fd)
          (Some (mk_fork_database_t db' (chain_head t))), Ret tt), file)
    end.

(** [fork_database::open] on the file of the data directory, if there is
    one: the totem picks the tree that reads the file.  An
    instant-finality file replaces the instant-finality tree by a fresh one
    and clears [legacy] before that tree's [open] runs.  Modelled from the
    spec: [apply_legacy] and [apply_if], declared in the header, run their
    argument on the legacy tree and on the instant-finality tree. *)
Definition fork_database_open (legacy_magic_number magic_number : N)
  (validator : validator_t) (file : option forkdb_file) (fd : fork_database)
  : (fork_database * result unit) * option forkdb_file :=
  match file with
  | None => ((fd, Ret tt), None)
  | Some f =>
    let totem := f_magic f in
    if negb ((totem =? legacy_magic_number) || (totem =? magic_number))
    then ((fd, Throw BadMagic), Some f)
    else if totem =? legacy_magic_number then
      let '((db', r), file') :=
        open_impl legacy_magic_number validator (Some f)
                  (my (fork_db_legacy fd)) in
      ((mk_fork_database (legacy fd)
          (mk_fork_database_t db' (chain_head (fork_db_legacy fd)))
          (fork_db_if fd), r), file')
    else
      let '((db', r), file') :=
        open_impl magic_number validator (Some f) (my new_fork_database_t) in
      ((mk_fork_database false (fork_db_legacy fd)
          (Some (mk_fork_database_t db' (chain_head new_fork_database_t))), r),
       file')
  end.

(** [fork_database::switch_from_legacy].  [convert] is the constructor of an
    instant-finality block state from a legacy one, which the block state
    classes supply.  A failed [assert(legacy)] and a null legacy chain head
    are undefined behaviour. *)
Definition switch_from_legacy (convert : bs -> bs) (fd : fork_database)
  : fork_database * result unit :=
  if negb (legacy fd) then (fd, UB)
  else
    match chain_head (fork_db_legacy fd) with
    | None => (fd, UB)
    | Some head =>
      let new_head := convert head in
      (mk_fork_database false (fork_db_legacy fd)
         (Some (mk_fork_database_t
                  (reset_impl (header_state new_head) (my new_fork_database_t))
                  (Some new_head))),
       Ret tt)
    end.

(** * Specification vocabulary *)

(** The ordered view really is ordered. *)
Definition ordered (idx : fork_multi_index_type) : Prop :=
  StronglySorted (fun a b => by_lib_less a b = true) idx.

(** Invariant 2 of the data model: ids are unique across root and index. *)
Definition ids_unique (db : fork_database_impl) : Prop :=
  match root db with
  | Some r => NoDup (id r :: map id (index db))
  | None => NoDup (map id (index db))
  end.

(** Linked block states sit strictly above their parent. *)
Definition parent_below (idx : fork_multi_index_type) : Prop :=
  forall n p, In n idx -> In p idx -> id p = previous n ->
              block_num p < block_num n.

(** Invariant 1 of the data model: every [previous] resolves to the root or
    to an index entry. *)
Definition linked (db : fork_database_impl) : Prop :=
  forall n, In n (index db) ->
    (exists r, root db = Some r /\ previous n = id r)
    \/ (exists p, In p (index db) /\ id p = previous n).

(** The branch of [h] inside the index: [h], its parent, ... until the walk
    leaves the index. *)
Inductive branch_in_index (idx : fork_multi_index_type)
  : block_id_type -> list bs -> Prop :=
| branch_off : forall h,
    index_find h idx = None -> branch_in_index idx h []
| branch_on : forall h n l,
    index_find h idx = Some n ->
    branch_in_index idx (previous n) l ->
    branch_in_index idx h (n :: l).

(** The branch of [h] as the data model has it, without reference to any
    lookup: the entry that carries the id [h], then the entry that carries
    its [previous], and so on, up to an id that no entry carries (the root's,
    in a linked tree). *)
Inductive index_branch (idx : fork_multi_index_type)
  : block_id_type -> list bs -> Prop :=
| index_branch_end : forall h,
    (forall n, In n idx -> id n <> h) -> index_branch idx h []
| index_branch_step : forall h n l,
    In n idx -> id n = h -> index_branch idx (previous n) l ->
    index_branch idx h (n :: l).

Definition descending_block_num (l : list bs) : Prop :=
  StronglySorted (fun a b => block_num b < block_num a) l.

(** The first entry of the ordered view whose validity flag is unset. *)
Definition first_unvalidated (idx : fork_multi_index_type) : option bs :=
  find (fun e => negb (is_valid e)) idx.

(** The order in which [close_impl] really writes: [a] may precede [b] when
    [a] is not preferred over [b] and, on a tie of the fork-choice keys, when
    [a] is validated or [b] is not. *)
Definition written_before_ok (a b : bs) : Prop :=
  first_preferred a b = false
  /\ (first_preferred b a = false -> is_valid a = false -> is_valid b = false).

(** [descends idx a x]: the index entry with id [x] has [a] among its
    ancestors, following [previous] through index entries. *)
Inductive descends (idx : fork_multi_index_type)
  : block_id_type -> block_id_type -> Prop :=
| descends_child : forall a n,
    In n idx -> previous n = a -> descends idx a (id n)
| descends_step : forall a n,
    In n idx -> descends idx a (previous n) -> descends idx a (id n).

(** The ids a scan started from the queue [q] gets to. *)
Definition reach (idx : fork_multi_index_type) (q : list block_id_type)
  (x : block_id_type) : Prop :=
  In x q \/ exists y, In y q /\ descends idx y x.

(** A bound above every block number of the index. *)
Definition height_bound (idx : fork_multi_index_type) : nat :=
  S (list_max (map (fun e => N.to_nat (block_num e)) idx)).

(** The ids enqueued while [x] is processed by the scan of [remove_impl]. *)
Definition kids (idx : fork_multi_index_type) (x : block_id_type)
  : list block_id_type :=
  map id (children_of x idx).

(** Children of the queue's elements all have a block number of at least
    [b]. *)
Definition kids_above (idx : fork_multi_index_type) (b : nat)
  (q : list block_id_type) : Prop :=
  forall x c, In x q -> In c idx -> previous c = x ->
              (b <= N.to_nat (block_num c))%nat.

(** What the scan of [remove_impl] comes to, for every large enough fuel:
    it throws when the head's id is reached from the queue, and otherwise
    returns the ids reached. *)
Definition scan_settles (idx : fork_multi_index_type) (hid : block_id_type)
  (done q : list block_id_type) : Prop :=
  exists f0,
    (reach idx q hid
     /\ forall f, (f0 <= f)%nat ->
          remove_scan f hid idx done q = Throw WouldRemoveHead)
    \/ (~ reach idx q hid
        /\ exists out,
             (forall f, (f0 <= f)%nat ->
                remove_scan f hid idx done q = Ret (done ++ out))
             /\ forall x, In x out <-> reach idx q x).

(** [s] is a part of [idx] that keeps, with every entry, the entry's parent
    when [idx] has it: what is missing from [s] is a union of subtrees. *)
Definition ancestor_closed (idx s : fork_multi_index_type) : Prop :=
  (forall n, In n s -> In n idx)
  /\ (forall n p, In n s -> In p idx -> id p = previous n -> In p s).

(** The structural invariants of a tree: unique ids, resolvable parents, and
    linked entries above their parents. *)
Definition well_formed (db : fork_database_impl) : Prop :=
  ids_unique db /\ linked db /\ parent_below (index db).

(** ** Histories of a fork database *)

Inductive operation : Type :=
| OpReset (root_bhs : bhs)
| OpAdd (n : option bs) (ignore_duplicate : bool)
| OpMarkValid (h : bs)
| OpRollbackHeadToRoot
| OpAdvanceRoot (fuel : nat) (i : block_id_type)
| OpRemove (fuel : nat) (i : block_id_type)
| OpClose (magic_number : N)
| OpOpen (magic_number : N) (validator : validator_t)
         (file : option forkdb_file).

Definition apply_op (o : operation) (db : fork_database_impl) : step :=
  match o with
  | OpReset b => (reset_impl b db, Ret tt)
  | OpAdd n ignore_duplicate => add n ignore_duplicate db
  | OpMarkValid h => mark_valid_impl h db
  | OpRollbackHeadToRoot => (rollback_head_to_root_impl db, Ret tt)
  | OpAdvanceRoot fuel i => advance_root_impl fuel i db
  | OpRemove fuel i => remove_impl fuel i db
  | OpClose m => (fst (close_impl m db), Ret tt)
  | OpOpen m validator file => fst (open_impl m validator file db)
  end.

(** A call that came back, normally or with an exception, leaves a state
    behind. *)
Definition completed (r : result unit) : Prop :=
  r = Ret tt \/ exists e, r = Throw e.

(** States reached from the freshly constructed database by any sequence of
    calls. *)
Inductive reachable : fork_database_impl -> Prop :=
| reachable_empty : reachable empty_db
| reachable_op : forall db o db' r,
    reachable db -> apply_op o db = (db', r) -> completed r ->
    reachable db'.

(** The head id stored in a file does not name a block stored as not
    validated. *)
Definition head_stored_valid (f : forkdb_file) : Prop :=
  forall hid b, f_head_id f = Some hid -> In b (f_blocks f) -> id b = hid ->
                is_valid b = true.

(** Calls after which the head is known to be sound: every call except an
    [open] that throws or that reads a file whose head is stored as not
    validated. *)
Definition sound_call (o : operation) (r : result unit) : Prop :=
  match o with
  | OpOpen _ _ (Some f) => r = Ret tt /\ head_stored_valid f
  | _ => completed r
  end.

Inductive reachable_sound : fork_database_impl -> Prop :=
| reachable_sound_empty : reachable_sound empty_db
| reachable_sound_op : forall db o db' r,
    reachable_sound db -> apply_op o db = (db', r) -> sound_call o r ->
    reachable_sound db'.

Definition is_close (o : operation) : bool :=
  match o with OpClose _ => true | _ => false end.

(** The same, without any [close]. *)
Inductive reachable_open : fork_database_impl -> Prop :=
| reachable_open_empty : reachable_open empty_db
| reachable_open_op : forall db o db' r,
    reachable_open db -> apply_op o db = (db', r) -> sound_call o r ->
    is_close o = false -> reachable_open db'.

(** States reached by any calls that came back, none of them a [close]: the
    head, when it is an index entry by its contents, points at that entry. *)
Inductive reachable_unclosed : fork_database_impl -> Prop :=
| reachable_unclosed_empty : reachable_unclosed empty_db
| reachable_unclosed_op : forall db o db' r,
    reachable_unclosed db -> apply_op o db = (db', r) -> completed r ->
    is_close o = false -> reachable_unclosed db'.

(** Invariants 3 and 4 of the data model. *)
Definition head_is_best (db : fork_database_impl) : Prop :=
  forall h, head db = Some h ->
    is_valid h = true
    /\ forall n, In n (index db) -> is_valid n = true ->
                 first_preferred n h = false.

(** What every sound history maintains. *)
Definition fork_inv (db : fork_database_impl) : Prop :=
  (root db = None -> index db = [] /\ head db = None)
  /\ (forall r, root db = Some r ->
        is_valid r = true /\ exists h, head db = Some h)
  /\ head_is_best db
  /\ ordered (index db).

(** The head is the root or an index entry, and index ids are unique. *)
Definition head_in_tree (db : fork_database_impl) : Prop :=
  NoDup (map id (index db))
  /\ forall h, head db = Some h -> root db = Some h \/ In h (index db).

(** ** Lineages *)

(** An id resolved in {root} and index, the way [fetch_branch_from_impl]
    does it. *)
Definition resolve (db : fork_database_impl) (x : block_id_type) : option bs :=
  match root db with
  | Some r => root_or_block db r x
  | None => None
  end.

(** The tree of the data model: unique ids, and every index entry linked to a
    parent exactly one block number below it. *)
Definition tree (db : fork_database_impl) : Prop :=
  ids_unique db
  /\ forall n, In n (index db) ->
       exists p, resolve db (previous n) = Some p
                 /\ block_num n = block_num p + 1.

(** [lineage db n l]: [l] is the branch of the node [n] up to and including
    the root, tip first. *)
Inductive lineage (db : fork_database_impl) : bs -> list bs -> Prop :=
| lineage_root : forall r, root db = Some r -> lineage db r [r]
| lineage_step : forall n p l,
    In n (index db) -> resolve db (previous n) = Some p ->
    lineage db p l -> lineage db n (n :: l).

(** Two branch prefixes cut off a common suffix that cannot be made longer. *)
Definition cut_at_lowest_common (first second : list bs) : Prop :=
  forall first' second' x,
    first = first' ++ [x] -> second = second' ++ [x] -> False.

(** ** The branch pair, step by step *)

(** What [fetch_branch_from] is to compute, written over the data model
    alone: ids are resolved by membership in {root} and index, not by a
    lookup. *)

(** [n] is the node with id [x]: the root, or else an index entry. *)
Definition node_with (db : fork_database_impl) (r : bs) (x : block_id_type)
  (n : bs) : Prop :=
  (x = id r /\ n = r) \/ (x <> id r /\ In n (index db) /\ id n = x).

(** No node has the id [x]. *)
Definition no_node (db : fork_database_impl) (r : bs) (x : block_id_type)
  : Prop :=
  x <> id r /\ forall n, In n (index db) -> id n <> x.

(** No index entry has the id [x]. *)
Definition no_entry (db : fork_database_impl) (x : block_id_type) : Prop :=
  forall n, In n (index db) -> id n <> x.

(** One side climbs while it is above [floor].  [Some (l, m)]: it passed the
    nodes [l], tip first, and stands on [m]; [None]: it came to a node above
    [floor] whose parent is no node. *)
Inductive climb (db : fork_database_impl) (r : bs) (floor : N)
  : bs -> option (list bs * bs) -> Prop :=
| climb_stop : forall n,
    block_num n <= floor -> climb db r floor n (Some ([], n))
| climb_lost : forall n,
    floor < block_num n -> no_node db r (previous n) ->
    climb db r floor n None
| climb_up : forall n p l m,
    floor < block_num n -> node_with db r (previous n) p ->
    climb db r floor p (Some (l, m)) ->
    climb db r floor n (Some (n :: l, m))
| climb_up_lost : forall n p,
    floor < block_num n -> node_with db r (previous n) p ->
    climb db r floor p None ->
    climb db r floor n None.

(** Both sides climb together until they have the same parent.
    [Some (l1, l2)]: the nodes passed on either side, the last pair, which
    shares its parent, included; [None]: a parent that had to be an index
    entry was not. *)
Inductive climb_both (db : fork_database_impl)
  : bs -> bs -> option (list bs * list bs) -> Prop :=
| climb_both_meet : forall x y,
    previous x = previous y -> climb_both db x y (Some ([x], [y]))
| climb_both_lost : forall x y,
    previous x <> previous y ->
    no_entry db (previous x) \/ no_entry db (previous y) ->
    climb_both db x y None
| climb_both_up : forall x y x' y' l1 l2,
    previous x <> previous y ->
    In x' (index db) -> id x' = previous x ->
    In y' (index db) -> id y' = previous y ->
    climb_both db x' y' (Some (l1, l2)) ->
    climb_both db x y (Some (x :: l1, y :: l2))
| climb_both_up_lost : forall x y x' y',
    previous x <> previous y ->
    In x' (index db) -> id x' = previous x ->
    In y' (index db) -> id y' = previous y ->
    climb_both db x' y' None ->
    climb_both db x y None.

(** The whole computation for the ids [a] and [b]: resolve both, let the
    first climb to the height of the second, then the second to the height
    the first has reached, and, unless they now stand on the same id, let
    both climb together.  [None] is the not-found failure. *)
Inductive branch_pair (db : fork_database_impl) (r : bs)
  (a b : block_id_type) : option (list bs * list bs) -> Prop :=
| branch_pair_unknown :
    no_node db r a \/ no_node db r b -> branch_pair db r a b None
| branch_pair_first_lost : forall na nb,
    node_with db r a na -> node_with db r b nb ->
    climb db r (block_num nb) na None ->
    branch_pair db r a b None
| branch_pair_second_lost : forall na nb l1 m1,
    node_with db r a na -> node_with db r b nb ->
    climb db r (block_num nb) na (Some (l1, m1)) ->
    climb db r (block_num m1) nb None ->
    branch_pair db r a b None
| branch_pair_same : forall na nb l1 m1 l2 m2,
    node_with db r a na -> node_with db r b nb ->
    climb db r (block_num nb) na (Some (l1, m1)) ->
    climb db r (block_num m1) nb (Some (l2, m2)) ->
    id m1 = id m2 ->
    branch_pair db r a b (Some (l1, l2))
| branch_pair_apart : forall na nb l1 m1 l2 m2 t1 t2,
    node_with db r a na -> node_with db r b nb ->
    climb db r (block_num nb) na (Some (l1, m1)) ->
    climb db r (block_num m1) nb (Some (l2, m2)) ->
    id m1 <> id m2 ->
    climb_both db m1 m2 (Some (t1, t2)) ->
    branch_pair db r a b (Some (l1 ++ t1, l2 ++ t2))
| branch_pair_both_lost : forall na nb l1 m1 l2 m2,
    node_with db r a na -> node_with db r b nb ->
    climb db r (block_num nb) na (Some (l1, m1)) ->
    climb db r (block_num m1) nb (Some (l2, m2)) ->
    id m1 <> id m2 ->
    climb_both db m1 m2 None ->
    branch_pair db r a b None.

(** ** Round trip *)

(** The irreversibility number does not decrease along a branch. *)
Definition irr_monotone (db : fork_database_impl) : Prop :=
  forall n p, In n (index db) -> resolve db (previous n) = Some p ->
              irreversible_blocknum p <= irreversible_blocknum n.

(** The validator lets every index entry through, next to its parent. *)
Definition validator_accepts (validator : validator_t)
  (db : fork_database_impl) : Prop :=
  forall n p, In n (index db) -> resolve db (previous n) = Some p ->
              validator n p = true.

(** The index after inserting the blocks of a list one after the other. *)
Definition insert_all (blocks : list bs) (idx : fork_multi_index_type)
  : fork_multi_index_type :=
  fold_left (fun acc n => ordered_insert n acc) blocks idx.

(** ** Histories that keep every parent resolvable *)

(** The one way a call leaves entries without a parent: [advance_root]
    throwing out of its pruning phase. *)
Definition orphaning (o : operation) (r : result unit) : Prop :=
  match o with
  | OpAdvanceRoot _ _ => r = Throw WouldRemoveHead
  | _ => False
  end.

Inductive reachable_linked : fork_database_impl -> Prop :=
| reachable_linked_empty : reachable_linked empty_db
| reachable_linked_op : forall db o db' r,
    reachable_linked db -> apply_op o db = (db', r) -> completed r ->
    ~ orphaning o r -> reachable_linked db'.

(** ** What the store keeps whatever is called *)

(** The index is in its order and holds each id once; nothing is stored
    before a root is set; the root is validated. *)
Definition store_inv (db : fork_database_impl) : Prop :=
  ordered (index db)
  /\ NoDup (map id (index db))
  /\ (root db = None -> index db = [] /\ head db = None)
  /\ (forall r, root db = Some r -> is_valid r = true).

(** ** Calls that keep the numbering *)

(** Every call but an [open] that reads a file; an [add] counts when the block
    state it adds is numbered one above its parent and has another id than
    the root. *)
Definition numbered_call (db : fork_database_impl) (o : operation) : Prop :=
  match o with
  | OpAdd (Some n) _ =>
      (forall r, root db = Some r -> id n <> id r)
      /\ (forall p, resolve db (previous n) = Some p ->
                    block_num n = block_num p + 1)
  | OpOpen _ _ (Some _) => False
  | _ => True
  end.

(** * Scenarios

    Small concrete trees, built with the operations themselves. *)

Definition run (ops : list (fork_database_impl -> step))
  (db : fork_database_impl) : fork_database_impl :=
  fold_left (fun d op => fst (op d)) ops db.

Definition R0 : bhs := mk_bhs 1 0 10 5.
Definition root0 : bs := mk_bs 1 0 10 5 true.
Definition A1 : bs := mk_bs 2 1 11 5 true.
Definition B2 : bs := mk_bs 3 2 12 5 false.

(** Root, a validated child and a pending grandchild. *)
Definition db_pending : fork_database_impl :=
  run [add (Some A1) false; add (Some B2) false] (reset_impl R0 empty_db).

Definition C3 : bs := mk_bs 4 3 13 5 false.

(** Root, a validated child and two pending descendants in a line. *)
Definition db_line : fork_database_impl :=
  run [add (Some A1) false; add (Some B2) false; add (Some C3) false]
      (reset_impl R0 empty_db).

Definition A2 : bs := mk_bs 5 1 11 5 true.
Definition B6 : bs := mk_bs 6 5 12 5 true.
Definition C7 : bs := mk_bs 7 2 12 5 false.

(** Two branches off the root: A1 <- C7 (pending) and A2 <- B6 (the head). *)
Definition db_fork : fork_database_impl :=
  run [add (Some A1) false; add (Some A2) false; add (Some B6) false;
       add (Some C7) false]
      (reset_impl R0 empty_db).

Definition A3 : bs := mk_bs 8 1 11 5 false.

(** Scenario S4: A1 (validated, head) and A3 hang off the root, C7 off A1. *)
Definition db_s4 : fork_database_impl :=
  run [add (Some A1) false; add (Some A3) false; add (Some C7) false]
      (reset_impl R0 empty_db).

Definition X9 : bs := mk_bs 9 1 12 5 false.

(** A file whose head id names a block stored as not validated, next to a
    validated block that is not preferred over it. *)
Definition file_pending_head : forkdb_file :=
  mk_file 7 1 R0 [A1; X9] (Some 9).

Definition db_opened : fork_database_impl :=
  fst (apply_op (OpOpen 7 (fun _ _ => true) (Some file_pending_head)) empty_db).

(** Reset, one validated block, then close. *)
Definition db_closed : fork_database_impl :=
  fst (apply_op (OpClose 7)
         (fst (apply_op (OpAdd (Some A1) false)
                 (fst (apply_op (OpReset R0) empty_db))))).

(** The tree of [db_fork] after [advance_root] to A1 has failed on the head
    B6: A1 is gone from the index and C7 has lost its parent. *)
Definition db_orphaned : fork_database_impl :=
  fst (advance_root_impl 10 2 db_fork).

(** * Properties *)

(** ** The head next to a modified entry *)

Lemma same_block_state_eq : forall a b, same_block_state a b = true -> a = b.
Proof.
  intros [a1 a2 a3 a4 a5] [b1 b2 b3 b4 b5] H. unfold same_block_state in H.
  simpl in H. repeat (apply andb_prop in H; destruct H as [H ?]).
  repeat match goal with
  | E : (_ =? _) = true |- _ => apply N.eqb_eq in E
  | E : Bool.eqb _ _ = true |- _ => apply Bool.eqb_prop in E
  end.
  congruence.
Qed.

Lemma same_block_state_refl : forall a, same_block_state a a = true.
Proof.
  intros a. unfold same_block_state. rewrite !N.eqb_refl, Bool.eqb_reflx.
  reflexivity.
Qed.

Lemma head_after_modify_cases : forall e head hd,
  head_after_modify e head = Some hd ->
  exists h0, head = Some h0
             /\ ((hd = h0 /\ h0 <> e) \/ (h0 = e /\ hd = set_valid true e)).
Proof.
  intros e [h0|] hd H; simpl in H; [|discriminate]. exists h0. split; [auto|].
  destruct (same_block_state h0 e) eqn:E; inversion H; subst.
  - right. apply same_block_state_eq in E. subst. auto.
  - left. split; [auto|]. intros ->. now rewrite same_block_state_refl in E.
Qed.

Lemma head_after_modify_valid : forall e h0,
  is_valid h0 = true -> head_after_modify e (Some h0) = Some h0.
Proof.
  intros e h0 Hv. simpl. destruct (same_block_state h0 e); [|reflexivity].
  f_equal. rewrite <- Hv. now destruct h0.
Qed.

(** ** Container lemmas *)

Lemma index_find_some : forall i idx n,
  index_find i idx = Some n -> In n idx /\ id n = i.
Proof.
  unfold index_find. intros i idx n H.
  apply find_some in H. destruct H as [Hin Heq].
  apply N.eqb_eq in Heq. auto.
Qed.

Lemma index_find_none : forall i idx,
  index_find i idx = None -> forall n, In n idx -> id n <> i.
Proof.
  unfold index_find. intros i idx H n Hin Heq.
  apply (find_none _ _ H) in Hin. apply N.eqb_neq in Hin. auto.
Qed.

Lemma index_find_not_in : forall i idx,
  ~ In i (map id idx) -> index_find i idx = None.
Proof.
  intros i idx Hni. destruct (index_find i idx) as [n|] eqn:E; auto.
  apply index_find_some in E. destruct E as [Hin Heq].
  exfalso. apply Hni. rewrite <- Heq. now apply in_map.
Qed.

Lemma index_find_in_unique : forall idx n,
  NoDup (map id idx) -> In n idx -> index_find (id n) idx = Some n.
Proof.
  induction idx as [|e rest IH]; simpl; intros n Hnd Hin; [contradiction|].
  inversion Hnd as [|x l Hni Hnd']; subst.
  unfold index_find in *. simpl.
  destruct Hin as [->|Hin].
  - now rewrite N.eqb_refl.
  - destruct (id e =? id n) eqn:E.
    + apply N.eqb_eq in E. exfalso. apply Hni. rewrite E. now apply in_map.
    + now apply IH.
Qed.

Lemma lower_bound_false_hd : forall idx,
  hd_error (lower_bound_valid false idx) = first_unvalidated idx.
Proof.
  unfold first_unvalidated.
  induction idx as [|e rest IH]; simpl; auto.
  unfold bool_gt. destruct (is_valid e); simpl; auto.
Qed.

(** ** The scenarios, replayed *)

(** S1: a linear chain; the head follows [mark_valid]. *)
Example scenario_linear_chain :
  let db1 := fst (add (Some B2) false
                    (fst (add (Some A1) false (reset_impl R0 empty_db)))) in
  head db1 = Some A1
  /\ head (fst (mark_valid_impl B2 db1)) = Some (set_valid true B2).
Proof. split; reflexivity. Qed.

(** S2: validity does not break a tie of the fork-choice keys. *)
Example scenario_tie :
  let db1 := fst (add (Some A3) false
                    (fst (add (Some A1) false (reset_impl R0 empty_db)))) in
  head db1 = Some A1
  /\ first_preferred (set_valid true A3) A1 = false
  /\ head (fst (mark_valid_impl A3 db1)) = Some A1.
Proof. repeat split; reflexivity. Qed.

(** S5: [remove] refuses to strand the head. *)
Example scenario_remove_refuses :
  head db_fork = Some B6
  /\ remove_impl 5 5 db_fork = (db_fork, Throw WouldRemoveHead)
  /\ index (fst (remove_impl 5 2 db_fork)) = [B6; A2].
Proof. repeat split; reflexivity. Qed.

(** ** Lookups (C10) *)

(** C10. In a tree whose root is set and whose ids are unique across root and
    index, [get_block] of the root id is null while [get_block_header] of it is
    the root; an id that is neither the root's nor in the index gives null from
    both, and neither lookup throws. *)
Theorem get_block_root_null_header_root :
  forall db r, root db = Some r -> ids_unique db ->
    get_block_impl db (id r) = None
    /\ get_block_header_impl db (id r) = Ret (Some r)
    /\ (forall i, i <> id r -> ~ In i (map id (index db)) ->
          get_block_impl db i = None
          /\ get_block_header_impl db i = Ret None).
Proof.
  intros db r Hr Hu. unfold ids_unique in Hu. rewrite Hr in Hu.
  inversion Hu as [|x l Hni Hnd]; subst.
  unfold get_block_impl, get_block_header_impl. rewrite Hr. simpl.
  rewrite N.eqb_refl. repeat split.
  - now apply index_find_not_in.
  - now apply index_find_not_in.
  - destruct (id r =? i) eqn:E.
    + apply N.eqb_eq in E. congruence.
    + now rewrite index_find_not_in.
Qed.

Lemma get_block_root_null_header_root_witness :
  get_block_impl db_pending 1 = None
  /\ get_block_header_impl db_pending 1 = Ret (Some root0)
  /\ (forall i, i <> 1 -> ~ In i (map id (index db_pending)) ->
        get_block_impl db_pending i = None
        /\ get_block_header_impl db_pending i = Ret None).
Proof.
  apply (get_block_root_null_header_root db_pending root0).
  - reflexivity.
  - vm_compute. repeat constructor; simpl; intuition discriminate.
Defined.

(** ** pending_head (C2) *)

(** C2, as stated, fails: in the tree root <- A1 (valid, head) <- B2 (pending)
    the first entry of the ordered view is A1, which is valid, so the stated
    rule answers [head]; the code answers B2. *)
Lemma pending_head_not_first_entry :
  hd_error (index db_pending) = Some A1
  /\ is_valid A1 = true
  /\ head db_pending = Some A1
  /\ pending_head db_pending = Ret (Some B2)
  /\ Some B2 <> head db_pending.
Proof. vm_compute. repeat split; discriminate. Qed.

(** C2, amended. With [c] the first entry of the ordered view whose validity
    flag is unset (the lower bound of the unvalidated range, not the first
    entry overall): [pending_head] returns [c] when [c] exists and
    [first_preferred c head]; in every other case it returns [head]. *)
Theorem pending_head_first_unvalidated :
  forall db h, head db = Some h ->
    pending_head db =
      match first_unvalidated (index db) with
      | Some c => if first_preferred c h then Ret (Some c) else Ret (Some h)
      | None => Ret (Some h)
      end.
Proof.
  intros db h Hh. unfold pending_head.
  rewrite <- lower_bound_false_hd.
  destruct (lower_bound_valid false (index db)) as [|c rest] eqn:E; simpl.
  - now rewrite Hh.
  - assert (Hc : is_valid c = false).
    { clear Hh. revert E. induction (index db) as [|e l IH]; simpl; [discriminate|].
      unfold bool_gt. destruct (is_valid e) eqn:Ev; simpl; auto.
      intros E. inversion E; subst. exact Ev. }
    rewrite Hc, Hh. simpl. destruct (first_preferred c h); reflexivity.
Qed.

Lemma pending_head_first_unvalidated_witness :
  pending_head db_pending = Ret (Some B2).
Proof.
  rewrite (pending_head_first_unvalidated db_pending A1); reflexivity.
Defined.

(** ** fetch_branch (C9) *)

Lemma branch_in_index_in : forall idx h l,
  branch_in_index idx h l -> forall n, In n l -> In n idx.
Proof.
  induction 1 as [|h n l Hf _ IH]; simpl; intros m Hm; [contradiction|].
  destruct Hm as [<-|Hm]; auto.
  now apply index_find_some in Hf.
Qed.

(** Under [parent_below] the walk leaves the index after finitely many steps:
    the branch exists. *)
Lemma branch_in_index_exists : forall idx, parent_below idx ->
  forall h, exists l, branch_in_index idx h l.
Proof.
  intros idx Hpb.
  assert (H : forall k n, In n idx -> (N.to_nat (block_num n) < k)%nat ->
                exists l, branch_in_index idx (previous n) l).
  { induction k as [|k IH]; intros n Hin Hk; [lia|].
    destruct (index_find (previous n) idx) as [p|] eqn:E.
    - destruct (index_find_some _ _ _ E) as [Hp Hid].
      destruct (IH p Hp) as [l Hl].
      + specialize (Hpb n p Hin Hp Hid). lia.
      + exists (p :: l). now apply branch_on.
    - exists []. now apply branch_off. }
  intros h. destruct (index_find h idx) as [n|] eqn:E.
  - destruct (index_find_some _ _ _ E) as [Hin _].
    destruct (H (S (N.to_nat (block_num n))) n Hin) as [l Hl]; [lia|].
    exists (n :: l). now apply branch_on.
  - exists []. now apply branch_off.
Qed.

Lemma branch_in_index_descending : forall idx, parent_below idx ->
  forall h l, branch_in_index idx h l -> descending_block_num l.
Proof.
  intros idx Hpb h l Hb. unfold descending_block_num.
  induction Hb as [|h n l Hf Hb IH]; constructor; auto.
  destruct (index_find_some _ _ _ Hf) as [Hn _].
  clear Hf. revert n Hn Hb IH.
  induction l as [|m l IHl]; intros n Hn Hb IH; constructor.
  - inversion Hb as [|h' m' l' Hfm Hb']; subst.
    destruct (index_find_some _ _ _ Hfm) as [Hm Hid].
    now apply (Hpb n m).
  - inversion Hb as [|h' m' l' Hfm Hb']; subst.
    destruct (index_find_some _ _ _ Hfm) as [Hm Hid].
    inversion IH as [|x y Hs Hall]; subst.
    pose proof (Hpb n m Hn Hm Hid) as Hlt.
    clear - Hall Hlt. induction Hall; constructor; auto. lia.
Qed.

Lemma fetch_branch_loop_spec : forall idx rt hd trim h l,
  branch_in_index idx h l ->
  forall fuel res, (length l < fuel)%nat ->
    fetch_branch_loop fuel (mk_db idx rt hd) trim (index_find h idx) res
    = Ret (res ++ filter (fun n => block_num n <=? trim) l).
Proof.
  induction 1 as [h Hf|h n l Hf Hb IH]; intros fuel res Hfuel.
  - rewrite Hf. destruct fuel; simpl; now rewrite app_nil_r.
  - rewrite Hf. destruct fuel as [|fuel]; simpl in *; [lia|].
    unfold get_block_impl. simpl. rewrite IH by lia.
    destruct (block_num n <=? trim); simpl.
    + now rewrite <- app_assoc.
    + reflexivity.
Qed.

Lemma branch_in_index_last : forall db, linked db ->
  forall h l, branch_in_index (index db) h l -> l <> [] ->
    exists r, root db = Some r /\ previous (last l root0) = id r.
Proof.
  intros db Hl h l Hb. induction Hb as [h Hf|h n l Hf Hb IH]; intros Hne.
  - congruence.
  - destruct l as [|m l'].
    + simpl. inversion Hb as [h' Hnone|]; subst.
      destruct (index_find_some _ _ _ Hf) as [Hn _].
      destruct (Hl n Hn) as [Hr|[p [Hp Hid]]]; auto.
      exfalso. now apply (index_find_none _ _ Hnone p).
    + change (last (n :: m :: l') root0) with (last (m :: l') root0).
      apply IH. discriminate.
Qed.

Lemma branch_in_index_model : forall idx h l,
  branch_in_index idx h l -> index_branch idx h l.
Proof.
  induction 1 as [h Hnone|h n l Hsome _ IH].
  - constructor. intros n Hn. now apply (index_find_none _ _ Hnone).
  - destruct (index_find_some _ _ _ Hsome) as [Hn Hid].
    now apply index_branch_step.
Qed.

Lemma index_branch_unique : forall idx, NoDup (map id idx) ->
  forall h l, index_branch idx h l ->
  forall l', index_branch idx h l' -> l' = l.
Proof.
  intros idx Hnd h l H.
  induction H as [h Hnone|h n l Hn Hid _ IH]; intros l' H';
    inversion H' as [h' Hnone'|h' n' l'' Hn' Hid' Hb']; subst; auto.
  - exfalso. now apply (Hnone n' Hn').
  - exfalso. now apply (Hnone' n Hn).
  - assert (E : n' = n).
    { pose proof (index_find_in_unique idx n Hnd Hn) as E1.
      pose proof (index_find_in_unique idx n' Hnd Hn') as E2.
      rewrite Hid' in E2. congruence. }
    subst n'. f_equal. now apply IH.
Qed.

(** C9. When linked index entries sit above their parents, [fetch_branch]
    returns (given fuel for the walk) exactly the entries of the branch of [h]
    inside the index whose [block_num] is at most [trim_after], in descending
    [block_num] order.  The branch is the one of the data model: the entry
    whose id is [h], the entry whose id is its [previous], and so on up to an
    id that no entry carries; with unique ids there is only one such chain.
    The root is never among them; with [MAX_U32] nothing is trimmed, and in a
    linked tree the last entry returned hangs off the root. *)
Theorem fetch_branch_returns_trimmed_branch :
  forall db h trim, parent_below (index db) ->
  exists l,
    index_branch (index db) h l
    /\ (NoDup (map id (index db)) ->
        forall l', index_branch (index db) h l' -> l' = l)
    /\ (forall fuel, (length l < fuel)%nat ->
          fetch_branch_impl fuel db h trim
          = Ret (filter (fun n => block_num n <=? trim) l))
    /\ descending_block_num (filter (fun n => block_num n <=? trim) l)
    /\ (forall n, In n l -> In n (index db))
    /\ ((forall n, In n (index db) -> block_num n <= MAX_U32) ->
        forall fuel, (length l < fuel)%nat ->
          fetch_branch_impl fuel db h MAX_U32 = Ret l)
    /\ (linked db -> l <> [] ->
        exists r, root db = Some r /\ previous (last l root0) = id r).
Proof.
  intros db h trim Hpb.
  destruct (branch_in_index_exists _ Hpb h) as [l Hb].
  exists l. destruct db as [idx rt hd]. simpl in *.
  assert (Hrun : forall t fuel, (length l < fuel)%nat ->
            fetch_branch_impl fuel (mk_db idx rt hd) h t
            = Ret (filter (fun n => block_num n <=? t) l)).
  { intros t fuel Hfuel. unfold fetch_branch_impl, get_block_impl. simpl.
    now rewrite (fetch_branch_loop_spec idx rt hd t h l Hb). }
  split; [|split; [|split; [|split; [|split; [|split]]]]].
  - now apply branch_in_index_model.
  - intros Hnd. apply (index_branch_unique idx Hnd h l).
    now apply branch_in_index_model.
  - apply Hrun.
  - pose proof (branch_in_index_descending _ Hpb _ _ Hb) as Hd.
    unfold descending_block_num in *.
    clear - Hd. induction Hd as [|a l Hs IH Hall]; simpl; [constructor|].
    destruct (block_num a <=? trim); auto. constructor; auto.
    apply Forall_forall. intros x Hx. apply filter_In in Hx.
    rewrite Forall_forall in Hall. apply Hall. tauto.
  - apply (branch_in_index_in _ _ _ Hb).
  - intros Hmax fuel Hfuel. rewrite (Hrun MAX_U32 fuel Hfuel). f_equal.
    pose proof (branch_in_index_in _ _ _ Hb) as Hin.
    clear - Hin Hmax. induction l as [|a l IH]; simpl; auto.
    assert (Ha : (block_num a <=? MAX_U32) = true).
    { apply N.leb_le. apply Hmax. apply Hin. now left. }
    rewrite Ha. f_equal. apply IH. intros n Hn. apply Hin. now right.
  - intros Hl Hne. now apply (branch_in_index_last (mk_db idx rt hd) Hl h l).
Qed.

Lemma fetch_branch_returns_trimmed_branch_witness :
  parent_below (index db_line)
  /\ index_branch (index db_line) 4 [C3; B2; A1]
  /\ fetch_branch_impl 4 db_line 4 12 = Ret [B2; A1]
  /\ fetch_branch_impl 4 db_line 4 MAX_U32 = Ret [C3; B2; A1]
  /\ fetch_branch_impl 4 db_line (id root0) MAX_U32 = Ret [].
Proof.
  assert (Hpb : parent_below (index db_line)).
  { intros n p Hn Hp. vm_compute in Hn, Hp.
    destruct Hn as [<-|[<-|[<-|[]]]]; destruct Hp as [<-|[<-|[<-|[]]]];
      vm_compute; intros; congruence. }
  assert (Hnd : NoDup (map id (index db_line))).
  { vm_compute. repeat constructor; simpl; intuition discriminate. }
  assert (Hbr : index_branch (index db_line) 4 [C3; B2; A1]).
  { apply index_branch_step; [vm_compute; tauto|reflexivity|].
    apply index_branch_step; [vm_compute; tauto|reflexivity|].
    apply index_branch_step; [vm_compute; tauto|reflexivity|].
    apply index_branch_end. intros n Hn. vm_compute in Hn.
    destruct Hn as [<-|[<-|[<-|[]]]]; discriminate. }
  split; [exact Hpb|]. split; [exact Hbr|].
  destruct (fetch_branch_returns_trimmed_branch db_line 4 12 Hpb)
    as [l [_ [Huniq [Hrun [_ [_ [Hmax _]]]]]]].
  pose proof (Huniq Hnd _ Hbr) as El. subst l.
  split; [exact (Hrun 4%nat (Nat.lt_succ_diag_r 3))|].
  split.
  - apply Hmax; [|exact (Nat.lt_succ_diag_r 3)].
    intros n Hn. vm_compute in Hn.
    destruct Hn as [<-|[<-|[<-|[]]]]; vm_compute; discriminate.
  - destruct (fetch_branch_returns_trimmed_branch db_line (id root0) MAX_U32
                Hpb) as [l [_ [Huniq' [Hrun' _]]]].
    assert (El : [] = l).
    { apply (Huniq' Hnd). apply index_branch_end. intros n Hn.
      vm_compute in Hn. destruct Hn as [<-|[<-|[<-|[]]]]; discriminate. }
    subst l. exact (Hrun' 4%nat (Nat.lt_0_succ 3)).
Defined.

(** ** Fork-choice order *)

Ltac fp_cases :=
  unfold first_preferred, by_lib_less, bool_gt in *;
  repeat match goal with
  | H : context [N.ltb ?a ?b] |- _ => destruct (N.ltb_spec a b)
  | |- context [N.ltb ?a ?b] => destruct (N.ltb_spec a b)
  | H : context [is_valid ?a] |- _ => destruct (is_valid a)
  | |- context [is_valid ?a] => destruct (is_valid a)
  end; simpl in *; try congruence; try lia.

Lemma first_preferred_irrefl : forall a, first_preferred a a = false.
Proof. intros a. fp_cases. Qed.

Lemma first_preferred_asym : forall a b,
  first_preferred a b = true -> first_preferred b a = false.
Proof. intros a b H. fp_cases. Qed.

Lemma first_preferred_trans : forall a b c,
  first_preferred a b = true -> first_preferred b c = true ->
  first_preferred a c = true.
Proof. intros a b c H1 H2. fp_cases. Qed.

Lemma first_preferred_neg_trans : forall a b c,
  first_preferred a b = false -> first_preferred b c = false ->
  first_preferred a c = false.
Proof. intros a b c H1 H2. fp_cases. Qed.

Lemma by_lib_less_not_preferred : forall a b,
  by_lib_less a b = true -> is_valid a = is_valid b ->
  first_preferred b a = false.
Proof. intros a b H Hv. fp_cases. Qed.

Lemma by_lib_less_valid : forall a b,
  by_lib_less a b = true -> is_valid a = false -> is_valid b = false.
Proof. intros a b H Hv. fp_cases. Qed.

Lemma by_lib_less_trans : forall a b c,
  by_lib_less a b = true -> by_lib_less b c = true -> by_lib_less a c = true.
Proof. intros a b c H1 H2. fp_cases. Qed.

Lemma by_lib_less_irrefl : forall a, by_lib_less a a = false.
Proof. intros a. fp_cases. Qed.

Lemma by_lib_less_total : forall a b,
  by_lib_less a b = false -> by_lib_less b a = false -> id a = id b.
Proof. intros a b H1 H2. fp_cases. Qed.

(** ** The write order of close (C3) *)

Lemma close_merge_nil_r : forall vs, close_merge vs [] = vs.
Proof. destruct vs; reflexivity. Qed.

Lemma close_merge_cons : forall v vs u us,
  close_merge (v :: vs) (u :: us) =
    if first_preferred v u then u :: close_merge (v :: vs) us
    else v :: close_merge vs (u :: us).
Proof. reflexivity. Qed.

Lemma close_merge_perm : forall vs us,
  Permutation (close_merge vs us) (vs ++ us).
Proof.
  induction vs as [|v vs IHv]; intros us; [reflexivity|].
  induction us as [|u us IHu].
  - rewrite close_merge_nil_r, app_nil_r. reflexivity.
  - rewrite close_merge_cons. destruct (first_preferred v u).
    + rewrite IHu. apply (Permutation_middle (v :: vs) us u).
    + simpl. constructor. apply IHv.
Qed.

Lemma close_merge_in : forall vs us x,
  In x (close_merge vs us) <-> In x vs \/ In x us.
Proof.
  intros vs us x. rewrite <- in_app_iff.
  split; apply Permutation_in;
    [apply close_merge_perm | symmetry; apply close_merge_perm].
Qed.

Lemma written_before_ok_trans_lt : forall u v x,
  first_preferred v u = true -> written_before_ok v x ->
  written_before_ok u x.
Proof. unfold written_before_ok. intros u v x H [H1 H2]. split; fp_cases. Qed.

Lemma written_before_ok_trans_le : forall v u x,
  first_preferred v u = false -> is_valid v = true ->
  written_before_ok u x -> is_valid x = false -> written_before_ok v x.
Proof. unfold written_before_ok. intros v u x H Hv [H1 H2] Hx. split; fp_cases. Qed.

Lemma close_merge_sorted : forall vs us,
  StronglySorted written_before_ok vs ->
  StronglySorted written_before_ok us ->
  Forall (fun v => is_valid v = true) vs ->
  Forall (fun u => is_valid u = false) us ->
  StronglySorted written_before_ok (close_merge vs us).
Proof.
  induction vs as [|v vs IHv]; intros us Hvs Hus Fv Fu; [exact Hus|].
  induction us as [|u us IHu].
  - now rewrite close_merge_nil_r.
  - rewrite close_merge_cons.
    inversion Hvs as [|? ? Hvs' Hv]; subst.
    inversion Hus as [|? ? Hus' Hu]; subst.
    inversion Fv as [|? ? Vv Fv']; subst.
    inversion Fu as [|? ? Vu Fu']; subst.
    destruct (first_preferred v u) eqn:E.
    + constructor; [now apply IHu|].
      apply Forall_forall. intros x Hx. apply close_merge_in in Hx.
      rewrite Forall_forall in Hu, Hv.
      destruct Hx as [[<-|Hx]|Hx]; auto.
      * split; [now apply first_preferred_asym|]. intros H. congruence.
      * apply (written_before_ok_trans_lt u v x E). now apply Hv.
    + constructor; [now apply IHv|].
      apply Forall_forall. intros x Hx. apply close_merge_in in Hx.
      rewrite Forall_forall in Hu, Hv, Fu'.
      destruct Hx as [Hx|[<-|Hx]]; auto.
      * split; [exact E|]. intros _ H. congruence.
      * apply (written_before_ok_trans_le v u x E Vv); auto.
Qed.

Lemma StronglySorted_app : forall (A : Type) (R : A -> A -> Prop) l1 l2,
  StronglySorted R l1 -> StronglySorted R l2 ->
  (forall a b, In a l1 -> In b l2 -> R a b) ->
  StronglySorted R (l1 ++ l2).
Proof.
  induction l1 as [|x l1 IH]; simpl; intros l2 H1 H2 H; auto.
  inversion H1 as [|? ? H1' Hx]; subst. constructor.
  - apply IH; auto.
  - apply Forall_app. split; auto.
    apply Forall_forall. intros b Hb. apply H; auto.
Qed.

Lemma StronglySorted_rev : forall (A : Type) (R : A -> A -> Prop) l,
  StronglySorted R l -> StronglySorted (fun a b => R b a) (rev l).
Proof.
  induction 1 as [|x l Hs IH Hx]; simpl; [constructor|].
  apply StronglySorted_app; auto.
  - repeat constructor.
  - intros a b Ha [<-|[]]. rewrite Forall_forall in Hx.
    apply Hx. now apply in_rev.
Qed.

Lemma StronglySorted_split : forall (A : Type) (R : A -> A -> Prop) l1 a l2 b l3,
  StronglySorted R (l1 ++ a :: l2 ++ b :: l3) -> R a b.
Proof.
  induction l1 as [|x l1 IH]; simpl; intros a l2 b l3 H.
  - inversion H as [|? ? _ Ha]; subst. rewrite Forall_forall in Ha.
    apply Ha. apply in_or_app. right. now left.
  - inversion H; subst. eauto.
Qed.

Lemma lower_bound_split : forall idx,
  idx = before_lower_bound_valid false idx ++ lower_bound_valid false idx.
Proof.
  induction idx as [|e l IH]; simpl; auto.
  unfold bool_gt. destruct (is_valid e); simpl; auto. now f_equal.
Qed.

Lemma before_lower_bound_all_valid : forall idx,
  Forall (fun v => is_valid v = true) (before_lower_bound_valid false idx).
Proof.
  induction idx as [|e l IH]; simpl; auto.
  unfold bool_gt. destruct (is_valid e) eqn:E; simpl; auto.
Qed.

Lemma lower_bound_all_invalid : forall idx, ordered idx ->
  Forall (fun u => is_valid u = false) (lower_bound_valid false idx).
Proof.
  unfold ordered. induction 1 as [|e l Hs IH He]; simpl; auto.
  unfold bool_gt. destruct (is_valid e) eqn:E; simpl; auto.
  constructor; auto. apply Forall_forall. intros x Hx.
  rewrite Forall_forall in He. apply (by_lib_less_valid e x); auto.
Qed.

Lemma ordered_app_inv : forall l1 l2,
  ordered (l1 ++ l2) -> ordered l1 /\ ordered l2.
Proof.
  unfold ordered. induction l1 as [|x l1 IH]; simpl; intros l2 H.
  - split; [constructor|assumption].
  - inversion H as [|? ? H' Hx]; subst. destruct (IH _ H') as [Ha Hb].
    split; auto. constructor; auto.
    apply Forall_app in Hx. tauto.
Qed.

Lemma ordered_same_validity_rev : forall l b,
  ordered l -> Forall (fun e => is_valid e = b) l ->
  StronglySorted written_before_ok (rev l).
Proof.
  intros l b Ho Hb. apply StronglySorted_rev in Ho.
  assert (Hb' : Forall (fun e => is_valid e = b) (rev l)).
  { apply Forall_forall. intros x Hx. apply in_rev in Hx.
    rewrite Forall_forall in Hb. auto. }
  clear Hb. induction Ho as [|x l' Hs IH Hx]; [constructor|].
  inversion Hb' as [|? ? Vx Hb'']; subst.
  constructor; auto.
  rewrite Forall_forall in *. intros y Hy.
  specialize (Hx y Hy). specialize (Hb'' y Hy). split.
  - apply (by_lib_less_not_preferred y x); congruence.
  - congruence.
Qed.

Lemma close_order_sorted : forall idx, ordered idx ->
  StronglySorted written_before_ok (close_order idx).
Proof.
  intros idx Ho. unfold close_order.
  pose proof (lower_bound_all_invalid idx Ho) as Hu.
  pose proof (before_lower_bound_all_valid idx) as Hv.
  rewrite (lower_bound_split idx) in Ho.
  apply ordered_app_inv in Ho. destruct Ho as [Ho1 Ho2].
  apply close_merge_sorted.
  - apply (ordered_same_validity_rev _ true); auto.
  - apply (ordered_same_validity_rev _ false); auto.
  - apply Forall_forall. intros x Hx. apply in_rev in Hx.
    rewrite Forall_forall in Hv. auto.
  - apply Forall_forall. intros x Hx. apply in_rev in Hx.
    rewrite Forall_forall in Hu. auto.
Qed.

Lemma close_order_perm : forall idx, Permutation (close_order idx) idx.
Proof.
  intros idx. unfold close_order. rewrite close_merge_perm.
  rewrite (lower_bound_split idx) at 3.
  apply Permutation_app; symmetry; apply Permutation_rev.
Qed.

(** C3, as stated, fails: closing root <- A1 <- B2 <- C3 (A1 validated, B2 and
    C3 pending) writes A1, B2, C3.  B2 is written before C3 although B2 is not
    validated and [first_preferred B2 C3] does not hold: the order is
    ascending, not descending. *)
Lemma close_writes_ascending :
  option_map f_blocks (snd (close_impl 0 db_line)) = Some [A1; B2; C3]
  /\ ~ ((is_valid B2 = true /\ is_valid C3 = false)
        \/ first_preferred B2 C3 = true).
Proof.
  split; [reflexivity|]. vm_compute. intros [[H _]|H]; discriminate.
Qed.

(** C3, amended. On close with root set, every index entry is written, in
    ascending fork-preference order: the merge over the two reverse ranges
    emits at each step the front that is not more [first_preferred], the
    validated one on a tie.  So for an entry [a] written before an entry [b],
    [first_preferred a b] does not hold, and when [first_preferred b a] does
    not hold either, [a] is validated or [b] is not. *)
Theorem close_writes_in_ascending_preference :
  forall magic_number db f,
    ordered (index db) ->
    snd (close_impl magic_number db) = Some f ->
    Permutation (f_blocks f) (index db)
    /\ forall l1 a l2 b l3,
         f_blocks f = l1 ++ a :: l2 ++ b :: l3 ->
         first_preferred a b = false
         /\ (first_preferred b a = false ->
             is_valid a = false -> is_valid b = false).
Proof.
  intros magic_number db f Ho Hc. unfold close_impl in Hc.
  destruct (root db) as [r|]; simpl in Hc; [|discriminate].
  inversion Hc; subst; clear Hc. simpl. split.
  - apply close_order_perm.
  - intros l1 a l2 b l3 Heq.
    pose proof (close_order_sorted _ Ho) as Hs. rewrite Heq in Hs.
    exact (StronglySorted_split _ _ _ _ _ _ _ Hs).
Qed.

Ltac prove_ordered :=
  unfold ordered; vm_compute;
  repeat (constructor; try reflexivity).

Lemma close_writes_in_ascending_preference_witness :
  ordered (index db_line)
  /\ Permutation [A1; B2; C3] (index db_line)
  /\ forall l1 a l2 b l3,
       [A1; B2; C3] = l1 ++ a :: l2 ++ b :: l3 ->
       first_preferred a b = false
       /\ (first_preferred b a = false ->
           is_valid a = false -> is_valid b = false).
Proof.
  assert (Ho : ordered (index db_line)) by prove_ordered.
  split; [exact Ho|].
  exact (close_writes_in_ascending_preference 0 db_line
           (mk_file 0 max_supported_version (header_state root0)
                    [A1; B2; C3] (Some 2)) Ho eq_refl).
Defined.

(** ** remove (C6) *)

Lemma kids_in : forall idx x c,
  In c (kids idx x) <-> exists n, In n idx /\ previous n = x /\ id n = c.
Proof.
  unfold kids, children_of. intros idx x c. rewrite in_map_iff. split.
  - intros [n [Hid Hn]]. apply filter_In in Hn. destruct Hn as [Hn Hp].
    apply N.eqb_eq in Hp. eauto.
  - intros [n [Hn [Hp Hid]]]. exists n. split; auto.
    apply filter_In. split; auto. now apply N.eqb_eq.
Qed.

Lemma descends_top : forall idx a x,
  descends idx a x ->
  exists c, In c idx /\ previous c = a /\ (id c = x \/ descends idx (id c) x).
Proof.
  induction 1 as [a n Hn Hp|a n Hn Hd IH].
  - exists n. auto.
  - destruct IH as [c [Hc [Hp [Hid|Hd']]]]; exists c; repeat split; auto; right.
    + now apply descends_child.
    + now apply descends_step.
Qed.

Lemma descends_lift : forall idx c x,
  In c idx -> descends idx (id c) x -> descends idx (previous c) x.
Proof.
  intros idx c x Hc. remember (id c) as a eqn:Ea.
  induction 1 as [a n Hn Hp|a n Hn Hd IH]; subst.
  - apply descends_step; auto. rewrite Hp. now apply descends_child.
  - apply descends_step; auto.
Qed.

Lemma reach_unfold : forall idx q x,
  reach idx q x <-> In x q \/ reach idx (flat_map (kids idx) q) x.
Proof.
  unfold reach. intros idx q x. split.
  - intros [H|[y [Hy Hd]]]; auto. right.
    destruct (descends_top _ _ _ Hd) as [c [Hc [Hp [Hid|Hd']]]].
    + left. apply in_flat_map. exists y. split; auto.
      apply kids_in. eauto.
    + right. exists (id c). split; auto.
      apply in_flat_map. exists y. split; auto. apply kids_in. eauto.
  - intros [H|[H|[y [Hy Hd]]]]; auto; right.
    + apply in_flat_map in H. destruct H as [y [Hy Hk]].
      apply kids_in in Hk. destruct Hk as [n [Hn [Hp Hid]]].
      exists y. split; auto. rewrite <- Hid. now apply descends_child.
    + apply in_flat_map in Hy. destruct Hy as [z [Hz Hk]].
      apply kids_in in Hk. destruct Hk as [n [Hn [Hp Hid]]].
      exists z. split; auto. subst. now apply descends_lift.
Qed.

Lemma remove_scan_level : forall hid idx q f done rest,
  ~ In hid q ->
  remove_scan (length q + f) hid idx done (q ++ rest)
  = remove_scan f hid idx (done ++ q) (rest ++ flat_map (kids idx) q).
Proof.
  intros hid idx. induction q as [|x q IH]; intros f done rest Hni; simpl.
  - now rewrite !app_nil_r.
  - destruct (x =? hid) eqn:E.
    + apply N.eqb_eq in E. exfalso. apply Hni. now left.
    + fold (kids idx x). rewrite <- app_assoc. rewrite IH.
      * now rewrite <- !app_assoc.
      * intros H. apply Hni. now right.
Qed.

Lemma remove_scan_level_throw : forall hid idx q f done rest,
  In hid q -> (length q <= f)%nat ->
  remove_scan f hid idx done (q ++ rest) = Throw WouldRemoveHead.
Proof.
  intros hid idx. induction q as [|x q IH]; intros f done rest Hin Hf;
    simpl in *; [contradiction|].
  destruct f as [|f]; [lia|]. simpl.
  destruct (x =? hid) eqn:E; [reflexivity|].
  apply N.eqb_neq in E. destruct Hin as [Hin|Hin]; [congruence|].
  rewrite <- app_assoc. apply IH; auto. lia.
Qed.

Lemma kids_above_next : forall idx b q, parent_below idx ->
  kids_above idx b q -> kids_above idx (S b) (flat_map (kids idx) q).
Proof.
  intros idx b q Hpb Hq x c Hx Hc Hp.
  apply in_flat_map in Hx. destruct Hx as [y [Hy Hk]].
  apply kids_in in Hk. destruct Hk as [n [Hn [Hpn Hid]]].
  specialize (Hq y n Hy Hn Hpn).
  assert (block_num n < block_num c) by (apply Hpb; auto; congruence).
  lia.
Qed.

Lemma kids_above_top : forall idx b q,
  kids_above idx b q -> (height_bound idx <= b)%nat ->
  flat_map (kids idx) q = [].
Proof.
  intros idx b q Hq Hb.
  destruct (flat_map (kids idx) q) as [|c l] eqn:E; auto. exfalso.
  assert (Hc : In c (flat_map (kids idx) q)) by (rewrite E; now left).
  apply in_flat_map in Hc. destruct Hc as [y [Hy Hk]].
  apply kids_in in Hk. destruct Hk as [n [Hn [Hpn Hid]]].
  specialize (Hq y n Hy Hn Hpn).
  unfold height_bound in Hb.
  assert (Hle : (N.to_nat (block_num n)
                 <= list_max (map (fun e => N.to_nat (block_num e)) idx))%nat).
  { pose proof (proj1 (list_max_le (map (fun e => N.to_nat (block_num e)) idx) _)
                      (Nat.le_refl _)) as Hall.
    rewrite Forall_forall in Hall. apply Hall.
    apply in_map_iff. eauto. }
  lia.
Qed.

Lemma scan_settles_nil : forall idx hid done, scan_settles idx hid done [].
Proof.
  intros idx hid done. exists O. right. split.
  - intros [[]|[y [[] _]]].
  - exists []. split.
    + intros f _. rewrite app_nil_r. now destruct f.
    + intros x. split; [contradiction|]. intros [[]|[y [[] _]]].
Qed.

Lemma scan_settles_level : forall idx hid done q,
  scan_settles idx hid (done ++ q) (flat_map (kids idx) q) ->
  scan_settles idx hid done q.
Proof.
  intros idx hid done q [f0 H].
  exists (length q + f0)%nat.
  destruct (in_dec N.eq_dec hid q) as [Hin|Hni].
  - left. split; [now left|].
    intros f Hf. rewrite <- (app_nil_r q).
    apply remove_scan_level_throw; auto. lia.
  - assert (Hrun : forall f, (length q + f0 <= f)%nat ->
        remove_scan f hid idx done q
        = remove_scan (f - length q) hid idx (done ++ q)
                      (flat_map (kids idx) q)).
    { intros f Hf.
      pose proof (remove_scan_level hid idx q (f - length q) done [] Hni) as E.
      rewrite app_nil_r in E. simpl in E.
      now replace (length q + (f - length q))%nat with f in E by lia. }
    destruct H as [[Hr Ht]|[Hnr [out [Ho Hout]]]].
    + left. split; [apply reach_unfold; now right|].
      intros f Hf. rewrite Hrun by assumption. apply Ht. lia.
    + right. split.
      * intros Hr. apply reach_unfold in Hr. tauto.
      * exists (q ++ out). split.
        -- intros f Hf. rewrite Hrun by assumption.
           rewrite Ho by lia. now rewrite app_assoc.
        -- intros x. rewrite reach_unfold, in_app_iff, Hout. tauto.
Qed.

Lemma remove_scan_settles : forall idx hid, parent_below idx ->
  forall k b q done,
    kids_above idx b q -> (height_bound idx <= b + k)%nat ->
    scan_settles idx hid done q.
Proof.
  intros idx hid Hpb.
  induction k as [|k IH]; intros b q done Hq Hb; apply scan_settles_level.
  - rewrite (kids_above_top idx b q); auto; [|lia].
    apply scan_settles_nil.
  - apply (IH (S b)); [|lia]. now apply kids_above_next.
Qed.

Lemma remove_scan_from : forall idx hid i, parent_below idx ->
  scan_settles idx hid [] [i].
Proof.
  intros idx hid i Hpb.
  apply (remove_scan_settles idx hid Hpb (height_bound idx) O).
  - intros x c _ _ _. lia.
  - lia.
Qed.

Lemma reach_single : forall idx i x,
  reach idx [i] x <-> x = i \/ descends idx i x.
Proof.
  unfold reach. intros idx i x. split.
  - intros [[H|[]]|[y [[H|[]] Hd]]]; subst; auto.
  - intros [->|H]; [left; now left|right]. exists i. split; auto. now left.
Qed.

Lemma erase_all_in : forall ids idx n,
  In n (erase_all ids idx) <-> In n idx /\ ~ In (id n) ids.
Proof.
  unfold erase_all. induction ids as [|i ids IH]; intros idx n; simpl.
  - tauto.
  - rewrite IH. unfold index_erase. rewrite filter_In.
    rewrite negb_true_iff, N.eqb_neq. intuition congruence.
Qed.

Lemma erase_all_filter : forall ids idx,
  erase_all ids idx
  = filter (fun e => negb (existsb (N.eqb (id e)) ids)) idx.
Proof.
  unfold erase_all. induction ids as [|i ids IH]; intros idx; simpl.
  - induction idx as [|e l IHl]; simpl; congruence.
  - rewrite IH. unfold index_erase.
    induction idx as [|e l IHl]; simpl; auto.
    destruct (id e =? i); simpl; rewrite IHl; reflexivity.
Qed.

Lemma descends_mono : forall idx idx' a x,
  (forall n, In n idx' -> In n idx) ->
  descends idx' a x -> descends idx a x.
Proof.
  intros idx idx' a x Hsub. induction 1.
  - apply descends_child; auto.
  - apply descends_step; auto.
Qed.

Lemma filter_all : forall (A : Type) (f : A -> bool) l,
  (forall x, In x l -> In x (filter f l)) -> filter f l = l.
Proof.
  intros A f l H.
  assert (Hall : forall x, In x l -> f x = true).
  { intros x Hx. apply H in Hx. apply filter_In in Hx. tauto. }
  clear H. induction l as [|a l IH]; simpl; auto.
  rewrite (Hall a (or_introl eq_refl)). f_equal.
  apply IH. intros x Hx. apply Hall. now right.
Qed.

(** What [remove_impl] does whatever the fuel: nothing when it does not
    return normally, and an erasure by id when it does. *)
Lemma remove_impl_shape : forall fuel i db db' r,
  remove_impl fuel i db = (db', r) ->
  (r <> Ret tt -> db' = db)
  /\ (r = Ret tt ->
      root db' = root db /\ head db' = head db
      /\ (exists h, head db = Some h)
      /\ exists q, remove_scan fuel (match head db with Some h => id h | None => 0 end)
                     (index db) [] [i] = Ret q
                   /\ index db' = erase_all q (index db)).
Proof.
  intros fuel i db db' r H. unfold remove_impl in H.
  destruct (head db) as [h|] eqn:Hh.
  - destruct (remove_scan fuel (id h) (index db) [] [i]) as [q|e| |] eqn:E;
      inversion H; subst; clear H; split; try congruence; try tauto.
    intros _. simpl. repeat split; eauto.
  - inversion H; subst. split; [auto|discriminate].
Qed.

Lemma remove_scan_no_head : forall fuel hid idx done q out,
  remove_scan fuel hid idx done q = Ret out ->
  ~ In hid done -> ~ In hid out.
Proof.
  induction fuel as [|fuel IH]; intros hid idx done q out H Hd.
  - destruct q; simpl in H; [|discriminate]. inversion H; subst. auto.
  - destruct q as [|x q]; simpl in H.
    + inversion H; subst. auto.
    + destruct (x =? hid) eqn:E; [discriminate|].
      apply N.eqb_neq in E. apply (IH _ _ _ _ _ H).
      rewrite in_app_iff. simpl. intuition congruence.
Qed.

(** [remove_impl] on an index whose linked entries sit above their parents. *)
Lemma remove_impl_spec : forall db h i,
  head db = Some h -> parent_below (index db) ->
  exists f0,
    ((id h = i \/ descends (index db) i (id h))
     /\ forall f, (f0 <= f)%nat ->
          remove_impl f i db = (db, Throw WouldRemoveHead))
    \/ (~ (id h = i \/ descends (index db) i (id h))
        /\ exists idx',
             (forall f, (f0 <= f)%nat ->
                remove_impl f i db = (mk_db idx' (root db) (head db), Ret tt))
             /\ (forall n, In n idx' <->
                   In n (index db) /\ id n <> i
                   /\ ~ descends (index db) i (id n))
             /\ exists keep, idx' = filter keep (index db)).
Proof.
  intros db h i Hh Hpb.
  destruct (remove_scan_from (index db) (id h) i Hpb) as [f0 H].
  exists f0. destruct H as [[Hr Ht]|[Hnr [out [Ho Hout]]]].
  - left. split; [now apply reach_single|].
    intros f Hf. unfold remove_impl. now rewrite Hh, Ht.
  - right. split; [now rewrite <- reach_single|].
    exists (erase_all out (index db)). split; [|split].
    + intros f Hf. unfold remove_impl. now rewrite Hh, Ho.
    + intros n. rewrite erase_all_in, Hout, reach_single. tauto.
    + rewrite erase_all_filter. eauto.
Qed.

(** C6, as stated, fails in its last clause: in the tree root <- A1 <- B2 with
    head A1, the root's id 1 is absent from the index and differs from the
    head's id, yet [remove] of it throws, because the head descends from it. *)
Lemma remove_absent_id_can_fail :
  ~ In 1 (map id (index db_pending))
  /\ option_map id (head db_pending) = Some 2
  /\ remove_impl 5 1 db_pending = (db_pending, Throw WouldRemoveHead).
Proof.
  split; [|split]; try reflexivity.
  vm_compute. intros [H|[H|[]]]; discriminate.
Qed.

(** C6, amended. On an index whose linked entries sit above their parents and
    with enough fuel for the scan: [remove] throws WouldRemoveHead exactly when
    the head's id is [i] or descends from [i], and then nothing is mutated;
    otherwise it returns and the index keeps, in order, exactly the entries
    that are neither [i] nor descendants of [i], so that no remaining entry has
    [i] as an ancestor; an [i] that is neither the id nor the [previous] of any
    index entry (and not the head's id) removes nothing. *)
Theorem remove_fails_iff_head_in_subtree :
  forall db h i, head db = Some h -> parent_below (index db) ->
  exists f0, forall fuel, (f0 <= fuel)%nat ->
  exists db' r,
    remove_impl fuel i db = (db', r)
    /\ (r = Throw WouldRemoveHead <->
        id h = i \/ descends (index db) i (id h))
    /\ (r = Throw WouldRemoveHead -> db' = db)
    /\ (r <> Throw WouldRemoveHead ->
        r = Ret tt /\ root db' = root db /\ head db' = head db
        /\ (forall n, In n (index db') <->
              In n (index db) /\ id n <> i /\ ~ descends (index db) i (id n))
        /\ (exists keep, index db' = filter keep (index db))
        /\ (forall n, In n (index db') ->
              id n <> i /\ ~ descends (index db') i (id n))
        /\ ((forall n, In n (index db) -> id n <> i /\ previous n <> i) ->
            index db' = index db)).
Proof.
  intros db h i Hh Hpb.
  destruct (remove_impl_spec db h i Hh Hpb)
    as [f0 [[Hd Ht]|[Hnd [idx' [Hr [Hin [keep Hk]]]]]]];
    exists f0; intros fuel Hf.
  - exists db, (Throw WouldRemoveHead). split; [now apply Ht|].
    split; [tauto|]. split; [auto|]. intros H. congruence.
  - exists (mk_db idx' (root db) (head db)), (Ret tt).
    split; [now apply Hr|]. split; [split; [discriminate|tauto]|].
    split; [discriminate|]. intros _. simpl.
    split; [reflexivity|]. split; [reflexivity|]. split; [reflexivity|].
    split; [exact Hin|]. split; [eauto|]. split.
    + intros n Hn. apply Hin in Hn. destruct Hn as [Hn [Hne Hnd']].
      split; auto. intros Hd. apply Hnd'.
      apply (descends_mono (index db) idx'); auto.
      intros m Hm. now apply Hin in Hm.
    + intros Hnone. rewrite Hk. apply filter_all. intros x Hx.
      rewrite <- Hk. apply Hin. destruct (Hnone x Hx) as [Hne _].
      repeat split; auto. intros Hd.
      destruct (descends_top _ _ _ Hd) as [c [Hc [Hp _]]].
      now destruct (Hnone c Hc).
Qed.

Ltac prove_parent_below3 :=
  let n := fresh "n" in let p := fresh "p" in
  let Hn := fresh "Hn" in let Hp := fresh "Hp" in
  intros n p Hn Hp; vm_compute in Hn, Hp;
  destruct Hn as [<-|[<-|[<-|[]]]]; destruct Hp as [<-|[<-|[<-|[]]]];
  vm_compute; intros; congruence.

Lemma remove_fails_iff_head_in_subtree_witness :
  head db_line = Some A1 /\ parent_below (index db_line)
  /\ exists f0, forall fuel, (f0 <= fuel)%nat ->
     exists db' r,
       remove_impl fuel 3 db_line = (db', r)
       /\ (r = Throw WouldRemoveHead <->
           id A1 = 3 \/ descends (index db_line) 3 (id A1))
       /\ (r = Throw WouldRemoveHead -> db' = db_line)
       /\ (r <> Throw WouldRemoveHead ->
           r = Ret tt /\ root db' = root db_line /\ head db' = head db_line
           /\ (forall n, In n (index db') <->
                 In n (index db_line) /\ id n <> 3
                 /\ ~ descends (index db_line) 3 (id n))
           /\ (exists keep, index db' = filter keep (index db_line))
           /\ (forall n, In n (index db') ->
                 id n <> 3 /\ ~ descends (index db') 3 (id n))
           /\ ((forall n, In n (index db_line) -> id n <> 3 /\ previous n <> 3) ->
               index db' = index db_line)).
Proof.
  assert (Hpb : parent_below (index db_line)) by prove_parent_below3.
  split; [reflexivity|]. split; [exact Hpb|].
  exact (remove_fails_iff_head_in_subtree db_line A1 3 eq_refl Hpb).
Defined.

(** ** Failing operations (C5) *)

Lemma remove_scan_throws : forall fuel hid idx done q e,
  remove_scan fuel hid idx done q = Throw e -> e = WouldRemoveHead.
Proof.
  induction fuel as [|fuel IH]; intros hid idx done q e H;
    destruct q as [|x q]; simpl in H; try discriminate.
  destruct (x =? hid); [congruence|eauto].
Qed.

Lemma remove_impl_throws : forall fuel i db db' e,
  remove_impl fuel i db = (db', Throw e) -> e = WouldRemoveHead /\ db' = db.
Proof.
  intros fuel i db db' e H. unfold remove_impl in H.
  destruct (head db) as [h|]; [|discriminate].
  destruct (remove_scan fuel (id h) (index db) [] [i]) eqn:E;
    inversion H; subst. split; auto.
  now apply remove_scan_throws in E.
Qed.

Lemma remove_each_throws : forall fuel ids db db' e,
  remove_each fuel ids db = (db', Throw e) -> e = WouldRemoveHead.
Proof.
  intros fuel. induction ids as [|i ids IH]; intros db db' e H; simpl in H.
  - discriminate.
  - destruct (remove_impl fuel i db) as [db1 r] eqn:E.
    destruct r as [[]|e'| |]; try discriminate; eauto.
    inversion H; subst. now apply remove_impl_throws in E.
Qed.

Lemma add_impl_throws : forall n ig v vd db db' e,
  add_impl n ig v vd db = (db', Throw e) -> db' = db.
Proof.
  intros n ig v vd db db' e H. unfold add_impl in H.
  destruct (root db) as [r|]; [|congruence].
  destruct n as [n|]; [|congruence].
  destruct (get_block_header_impl db (previous n)) as [[p|]|e'| |];
    try congruence.
  destruct (v && negb (vd n p)); [congruence|].
  destruct (index_insert n (index db)) as [idx ins].
  destruct ins; simpl in H.
  - destruct idx as [|c l]; [discriminate|].
    destruct (is_valid c); discriminate.
  - destruct ig; congruence.
Qed.

Lemma mark_valid_impl_throws : forall h db db' e,
  mark_valid_impl h db = (db', Throw e) -> db' = db /\ e = NotFound.
Proof.
  intros h db db' e H. unfold mark_valid_impl in H.
  destruct (is_valid h); [discriminate|].
  destruct (index_find (id h) (index db)); [|inversion H; auto].
  destruct (index_modify_valid true (id h) (index db)) as [|c l];
    [discriminate|].
  destruct (head_after_modify _ (head db)) as [hd|]; [|discriminate].
  destruct (first_preferred c hd); discriminate.
Qed.

Lemma advance_root_impl_throws : forall fuel i db db' e,
  advance_root_impl fuel i db = (db', Throw e) ->
  e <> WouldRemoveHead -> db' = db.
Proof.
  intros fuel i db db' e H Hne. unfold advance_root_impl in H.
  destruct (root db) as [r|]; [|congruence].
  destruct (get_block_impl db i) as [nr|]; [|congruence].
  destruct (negb (is_valid nr)); [congruence|].
  destruct (collect_blocks_to_remove fuel db (id r) nr []) as [ids|e'| |];
    try congruence.
  destruct (remove_each fuel ids _) as [db2 r2] eqn:E.
  destruct r2 as [[]|e'| |]; try discriminate.
  inversion H; subst. apply remove_each_throws in E. contradiction.
Qed.

(** C5. The code at the input where the claim fails.  In the tree with
    branches A1 <- C7 and A2 <- B6 (head B6), which satisfies the structural
    invariants, advancing the root to A1 throws WouldRemoveHead out of the
    pruning loop after A1 has been erased from the index: the root is still
    the old one and C7's [previous] no longer resolves.  [remove] of the same
    ancestor, called directly, throws the same error and leaves the state
    untouched; and once C7 is validated, advancing the root to it trips the
    orphaned-branch check of [advance_root] itself. *)
Theorem failed_advance_root_leaves_orphan :
  linked db_fork
  /\ advance_root_impl 10 2 db_fork = (db_orphaned, Throw WouldRemoveHead)
  /\ root db_orphaned = root db_fork
  /\ index db_orphaned = [B6; A2; C7]
  /\ ~ linked db_orphaned
  /\ remove_impl 10 1 db_fork = (db_fork, Throw WouldRemoveHead)
  /\ snd (advance_root_impl 10 7 (fst (mark_valid_impl C7 db_orphaned)))
     = Throw OrphanedBranch.
Proof.
  split; [|split; [|split; [|split; [|split; [|split]]]]]; try reflexivity.
  - intros n Hn. vm_compute in Hn.
    destruct Hn as [<-|[<-|[<-|[<-|[]]]]].
    + right. exists A2. split; [vm_compute; tauto|reflexivity].
    + left. exists root0. split; reflexivity.
    + left. exists root0. split; reflexivity.
    + right. exists A1. split; [vm_compute; tauto|reflexivity].
  - intros Hl. destruct (Hl C7) as [[r [Hr Hp]]|[p [Hp Hid]]].
    + vm_compute. tauto.
    + vm_compute in Hr. inversion Hr; subst. discriminate.
    + vm_compute in Hp. destruct Hp as [<-|[<-|[<-|[]]]]; discriminate.
Qed.

(** X25. A failed [add], [mark_valid] or [remove], and an [advance_root] that
    fails before its pruning phase (with any error other than
    WouldRemoveHead), leave {root, index, head} exactly as they were. *)
Theorem failed_operations_leave_state :
  forall db db' e,
    (forall n ig v vd, add_impl n ig v vd db = (db', Throw e) -> db' = db)
    /\ (forall h, mark_valid_impl h db = (db', Throw e) -> db' = db)
    /\ (forall fuel i, remove_impl fuel i db = (db', Throw e) -> db' = db)
    /\ (forall fuel i, advance_root_impl fuel i db = (db', Throw e) ->
          e <> WouldRemoveHead -> db' = db).
Proof.
  intros db db' e. repeat split.
  - intros n ig v vd. apply add_impl_throws.
  - intros h H. now apply mark_valid_impl_throws in H.
  - intros fuel i H. now apply remove_impl_throws in H.
  - intros fuel i. apply advance_root_impl_throws.
Qed.

Lemma failed_operations_leave_state_witness :
  fst (add_impl (Some C7) false false (fun _ _ => true) empty_db) = empty_db
  /\ fst (mark_valid_impl C7 db_pending) = db_pending
  /\ fst (remove_impl 5 1 db_pending) = db_pending
  /\ fst (advance_root_impl 5 3 db_pending) = db_pending.
Proof.
  split; [|split; [|split]].
  - exact (proj1 (failed_operations_leave_state empty_db _ RootNotSet)
             (Some C7) false false (fun _ _ => true) eq_refl).
  - exact (proj1 (proj2 (failed_operations_leave_state db_pending _ NotFound))
             C7 eq_refl).
  - exact (proj1 (proj2 (proj2
             (failed_operations_leave_state db_pending _ WouldRemoveHead)))
             5%nat 1 eq_refl).
  - refine (proj2 (proj2 (proj2
             (failed_operations_leave_state db_pending _ NotValidated)))
             5%nat 3 eq_refl _). discriminate.
Defined.

(** ** Ancestry *)

Lemma descends_target : forall idx a y,
  descends idx a y -> exists n, In n idx /\ id n = y.
Proof. intros idx a y H. destruct H; eauto. Qed.

Lemma descends_trans : forall idx a b c,
  descends idx a b -> descends idx b c -> descends idx a c.
Proof.
  intros idx a b c Hab Hbc. induction Hbc as [b n Hn Hp|b n Hn Hd IH].
  - apply descends_step; auto. now rewrite Hp.
  - apply descends_step; auto.
Qed.

Lemma in_unique_id : forall idx n m,
  NoDup (map id idx) -> In n idx -> In m idx -> id n = id m -> n = m.
Proof.
  intros idx n m Hnd Hn Hm Hid.
  pose proof (index_find_in_unique idx n Hnd Hn) as E1.
  pose proof (index_find_in_unique idx m Hnd Hm) as E2.
  rewrite Hid in E1. congruence.
Qed.

Lemma descends_block_num : forall idx,
  NoDup (map id idx) -> parent_below idx ->
  forall a y, descends idx a y ->
  forall m n, In m idx -> In n idx -> id m = a -> id n = y ->
              block_num m < block_num n.
Proof.
  intros idx Hnd Hpb a y H.
  induction H as [a n0 Hn0 Hp|a n0 Hn0 Hd IH]; intros m n Hm Hn Hma Hny.
  - assert (n0 = n) by (apply (in_unique_id idx); auto). subst n0.
    apply Hpb; auto. congruence.
  - assert (n0 = n) by (apply (in_unique_id idx); auto). subst n0.
    destruct (descends_target _ _ _ Hd) as [q [Hq Hqid]].
    specialize (IH m q Hm Hq Hma Hqid).
    assert (block_num q < block_num n) by (apply Hpb; auto). lia.
Qed.

Lemma descends_irrefl : forall idx,
  NoDup (map id idx) -> parent_below idx ->
  forall a, ~ descends idx a a.
Proof.
  intros idx Hnd Hpb a H.
  destruct (descends_target _ _ _ H) as [n [Hn Hid]].
  pose proof (descends_block_num idx Hnd Hpb a a H n n Hn Hn Hid Hid). lia.
Qed.

Lemma index_find_in : forall idx p,
  In p idx -> exists q, index_find (id p) idx = Some q.
Proof.
  intros idx p Hp. destruct (index_find (id p) idx) as [q|] eqn:E; eauto.
  exfalso. now apply (index_find_none _ _ E p).
Qed.

Lemma index_erase_in : forall i idx n,
  In n (index_erase i idx) <-> In n idx /\ id n <> i.
Proof.
  intros i idx n. unfold index_erase. rewrite filter_In.
  now rewrite negb_true_iff, N.eqb_neq.
Qed.

(** In a linked tree every index entry descends from the root. *)
Lemma linked_descends_root : forall db r,
  root db = Some r -> linked db -> parent_below (index db) ->
  forall n, In n (index db) -> descends (index db) (id r) (id n).
Proof.
  intros db r Hr Hl Hpb.
  assert (H : forall k n, In n (index db) ->
                (N.to_nat (block_num n) < k)%nat ->
                descends (index db) (id r) (id n)).
  { induction k as [|k IH]; intros n Hn Hk; [lia|].
    destruct (Hl n Hn) as [[r' [Hr' Hp]]|[p [Hp Hid]]].
    - rewrite Hr in Hr'. inversion Hr'; subst. now apply descends_child.
    - apply descends_step; auto. rewrite <- Hid. apply IH; auto.
      specialize (Hpb n p Hn Hp Hid). lia. }
  intros n Hn. apply (H (S (N.to_nat (block_num n)))); auto.
Qed.

Lemma reach_app : forall idx q1 q2 y,
  reach idx (q1 ++ q2) y <-> reach idx q1 y \/ reach idx q2 y.
Proof.
  unfold reach. intros idx q1 q2 y. rewrite in_app_iff. split.
  - intros [[H|H]|[z [Hz Hd]]]; auto.
    apply in_app_iff in Hz. destruct Hz; eauto.
  - intros [[H|[z [Hz Hd]]]|[H|[z [Hz Hd]]]]; auto;
      right; exists z; rewrite in_app_iff; auto.
Qed.

Lemma reach_one : forall idx x y,
  reach idx [x] y <-> y = x \/ reach idx (kids idx x) y.
Proof.
  intros idx x y. rewrite reach_unfold. simpl. rewrite app_nil_r.
  intuition.
Qed.

(** The scan returns exactly the ids reached from its queue, whatever the
    fuel it was given. *)
Lemma remove_scan_ret_reach : forall fuel hid idx done q out,
  remove_scan fuel hid idx done q = Ret out ->
  forall y, In y out <-> In y done \/ reach idx q y.
Proof.
  induction fuel as [|fuel IH]; intros hid idx done q out H y.
  - destruct q; simpl in H; [|discriminate]. inversion H; subst.
    unfold reach. simpl. split; auto.
    intros [|[[]|[z [[] _]]]]; auto.
  - destruct q as [|x q]; simpl in H.
    + inversion H; subst. unfold reach. simpl. split; auto.
      intros [|[[]|[z [[] _]]]]; auto.
    + destruct (x =? hid); [discriminate|].
      rewrite (IH _ _ _ _ _ H y). fold (kids idx x).
      change (x :: q) with ([x] ++ q).
      rewrite !reach_app, reach_one, in_app_iff. simpl. intuition.
Qed.

(** ** Pruning (C7) *)

Lemma descends_restrict : forall idx s,
  NoDup (map id idx) -> ancestor_closed idx s ->
  forall a y, descends idx a y ->
  forall n, In n s -> id n = y -> descends s a y.
Proof.
  intros idx s Hnd [Hsub Hup] a y H.
  induction H as [a n0 Hn0 Hp|a n0 Hn0 Hd IH]; intros n Hn Hid.
  - assert (n = n0) by (apply (in_unique_id idx); auto). subst.
    now apply descends_child.
  - assert (n = n0) by (apply (in_unique_id idx); auto). subst.
    apply descends_step; auto.
    destruct (descends_target _ _ _ Hd) as [q [Hq Hqid]].
    apply (IH q); auto. apply (Hup n0 q); auto.
Qed.

Lemma remove_impl_ret_index : forall fuel x db db',
  remove_impl fuel x db = (db', Ret tt) ->
  root db' = root db /\ head db' = head db
  /\ (exists h, head db = Some h /\ id h <> x
                /\ ~ descends (index db) x (id h))
  /\ (forall n, In n (index db') <->
        In n (index db) /\ id n <> x /\ ~ descends (index db) x (id n)).
Proof.
  intros fuel x db db' H.
  destruct (remove_impl_shape _ _ _ _ _ H) as [_ Hs].
  destruct (Hs eq_refl) as [Hr [Hh [[h Hhd] [q [Hq Hi]]]]].
  rewrite Hhd in Hq.
  pose proof (remove_scan_ret_reach _ _ _ _ _ _ Hq) as Hreach.
  split; [auto|]. split; [auto|]. split.
  - exists h. split; auto.
    pose proof (remove_scan_no_head _ _ _ _ _ _ Hq (fun F => F)) as Hnh.
    rewrite Hreach, reach_single in Hnh. simpl in Hnh. tauto.
  - intros n. rewrite Hi, erase_all_in, Hreach, reach_single. simpl. tauto.
Qed.

Lemma remove_each_ret : forall idx fuel ids db db',
  NoDup (map id idx) -> ancestor_closed idx (index db) ->
  remove_each fuel ids db = (db', Ret tt) ->
  ancestor_closed idx (index db')
  /\ root db' = root db /\ head db' = head db
  /\ (forall n, In n (index db') <->
        In n (index db)
        /\ forall x, In x ids -> id n <> x /\ ~ descends idx x (id n)).
Proof.
  intros idx fuel ids. induction ids as [|x ids IH]; intros db db' Hnd Hac H.
  - simpl in H. inversion H; subst.
    split; [auto|]. split; [auto|]. split; [auto|].
    intros n. split; [|tauto]. intros Hn. split; [exact Hn|]. intros x [].
  - simpl in H. destruct (remove_impl fuel x db) as [db1 r] eqn:E.
    destruct r as [[]|e| |]; try discriminate.
    destruct (remove_impl_ret_index _ _ _ _ E) as [Hr [Hh [_ Hin]]].
    assert (Hin1 : forall n, In n (index db1) <->
              In n (index db) /\ id n <> x /\ ~ descends idx x (id n)).
    { intros n. rewrite Hin. split; intros [Hn [Hne Hd]]; repeat split; auto.
      - intros Hd'. apply Hd. now apply (descends_restrict idx (index db) Hnd Hac x (id n) Hd' n).
      - intros Hd'. apply Hd. apply (descends_mono idx (index db)); auto.
        apply Hac. }
    assert (Hac1 : ancestor_closed idx (index db1)).
    { destruct Hac as [Hsub Hup]. split.
      - intros n Hn. apply Hin1 in Hn. apply Hsub. tauto.
      - intros n p Hn Hp Hid. apply Hin1 in Hn. destruct Hn as [Hn [Hne Hd]].
        apply Hin1. split; [now apply (Hup n p)|]. split.
        + intros Hx. apply Hd. rewrite <- Hx, Hid.
          apply descends_child; auto.
        + intros Hd'. apply Hd. apply descends_step; auto.
          now rewrite <- Hid. }
    destruct (IH db1 db' Hnd Hac1 H) as [Hac' [Hr' [Hh' Hin']]].
    split; [auto|]. split; [congruence|]. split; [congruence|].
    intros n. rewrite Hin', Hin1. split.
    + intros [[Hn [Hne Hd]] Hall]. split; auto.
      intros y [<-|Hy]; auto.
    + intros [Hn Hall]. split.
      * split; auto. apply Hall. now left.
      * intros y Hy. apply Hall. now right.
Qed.

Lemma last_cons_default : forall (A : Type) (l : list A) a d d',
  last (a :: l) d = last (a :: l) d'.
Proof.
  induction l as [|x l IH]; intros a d d'; [reflexivity|].
  change (last (x :: l) d = last (x :: l) d'). apply IH.
Qed.

Lemma collect_blocks_to_remove_ret : forall fuel db rid b acc out,
  collect_blocks_to_remove fuel db rid b acc = Ret out ->
  exists l, branch_in_index (index db) (previous b) l
            /\ out = acc ++ map previous (b :: l)
            /\ previous (last (b :: l) b) = rid.
Proof.
  induction fuel as [|fuel IH]; intros db rid b acc out H; simpl in H;
    [discriminate|].
  unfold get_block_impl in H.
  destruct (index_find (previous b) (index db)) as [b'|] eqn:E.
  - destruct (IH _ _ _ _ _ H) as [l [Hb [Ho Hl]]].
    exists (b' :: l). split; [now apply branch_on|]. split.
    + rewrite Ho. simpl. now rewrite <- app_assoc.
    + rewrite <- Hl. change (last (b :: b' :: l) b) with (last (b' :: l) b).
      f_equal. apply last_cons_default.
  - destruct (previous b =? rid) eqn:Er; [|discriminate].
    inversion H; subst. exists []. split; [now apply branch_off|].
    split; [reflexivity|]. now apply N.eqb_eq.
Qed.

Lemma branch_previous_descends : forall idx h l,
  branch_in_index idx h l ->
  forall b, In b idx -> previous b = h ->
  forall x, In x (map previous (b :: l)) -> descends idx x (id b).
Proof.
  induction 1 as [h Hf|h p l Hf Hb IH]; intros b Hin Hp x Hx.
  - simpl in Hx. destruct Hx as [<-|[]]. now apply descends_child.
  - simpl in Hx. destruct Hx as [<-|Hx]; [now apply descends_child|].
    destruct (index_find_some _ _ _ Hf) as [Hpin Hpid].
    apply descends_step; auto. rewrite Hp, <- Hpid.
    apply (IH p); auto.
Qed.

Lemma last_previous_in : forall (l : list bs) b,
  In (previous (last (b :: l) b)) (map previous (b :: l)).
Proof.
  intros l b. apply in_map. 
  assert (H : b :: l <> []) by discriminate.
  destruct (exists_last H) as [l' [a E]]. rewrite E.
  rewrite last_last. apply in_or_app. right. now left.
Qed.

(** A chain of [idx] that does not end in [i]'s entry either avoids that entry
    altogether or passes through it. *)
Lemma descends_erase_split : forall idx i a y,
  descends idx a y -> y <> i ->
  descends (index_erase i idx) a y \/ descends (index_erase i idx) i y.
Proof.
  intros idx i a y H. induction H as [a n Hn Hp|a n Hn Hd IH]; intros Hy.
  - left. apply descends_child; auto. now apply index_erase_in.
  - assert (Hn1 : In n (index_erase i idx)) by now apply index_erase_in.
    destruct (N.eq_dec (previous n) i) as [E|E].
    + right. now apply descends_child.
    + destruct (IH E); [left|right]; now apply descends_step.
Qed.

(** A chain that avoids [i]'s entry cannot lead from a descendant of [i] to
    anything but a descendant of [i]. *)
Lemma descends_no_cross : forall idx i x,
  NoDup (map id idx) -> x <> i -> ~ descends idx i x ->
  forall y, descends idx i y -> ~ descends (index_erase i idx) x y.
Proof.
  intros idx i x Hnd Hxi Hnx y H.
  remember i as a eqn:Ea.
  induction H as [a n Hn Hp|a n Hn Hd IH]; subst a; intros Hc.
  - inversion Hc as [a' n' Hn' Hp' Hid|a' n' Hn' Hd' Hid]; subst.
    + apply index_erase_in in Hn'. destruct Hn' as [Hn' _].
      assert (n' = n) by (apply (in_unique_id idx); auto). subst. congruence.
    + apply index_erase_in in Hn'. destruct Hn' as [Hn' _].
      assert (n' = n) by (apply (in_unique_id idx); auto). subst.
      destruct (descends_target _ _ _ Hd') as [q [Hq Hqid]].
      apply index_erase_in in Hq. destruct Hq as [_ Hq]. congruence.
  - inversion Hc as [a' n' Hn' Hp' Hid|a' n' Hn' Hd' Hid]; subst.
    + apply index_erase_in in Hn'. destruct Hn' as [Hn' _].
      assert (n' = n) by (apply (in_unique_id idx); auto). subst.
      now apply Hnx.
    + apply index_erase_in in Hn'. destruct Hn' as [Hn' _].
      assert (n' = n) by (apply (in_unique_id idx); auto). subst.
      now apply IH.
Qed.

Lemma index_erase_nodup : forall i idx,
  NoDup (map id idx) -> NoDup (map id (index_erase i idx)).
Proof.
  intros i idx. unfold index_erase.
  induction idx as [|e l IH]; simpl; intros H; auto.
  inversion H as [|? ? Hni Hnd]; subst.
  destruct (negb (id e =? i)); simpl; auto.
  constructor; auto. intros Hin. apply Hni.
  apply in_map_iff in Hin. destruct Hin as [m [Hid Hm]].
  apply filter_In in Hm. rewrite <- Hid. apply in_map. tauto.
Qed.

Lemma parent_below_sub : forall idx s,
  (forall n, In n s -> In n idx) -> parent_below idx -> parent_below s.
Proof. intros idx s Hsub Hpb n p Hn Hp. apply Hpb; auto. Qed.

Lemma ids_unique_index : forall db,
  ids_unique db -> NoDup (map id (index db)).
Proof.
  intros db H. unfold ids_unique in H.
  destruct (root db); auto. now inversion H.
Qed.

(** Entries below the new root are out of reach of every id that
    [advance_root] prunes. *)
Lemma kept_below_new_root : forall idx i ids,
  NoDup (map id idx) -> parent_below idx ->
  (forall x, In x ids -> descends idx x i) ->
  forall y, descends idx i y ->
  forall x, In x ids -> y <> x /\ ~ descends (index_erase i idx) x y.
Proof.
  intros idx i ids Hnd Hpb Hids y Hy x Hx.
  specialize (Hids x Hx).
  assert (Hxi : x <> i).
  { intros ->. now apply (descends_irrefl idx Hnd Hpb i). }
  assert (Hnx : ~ descends idx i x).
  { intros H. apply (descends_irrefl idx Hnd Hpb i).
    now apply (descends_trans idx i x i). }
  split.
  - intros ->. contradiction.
  - now apply descends_no_cross.
Qed.

(** What a returning [advance_root] has done to a well-formed tree. *)
Lemma advance_root_impl_ret : forall fuel i db db' r,
  root db = Some r -> well_formed db ->
  advance_root_impl fuel i db = (db', Ret tt) ->
  exists new_root,
    index_find i (index db) = Some new_root
    /\ is_valid new_root = true
    /\ root db' = Some new_root
    /\ head db' = head db
    /\ (forall n, In n (index db') <->
          In n (index db) /\ descends (index db) i (id n))
    /\ (forall n, In n (index db') -> descends (index db') i (id n))
    /\ ~ In i (map id (index db')).
Proof.
  intros fuel i db db' r Hr [Hu [Hl Hpb]] H.
  pose proof (ids_unique_index db Hu) as Hnd.
  unfold advance_root_impl in H. rewrite Hr in H.
  unfold get_block_impl in H.
  destruct (index_find i (index db)) as [nr|] eqn:Ef; [|discriminate].
  destruct (is_valid nr) eqn:Ev; simpl in H; [|discriminate].
  destruct (collect_blocks_to_remove fuel db (id r) nr []) as [ids|e| |] eqn:Ec;
    try discriminate.
  destruct (remove_each fuel ids _) as [db2 r2] eqn:Er.
  destruct r2 as [[]|e| |]; try discriminate.
  inversion H; subst db'; clear H. simpl.
  destruct (index_find_some _ _ _ Ef) as [Hnr Hnrid].
  destruct (collect_blocks_to_remove_ret _ _ _ _ _ _ Ec) as [l [Hb [Hids Hlast]]].
  simpl in Hids.
  assert (Hanc : forall x, In x ids -> descends (index db) x i).
  { intros x Hx. rewrite <- Hnrid.
    apply (branch_previous_descends _ _ _ Hb nr Hnr eq_refl).
    rewrite Hids in Hx. exact Hx. }
  assert (Hroot : In (id r) ids).
  { rewrite Hids, <- Hlast. apply (last_previous_in l nr). }
  set (idx1 := index_erase i (index db)) in *.
  assert (Hnd1 : NoDup (map id idx1)) by now apply index_erase_nodup.
  assert (Hac1 : ancestor_closed idx1 idx1) by (split; auto).
  destruct (remove_each_ret idx1 fuel ids (mk_db idx1 (Some r) (head db)) db2
              Hnd1 Hac1 Er) as [Hac [_ [Hh Hin]]].
  simpl in Hin, Hh.
  assert (Hiff : forall n, In n (index db2) <->
            In n (index db) /\ descends (index db) i (id n)).
  { intros n. rewrite Hin. unfold idx1. rewrite index_erase_in. split.
    - intros [[Hn Hne] Hall]. split; auto.
      pose proof (linked_descends_root db r Hr Hl Hpb n Hn) as Hd.
      destruct (descends_erase_split _ i _ _ Hd Hne) as [Hd1|Hd1].
      + exfalso. now apply (Hall (id r) Hroot).
      + apply (descends_mono (index db) idx1); auto.
        intros m Hm. now apply index_erase_in in Hm.
    - intros [Hn Hd]. split.
      + split; auto. intros E. rewrite E in Hd.
        now apply (descends_irrefl _ Hnd Hpb i).
      + now apply (kept_below_new_root (index db) i ids). }
  exists nr. repeat split; auto.
  - now apply Hiff.
  - now apply Hiff.
  - now apply Hiff.
  - intros n Hn. pose proof Hn as Hn'. apply Hiff in Hn'.
    destruct Hn' as [Hn0 Hd].
    assert (Hne : id n <> i).
    { intros E. rewrite E in Hd. now apply (descends_irrefl _ Hnd Hpb i). }
    apply (descends_restrict idx1 (index db2) Hnd1 Hac i (id n)) with (n := n);
      auto.
    destruct (descends_erase_split _ i _ _ Hd Hne); auto.
  - intros Hi. apply in_map_iff in Hi. destruct Hi as [n [Hid Hn]].
    apply Hin in Hn. destruct Hn as [Hn _]. unfold idx1 in Hn.
    apply index_erase_in in Hn. tauto.
Qed.

(** In a well-formed tree the walk that fills [blocks_to_remove] ends at the
    root, given fuel. *)
Lemma collect_blocks_to_remove_settles : forall db r,
  root db = Some r -> linked db -> parent_below (index db) ->
  forall b acc, In b (index db) ->
  exists f0 ids, forall f, (f0 <= f)%nat ->
    collect_blocks_to_remove f db (id r) b acc = Ret ids.
Proof.
  intros db r Hr Hl Hpb.
  assert (H : forall k b acc, In b (index db) ->
            (N.to_nat (block_num b) < k)%nat ->
            exists f0 ids, forall f, (f0 <= f)%nat ->
              collect_blocks_to_remove f db (id r) b acc = Ret ids).
  { induction k as [|k IH]; intros b acc Hb Hk; [lia|].
    destruct (index_find (previous b) (index db)) as [p|] eqn:E.
    - destruct (index_find_some _ _ _ E) as [Hp Hid].
      destruct (IH p (acc ++ [previous b]) Hp) as [f0 [ids Hf]].
      + specialize (Hpb b p Hb Hp Hid). lia.
      + exists (S f0), ids. intros f Hle. destruct f as [|f]; [lia|].
        simpl. unfold get_block_impl. rewrite E. apply Hf. lia.
    - exists 1%nat, (acc ++ [previous b]). intros f Hle.
      destruct f as [|f]; [lia|]. simpl. unfold get_block_impl. rewrite E.
      destruct (Hl b Hb) as [[r' [Hr' Hp]]|[p [Hp Hid]]].
      + rewrite Hr in Hr'. inversion Hr'; subst.
        rewrite Hp. now rewrite N.eqb_refl.
      + exfalso. apply (index_find_none _ _ E p); auto. }
  intros b acc Hb. apply (H (S (N.to_nat (block_num b)))); auto.
Qed.

Lemma remove_each_settles : forall ids db h,
  head db = Some h -> parent_below (index db) ->
  (forall x, In x ids -> id h <> x /\ ~ descends (index db) x (id h)) ->
  exists f0 db', forall f, (f0 <= f)%nat ->
    remove_each f ids db = (db', Ret tt).
Proof.
  induction ids as [|x ids IH]; intros db h Hh Hpb Hsafe.
  - exists O, db. reflexivity.
  - destruct (remove_impl_spec db h x Hh Hpb)
      as [f0 [[Hd _]|[_ [idx' [Hrun [Hin _]]]]]].
    + exfalso. destruct (Hsafe x (or_introl eq_refl)). tauto.
    + assert (Hsub : forall n, In n idx' -> In n (index db)).
      { intros n Hn. now apply Hin in Hn. }
      destruct (IH (mk_db idx' (root db) (head db)) h) as [f1 [db' Hrest]]; auto.
      * simpl. now apply (parent_below_sub (index db)).
      * simpl. intros y Hy. destruct (Hsafe y (or_intror Hy)) as [Hne Hnd].
        split; auto. intros Hd. apply Hnd.
        now apply (descends_mono (index db) idx').
      * exists (Nat.max f0 f1), db'. intros f Hf. simpl.
        rewrite Hrun by lia. apply Hrest. lia.
Qed.

(** In a well-formed tree whose head is the new root or below it,
    [advance_root] returns, given fuel. *)
Lemma advance_root_impl_returns : forall db r h i new_root,
  well_formed db -> root db = Some r -> head db = Some h ->
  index_find i (index db) = Some new_root -> is_valid new_root = true ->
  (id h = i \/ descends (index db) i (id h)) ->
  exists f0 db', forall f, (f0 <= f)%nat ->
    advance_root_impl f i db = (db', Ret tt).
Proof.
  intros db r h i nr [Hu [Hl Hpb]] Hr Hh Ef Ev Hhead.
  pose proof (ids_unique_index db Hu) as Hnd.
  destruct (index_find_some _ _ _ Ef) as [Hnr Hnrid].
  destruct (collect_blocks_to_remove_settles db r Hr Hl Hpb nr [] Hnr)
    as [f0 [ids Hc]].
  destruct (collect_blocks_to_remove_ret _ _ _ _ _ _ (Hc f0 (Nat.le_refl _)))
    as [l [Hb [Hids _]]].
  simpl in Hids.
  assert (Hanc : forall x, In x ids -> descends (index db) x i).
  { intros x Hx. rewrite <- Hnrid.
    apply (branch_previous_descends _ _ _ Hb nr Hnr eq_refl).
    rewrite Hids in Hx. exact Hx. }
  set (db1 := mk_db (index_erase i (index db)) (root db) (head db)).
  destruct (remove_each_settles ids db1 h) as [f1 [db2 Hrm]]; auto.
  - simpl. apply (parent_below_sub (index db)); auto.
    intros n Hn. now apply index_erase_in in Hn.
  - simpl. intros x Hx. destruct Hhead as [E|Hd].
    + split.
      * rewrite E. intros Hix. pose proof (Hanc x Hx) as Hd.
        rewrite <- Hix in Hd. now apply (descends_irrefl _ Hnd Hpb i).
      * intros Hd. destruct (descends_target _ _ _ Hd) as [q [Hq Hqid]].
        apply index_erase_in in Hq. destruct Hq as [_ Hq]. congruence.
    + now apply (kept_below_new_root (index db) i ids).
  - exists (Nat.max f0 f1), (mk_db (index db2) (Some nr) (head db2)).
    intros f Hf. unfold advance_root_impl. rewrite Hr.
    unfold get_block_impl. rewrite Ef, Ev. simpl.
    rewrite Hc by lia. unfold db1 in Hrm. rewrite Hr in Hrm.
    rewrite Hrm by lia. reflexivity.
Qed.

Example advance_root_s4 :
  advance_root_impl 5 2 db_s4 = (mk_db [C7] (Some A1) (Some A1), Ret tt).
Proof. reflexivity. Qed.

(** C7, as stated, fails in its error clause: advancing the root to B2, which
    is in the index but not validated, fails with the error of the third
    assertion, which is neither RootNotSet nor NotFound. *)
Lemma advance_root_unvalidated_error :
  get_block_impl db_pending 3 = Some B2
  /\ advance_root_impl 5 3 db_pending = (db_pending, Throw NotValidated)
  /\ NotValidated <> RootNotSet /\ NotValidated <> NotFound.
Proof. repeat split; try reflexivity; discriminate. Qed.

(** C7, amended. [advance_root] fails with RootNotSet when the root is unset,
    with NotFound when [i] is not in the index and with NotValidated when its
    entry is not validated, each time without touching the state.  On a
    well-formed tree, when it returns, the root is the entry of [i] itself,
    unmodified, [i] is no longer in the index, the head is unchanged, and the
    index holds exactly the former descendants of [i], each of which still
    descends from [i]; and it does return, given fuel, when the head is [i] or
    below it. *)
Theorem advance_root_moves_root :
  forall db i,
    (root db = None ->
     forall fuel, advance_root_impl fuel i db = (db, Throw RootNotSet))
    /\ (forall r, root db = Some r ->
        (index_find i (index db) = None ->
         forall fuel, advance_root_impl fuel i db = (db, Throw NotFound))
        /\ (forall n, index_find i (index db) = Some n -> is_valid n = false ->
            forall fuel, advance_root_impl fuel i db = (db, Throw NotValidated))
        /\ (well_formed db ->
            (forall fuel db',
               advance_root_impl fuel i db = (db', Ret tt) ->
               exists new_root,
                 index_find i (index db) = Some new_root
                 /\ is_valid new_root = true
                 /\ root db' = Some new_root
                 /\ head db' = head db
                 /\ (forall n, In n (index db') <->
                       In n (index db) /\ descends (index db) i (id n))
                 /\ (forall n, In n (index db') ->
                       descends (index db') i (id n))
                 /\ ~ In i (map id (index db')))
            /\ (forall h new_root,
                  head db = Some h ->
                  index_find i (index db) = Some new_root ->
                  is_valid new_root = true ->
                  id h = i \/ descends (index db) i (id h) ->
                  exists f0 db', forall f, (f0 <= f)%nat ->
                    advance_root_impl f i db = (db', Ret tt)))).
Proof.
  intros db i. split.
  - intros Hr fuel. unfold advance_root_impl. now rewrite Hr.
  - intros r Hr. split; [|split].
    + intros Hf fuel. unfold advance_root_impl, get_block_impl.
      now rewrite Hr, Hf.
    + intros n Hf Hv fuel. unfold advance_root_impl, get_block_impl.
      now rewrite Hr, Hf, Hv.
    + intros Hwf. split.
      * intros fuel db' H. now apply (advance_root_impl_ret fuel i db db' r).
      * intros h nr Hh Hf Hv Hhead.
        now apply (advance_root_impl_returns db r h i nr).
Qed.

Lemma db_s4_well_formed : well_formed db_s4.
Proof.
  split; [|split].
  - vm_compute. repeat constructor; simpl; intuition discriminate.
  - intros n Hn. vm_compute in Hn. destruct Hn as [<-|[<-|[<-|[]]]].
    + left. exists root0. split; reflexivity.
    + right. exists A1. split; [vm_compute; tauto|reflexivity].
    + left. exists root0. split; reflexivity.
  - prove_parent_below3.
Qed.

Lemma advance_root_moves_root_witness :
  well_formed db_s4
  /\ (exists f0 db', forall f, (f0 <= f)%nat ->
        advance_root_impl f 2 db_s4 = (db', Ret tt))
  /\ exists new_root,
       index_find 2 (index db_s4) = Some new_root
       /\ is_valid new_root = true
       /\ Some A1 = Some new_root
       /\ Some A1 = head db_s4
       /\ (forall n, In n [C7] <->
             In n (index db_s4) /\ descends (index db_s4) 2 (id n))
       /\ (forall n, In n [C7] -> descends [C7] 2 (id n))
       /\ ~ In 2 (map id [C7]).
Proof.
  pose proof db_s4_well_formed as Hwf.
  destruct (advance_root_moves_root db_s4 2) as [_ H].
  destruct (H root0 eq_refl) as [_ [_ H']].
  destruct (H' Hwf) as [Hret Hrun].
  split; [exact Hwf|]. split.
  - apply (Hrun A1 A1); try reflexivity. now left.
  - exact (Hret 5%nat (mk_db [C7] (Some A1) (Some A1)) eq_refl).
Defined.

(** ** The ordered view under insert, erase and modify *)

Lemma ordered_insert_in : forall n idx x,
  In x (ordered_insert n idx) <-> x = n \/ In x idx.
Proof.
  intros n. induction idx as [|e l IH]; intros x; simpl.
  - intuition.
  - destruct (by_lib_less n e); simpl; [intuition|]. rewrite IH. intuition.
Qed.

Lemma ordered_insert_ordered : forall n idx,
  ordered idx -> (forall e, In e idx -> id e <> id n) ->
  ordered (ordered_insert n idx).
Proof.
  unfold ordered. intros n. induction idx as [|e l IH]; intros Ho Hfresh; simpl.
  - repeat constructor.
  - inversion Ho as [|? ? Hl He]; subst.
    destruct (by_lib_less n e) eqn:E.
    + constructor; auto. constructor; auto.
      rewrite Forall_forall in *. intros x Hx.
      apply (by_lib_less_trans n e x); auto.
    + assert (Hen : by_lib_less e n = true).
      { destruct (by_lib_less e n) eqn:E'; auto. exfalso.
        apply (Hfresh e); [now left|]. symmetry.
        now apply by_lib_less_total. }
      constructor.
      * apply IH; auto. intros x Hx. apply Hfresh. now right.
      * rewrite Forall_forall in *. intros x Hx.
        apply ordered_insert_in in Hx. destruct Hx as [->|Hx]; auto.
Qed.

Lemma ordered_filter : forall f idx, ordered idx -> ordered (filter f idx).
Proof.
  unfold ordered. intros f idx H.
  induction H as [|e l Hl IH He]; simpl; [constructor|].
  destruct (f e); auto. constructor; auto.
  rewrite Forall_forall in *. intros x Hx. apply filter_In in Hx.
  apply He. tauto.
Qed.

Lemma index_insert_spec : forall n idx idx' b,
  index_insert n idx = (idx', b) ->
  (b = false -> idx' = idx)
  /\ (b = true ->
      (forall x, In x idx' <-> x = n \/ In x idx)
      /\ (ordered idx -> ordered idx')
      /\ (NoDup (map id idx) -> NoDup (map id idx'))).
Proof.
  intros n idx idx' b H. unfold index_insert in H.
  destruct (index_find (id n) idx) as [e|] eqn:E; inversion H; subst; clear H.
  - split; [auto|discriminate].
  - split; [discriminate|]. intros _.
    pose proof (index_find_none _ _ E) as Hfresh.
    split; [apply ordered_insert_in|]. split.
    + intros Ho. now apply ordered_insert_ordered.
    + intros Hnd. clear E.
      induction idx as [|e l IH]; simpl.
      * repeat constructor. auto.
      * inversion Hnd as [|? ? Hni Hnd']; subst.
        destruct (by_lib_less n e); simpl.
        -- constructor; auto. intros [Hx|Hx].
           ++ apply (Hfresh e); [now left|auto].
           ++ apply in_map_iff in Hx. destruct Hx as [m [Hid Hm]].
              apply (Hfresh m); [now right|auto].
        -- constructor.
           ++ intros Hx. apply in_map_iff in Hx. destruct Hx as [m [Hid Hm]].
              apply ordered_insert_in in Hm. destruct Hm as [->|Hm].
              ** apply (Hfresh e); [now left|auto].
              ** apply Hni. rewrite <- Hid. now apply in_map.
           ++ apply IH; auto. intros x Hx. apply Hfresh. now right.
Qed.

Lemma index_modify_valid_spec : forall b i idx,
  (forall x, In x (index_modify_valid b i idx) ->
     (id x = i /\ is_valid x = b) \/ (In x idx /\ id x <> i))
  /\ (forall x, In x idx -> id x <> i -> In x (index_modify_valid b i idx))
  /\ (forall e, index_find i idx = Some e ->
        In (set_valid b e) (index_modify_valid b i idx))
  /\ (ordered idx -> ordered (index_modify_valid b i idx)).
Proof.
  intros b i idx. unfold index_modify_valid.
  destruct (index_find i idx) as [e|] eqn:E.
  - destruct (index_find_some _ _ _ E) as [He Hid].
    split; [|split; [|split]].
    + intros x Hx. apply ordered_insert_in in Hx. destruct Hx as [->|Hx].
      * left. simpl. auto.
      * right. now apply index_erase_in in Hx.
    + intros x Hx Hne. apply ordered_insert_in. right.
      now apply index_erase_in.
    + intros e' He'. inversion He'; subst. apply ordered_insert_in. now left.
    + intros Ho. apply ordered_insert_ordered.
      * now apply ordered_filter.
      * intros x Hx. apply index_erase_in in Hx. simpl. intuition congruence.
  - split; [|split; [|split]]; auto; try discriminate.
    intros x Hx. right. split; auto. now apply (index_find_none _ _ E).
Qed.

Lemma ordered_hd_valid : forall c l,
  ordered (c :: l) -> is_valid c = false ->
  forall n, In n (c :: l) -> is_valid n = false.
Proof.
  intros c l Ho Hc n [<-|Hn]; auto.
  inversion Ho as [|? ? _ Hall]; subst. rewrite Forall_forall in Hall.
  apply (by_lib_less_valid c n); auto.
Qed.

Lemma ordered_hd_best : forall c l,
  ordered (c :: l) -> is_valid c = true ->
  forall n, In n (c :: l) -> is_valid n = true -> first_preferred n c = false.
Proof.
  intros c l Ho Hc n [<-|Hn] Hv; [apply first_preferred_irrefl|].
  inversion Ho as [|? ? _ Hall]; subst. rewrite Forall_forall in Hall.
  apply (by_lib_less_not_preferred c n); auto. congruence.
Qed.

(** ** Head selection is an invariant (C1) *)

Lemma filter_compose : forall (A : Type) (f g : A -> bool) l,
  filter f (filter g l) = filter (fun x => g x && f x) l.
Proof.
  induction l as [|a l IH]; simpl; auto.
  destruct (g a); simpl; [destruct (f a)|]; simpl; congruence.
Qed.

Lemma fork_inv_shrink : forall db db' keep,
  fork_inv db -> index db' = filter keep (index db) ->
  root db' = root db -> head db' = head db -> fork_inv db'.
Proof.
  intros db db' keep [I1 [I2 [I3 I4]]] Hi Hr Hh.
  unfold fork_inv, head_is_best. rewrite Hi, Hr, Hh.
  split; [|split; [|split]]; auto.
  - intros Hn. destruct (I1 Hn) as [E ->]. rewrite E. auto.
  - intros h Hhd. destruct (I3 h Hhd) as [Hv Hb]. split; auto.
    intros n Hn. apply filter_In in Hn. apply Hb. tauto.
  - now apply ordered_filter.
Qed.

Lemma remove_impl_filter : forall fuel i db db' r,
  remove_impl fuel i db = (db', r) ->
  root db' = root db /\ head db' = head db
  /\ exists keep, index db' = filter keep (index db).
Proof.
  intros fuel i db db' r H.
  destruct (remove_impl_shape _ _ _ _ _ H) as [Hn Hs].
  destruct r as [[]|e| |].
  - destruct (Hs eq_refl) as [Hr [Hh [_ [q [_ Hi]]]]].
    rewrite Hi, erase_all_filter. eauto.
  - rewrite Hn by discriminate. repeat split; auto.
    exists (fun _ => true). symmetry. apply filter_all.
    intros x Hx. apply filter_In. auto.
  - rewrite Hn by discriminate. repeat split; auto.
    exists (fun _ => true). symmetry. apply filter_all.
    intros x Hx. apply filter_In. auto.
  - rewrite Hn by discriminate. repeat split; auto.
    exists (fun _ => true). symmetry. apply filter_all.
    intros x Hx. apply filter_In. auto.
Qed.

Lemma remove_each_filter : forall fuel ids db db' r,
  remove_each fuel ids db = (db', r) ->
  root db' = root db /\ head db' = head db
  /\ exists keep, index db' = filter keep (index db).
Proof.
  intros fuel. induction ids as [|i ids IH]; intros db db' r H; simpl in H.
  - inversion H; subst. repeat split; auto.
    exists (fun _ => true). symmetry. apply filter_all.
    intros x Hx. apply filter_In. auto.
  - destruct (remove_impl fuel i db) as [db1 r1] eqn:E.
    destruct (remove_impl_filter _ _ _ _ _ E) as [Hr [Hh [k1 Hk1]]].
    destruct r1 as [[]|e| |]; try (inversion H; subst; eauto).
    destruct (IH _ _ _ H) as [Hr' [Hh' [k2 Hk2]]].
    split; [congruence|]. split; [congruence|].
    exists (fun x => k1 x && k2 x). rewrite Hk2, Hk1. apply filter_compose.
Qed.

Lemma remove_impl_inv : forall fuel i db db' r,
  fork_inv db -> remove_impl fuel i db = (db', r) -> fork_inv db'.
Proof.
  intros fuel i db db' r HI H.
  destruct (remove_impl_filter _ _ _ _ _ H) as [Hr [Hh [k Hk]]].
  now apply (fork_inv_shrink db db' k).
Qed.

Lemma advance_root_impl_inv : forall fuel i db db' r,
  fork_inv db -> advance_root_impl fuel i db = (db', r) -> fork_inv db'.
Proof.
  intros fuel i db db' r HI H. unfold advance_root_impl in H.
  destruct (root db) as [rt|] eqn:Hrt; [|inversion H; subst; auto].
  destruct (get_block_impl db i) as [nr|] eqn:Ef; [|inversion H; subst; auto].
  destruct (is_valid nr) eqn:Ev; simpl in H; [|inversion H; subst; auto].
  destruct (collect_blocks_to_remove fuel db (id rt) nr []) as [ids|e| |];
    try (inversion H; subst; auto; fail).
  destruct (remove_each fuel ids _) as [db2 r2] eqn:Er.
  destruct (remove_each_filter _ _ _ _ _ Er) as [Hr [Hh [k Hk]]].
  simpl in Hr, Hh, Hk. unfold index_erase in Hk. rewrite filter_compose in Hk.
  assert (HI2 : fork_inv db2).
  { apply (fork_inv_shrink db db2 _ HI Hk); congruence. }
  destruct r2 as [[]|e| |]; inversion H; subst; auto.
  destruct HI2 as [I1 [I2 [I3 I4]]].
  unfold fork_inv, head_is_best. simpl.
  split; [discriminate|]. split; [|split; auto].
  intros r' Hr'. inversion Hr'; subst. split; auto.
  apply (I2 rt). congruence.
Qed.

Lemma add_impl_inv : forall n ig v vd db db' r,
  fork_inv db -> add_impl n ig v vd db = (db', r) -> completed r ->
  fork_inv db'.
Proof.
  intros n ig v vd db db' r HI H Hc.
  destruct r as [[]|e| |];
    [|apply add_impl_throws in H; subst; auto
     |destruct Hc as [Hc|[e Hc]]; discriminate
     |destruct Hc as [Hc|[e Hc]]; discriminate].
  unfold add_impl in H.
  destruct (root db) as [rt|] eqn:Hrt; [|discriminate].
  destruct n as [n|]; [|discriminate].
  destruct (get_block_header_impl db (previous n)) as [[p|]|e| |];
    try discriminate.
  destruct (v && negb (vd n p)); [discriminate|].
  destruct (index_insert n (index db)) as [idx ins] eqn:Ei.
  destruct (index_insert_spec _ _ _ _ Ei) as [_ Hins].
  destruct ins; simpl in H.
  - destruct (Hins eq_refl) as [Hin [Ho _]].
    destruct HI as [I1 [I2 [I3 I4]]]. specialize (Ho I4).
    destruct idx as [|c l]; [discriminate|].
    destruct (I2 rt Hrt) as [Hrv [h Hh]].
    destruct (is_valid c) eqn:Ec; inversion H; subst; clear H;
      unfold fork_inv, head_is_best; simpl;
      (split; [discriminate|]); (split; [|split; auto]).
    + intros r' Hr'. inversion Hr'; subst. eauto.
    + intros h' Hh'. inversion Hh'; subst. split; auto.
      now apply ordered_hd_best.
    + intros r' Hr'. inversion Hr'; subst. eauto.
    + intros h' Hh'. destruct (I3 h' Hh') as [Hv _]. split; auto.
      intros m Hm Hmv. rewrite (ordered_hd_valid c l Ho Ec m Hm) in Hmv.
      discriminate.
  - destruct ig; inversion H; subst; auto.
Qed.

Lemma mark_valid_impl_inv : forall h db db' r,
  fork_inv db -> mark_valid_impl h db = (db', r) -> completed r ->
  fork_inv db'.
Proof.
  intros h db db' r HI H Hc. unfold mark_valid_impl in H.
  destruct (is_valid h); [inversion H; subst; auto|].
  destruct (index_find (id h) (index db)) as [e|] eqn:Ef;
    [|inversion H; subst; auto].
  destruct (index_modify_valid_spec true (id h) (index db))
    as [Hin [_ [Hnew Ho]]].
  specialize (Hnew e Ef).
  destruct HI as [I1 [I2 [I3 I4]]]. specialize (Ho I4).
  destruct (index_modify_valid true (id h) (index db)) as [|c l] eqn:Em;
    [contradiction|].
  destruct (head db) as [hd|] eqn:Hhd;
    [|simpl in H; inversion H; subst; destruct Hc as [Hc|[e' Hc]];
      discriminate].
  assert (Hcv : is_valid c = true).
  { destruct (is_valid c) eqn:Ec; auto.
    pose proof (ordered_hd_valid c l Ho Ec _ Hnew) as F. discriminate. }
  assert (Hroot : root db = None -> False).
  { intros Hn. destruct (I1 Hn) as [_ F]. congruence. }
  destruct (I3 hd Hhd) as [Hhv Hhb].
  rewrite (head_after_modify_valid e hd Hhv) in H.
  destruct (first_preferred c hd) eqn:Ep; inversion H; subst; clear H;
    unfold fork_inv, head_is_best; simpl;
    (split; [intros Hn; now destruct (Hroot Hn)|]); (split; [|split; auto]).
  - intros r' Hr'. destruct (I2 r' Hr'). eauto.
  - intros h' Hh'. inversion Hh'; subst. split; auto.
    now apply ordered_hd_best.
  - intros r' Hr'. destruct (I2 r' Hr'). eauto.
  - intros h' Hh'. inversion Hh'; subst. split; auto.
    intros m Hm Hmv.
    apply (first_preferred_neg_trans m c h'); auto.
    now apply (ordered_hd_best c l).
Qed.

Lemma rollback_all_invalid : forall ids idx,
  (forall n, In n idx -> is_valid n = true -> In (id n) ids) ->
  forall n, In n (fold_left (fun acc i => index_modify_valid false i acc) ids idx) ->
            is_valid n = false.
Proof.
  induction ids as [|i ids IH]; intros idx Hcov n Hn; simpl in Hn.
  - destruct (is_valid n) eqn:E; auto. now destruct (Hcov n Hn E).
  - apply (IH (index_modify_valid false i idx)); auto.
    intros m Hm Hmv.
    destruct (index_modify_valid_spec false i idx) as [Hin _].
    destruct (Hin m Hm) as [[_ F]|[Hm' Hne]]; [congruence|].
    destruct (Hcov m Hm' Hmv); [congruence|auto].
Qed.

Lemma rollback_ordered : forall ids idx, ordered idx ->
  ordered (fold_left (fun acc i => index_modify_valid false i acc) ids idx).
Proof.
  induction ids as [|i ids IH]; intros idx Ho; simpl; auto.
  apply IH. now apply index_modify_valid_spec.
Qed.

Lemma rollback_nil : forall ids,
  fold_left (fun acc i => index_modify_valid false i acc) ids [] = [].
Proof. induction ids; simpl; auto. Qed.

Lemma rollback_head_to_root_impl_inv : forall db,
  fork_inv db -> fork_inv (rollback_head_to_root_impl db).
Proof.
  intros db [I1 [I2 [I3 I4]]].
  unfold rollback_head_to_root_impl, fork_inv, head_is_best. simpl.
  split; [|split; [|split]].
  - intros Hn. destruct (I1 Hn) as [E _]. rewrite E. simpl. auto.
  - intros r Hr. destruct (I2 r Hr). eauto.
  - intros h Hh. destruct (I2 h Hh) as [Hv _]. split; auto.
    intros n Hn Hnv.
    rewrite (rollback_all_invalid (map id (index db)) (index db)) in Hnv; auto.
    + discriminate.
    + intros m Hm _. now apply in_map.
  - now apply rollback_ordered.
Qed.

Lemma reset_impl_inv : forall b db, fork_inv (reset_impl b db).
Proof.
  intros b db. unfold reset_impl, fork_inv, head_is_best. simpl.
  split; [discriminate|]. split; [|split].
  - intros r Hr. inversion Hr; subst. simpl. eauto.
  - intros h Hh. inversion Hh; subst. simpl. split; auto. intros n [].
  - constructor.
Qed.

Lemma close_impl_inv : forall m db,
  fork_inv db -> fork_inv (fst (close_impl m db)).
Proof.
  intros m db HI. unfold close_impl.
  destruct (root db) eqn:Hr; simpl; auto.
  apply (fork_inv_shrink db _ (fun _ => false)); auto. simpl.
  induction (index db); simpl; auto.
Qed.

Lemma add_impl_ret : forall n ig v vd db db',
  add_impl n ig v vd db = (db', Ret tt) ->
  root db' = root db
  /\ forall x, In x (index db') -> Some x = n \/ In x (index db).
Proof.
  intros n ig v vd db db' H. unfold add_impl in H.
  destruct (root db) as [rt|] eqn:Hrt; [|discriminate].
  destruct n as [n|]; [|discriminate].
  destruct (get_block_header_impl db (previous n)) as [[p|]|e| |];
    try discriminate.
  destruct (v && negb (vd n p)); [discriminate|].
  destruct (index_insert n (index db)) as [idx ins] eqn:Ei.
  destruct (index_insert_spec _ _ _ _ Ei) as [_ Hins].
  destruct ins; simpl in H.
  - destruct (Hins eq_refl) as [Hin _].
    destruct idx as [|c l]; [discriminate|].
    destruct (is_valid c); inversion H; subst; simpl; split; auto;
      intros x Hx; apply Hin in Hx; destruct Hx as [->|Hx]; auto.
  - destruct ig; inversion H; subst. split; auto.
Qed.

Lemma open_add_all_inv : forall vd blocks db db' r,
  fork_inv db -> open_add_all vd blocks db = (db', r) -> completed r ->
  fork_inv db'
  /\ (r = Ret tt ->
      root db' = root db
      /\ forall x, In x (index db') -> In x blocks \/ In x (index db)).
Proof.
  intros vd. induction blocks as [|s rest IH]; intros db db' r HI H Hc;
    simpl in H.
  - inversion H; subst. auto.
  - destruct (add_impl (Some s) false true vd db) as [db1 r1] eqn:E.
    destruct r1 as [[]|e| |].
    + assert (HI1 : fork_inv db1).
      { apply (add_impl_inv _ _ _ _ _ _ _ HI E). now left. }
      destruct (add_impl_ret _ _ _ _ _ _ E) as [Hr1 Hin1].
      destruct (IH _ _ _ HI1 H Hc) as [HI' Hret]. split; auto.
      intros Hr. destruct (Hret Hr) as [Hr' Hin']. split; [congruence|].
      intros x Hx. destruct (Hin' x Hx) as [Hx'|Hx'].
      * left. now right.
      * destruct (Hin1 x Hx') as [Hs|Hx'']; auto.
        inversion Hs; subst. left. now left.
    + inversion H; subst. split; [|discriminate].
      apply (add_impl_inv _ _ _ _ _ _ _ HI E). right. eauto.
    + inversion H; subst. destruct Hc as [Hc|[e Hc]]; discriminate.
    + inversion H; subst. destruct Hc as [Hc|[e Hc]]; discriminate.
Qed.

Lemma open_check_best : forall db h,
  ordered (index db) -> head db = Some h -> open_check db = Ret tt ->
  forall n, In n (index db) -> is_valid n = true ->
            first_preferred n h = false.
Proof.
  intros db h Ho Hh Hc n Hn Hv. unfold open_check in Hc.
  rewrite Hh in Hc. simpl in Hc.
  destruct (root db) as [r|]; simpl in Hc; [|discriminate].
  destruct (index db) as [|c l]; [contradiction|].
  destruct (is_valid c) eqn:Ec.
  - destruct (first_preferred c h) eqn:Ep; simpl in Hc; [discriminate|].
    apply (first_preferred_neg_trans n c h); auto.
    now apply (ordered_hd_best c l).
  - rewrite (ordered_hd_valid c l Ho Ec n Hn) in Hv. discriminate.
Qed.

Lemma open_impl_inv : forall m vd file db db',
  fork_inv db ->
  fst (open_impl m vd file db) = (db', Ret tt) ->
  (forall f, file = Some f -> head_stored_valid f) ->
  fork_inv db'.
Proof.
  intros m vd file db db' HI H Hf. destruct file as [f|]; simpl in H;
    [|inversion H; subst; auto].
  specialize (Hf f eq_refl). unfold open_file in H.
  destruct (negb (f_magic f =? m)); [discriminate|].
  destruct (negb _); [discriminate|].
  destruct (open_add_all vd (f_blocks f) (reset_impl (f_root f) db))
    as [db1 r1] eqn:E.
  destruct r1 as [[]|e| |]; try discriminate.
  destruct (open_add_all_inv _ _ _ _ _ (reset_impl_inv (f_root f) db) E)
    as [HI1 Hret]; [now left|].
  destruct (Hret eq_refl) as [Hr1 Hin1]. simpl in Hr1, Hin1.
  destruct HI1 as [I1 [I2 [I3 I4]]].
  destruct (f_head_id f) as [hid|] eqn:Ehid; [|discriminate].
  rewrite Hr1 in H.
  destruct (I2 _ Hr1) as [Hrv _].
  match type of H with
  | context [id ?r =? hid] => set (rt := r) in *
  end.
  assert (Hgoal : forall h, (h = rt \/ (In h (index db1) /\ id h = hid)) ->
            open_check (mk_db (index db1) (Some rt) (Some h)) = Ret tt ->
            fork_inv (mk_db (index db1) (Some rt) (Some h))).
  { intros h Hh Hc. unfold fork_inv, head_is_best. simpl.
    split; [discriminate|]. split; [|split; auto].
    - intros r' Hr'. inversion Hr'; subst. eauto.
    - intros h' Hh'. inversion Hh'; subst h'. split.
      + destruct Hh as [->|[Hh Hid]]; auto.
        apply (Hf hid h); auto.
        destruct (Hin1 h Hh) as [?|[]]; auto.
      + now apply (open_check_best (mk_db (index db1) (Some rt) (Some h))). }
  destruct (id rt =? hid).
  - destruct (open_check _) as [[]|e| |] eqn:Ec; try discriminate.
    inversion H; subst. apply Hgoal; auto.
  - destruct (get_block_impl db1 hid) as [h|] eqn:Eg; [|discriminate].
    apply index_find_some in Eg.
    destruct (open_check _) as [[]|e| |] eqn:Ec; try discriminate.
    inversion H; subst. rewrite Hr1 in *. apply Hgoal; auto.
Qed.

Lemma fork_inv_empty : fork_inv empty_db.
Proof.
  unfold fork_inv, head_is_best, empty_db. simpl.
  split; [auto|]. split; [discriminate|]. split; [discriminate|constructor].
Qed.

Lemma apply_op_inv : forall o db db' r,
  fork_inv db -> apply_op o db = (db', r) -> sound_call o r -> fork_inv db'.
Proof.
  intros o db db' r HI H Hs. destruct o; simpl in H, Hs.
  - inversion H; subst. apply reset_impl_inv.
  - now apply (add_impl_inv _ _ _ _ _ _ _ HI H).
  - now apply (mark_valid_impl_inv _ _ _ _ HI H).
  - inversion H; subst. now apply rollback_head_to_root_impl_inv.
  - now apply (advance_root_impl_inv _ _ _ _ _ HI H).
  - now apply (remove_impl_inv _ _ _ _ _ HI H).
  - inversion H; subst. now apply close_impl_inv.
  - destruct file as [f|].
    + destruct Hs as [-> Hf].
      apply (open_impl_inv magic_number validator (Some f) db db' HI H).
      intros f' E. inversion E; subst. exact Hf.
    + simpl in H. inversion H; subst. exact HI.
Qed.

Lemma reachable_sound_inv : forall db, reachable_sound db -> fork_inv db.
Proof.
  induction 1 as [|db o db' r Hreach IH Hop Hs].
  - apply fork_inv_empty.
  - now apply (apply_op_inv o db db' r).
Qed.

(** ** The head stays in the tree *)

Lemma ordered_insert_perm : forall n idx,
  Permutation (n :: idx) (ordered_insert n idx).
Proof.
  intros n. induction idx as [|e l IH]; simpl; auto.
  destruct (by_lib_less n e); auto.
  rewrite perm_swap. now constructor.
Qed.

Lemma ordered_insert_nodup : forall n idx,
  NoDup (map id idx) -> (forall e, In e idx -> id e <> id n) ->
  NoDup (map id (ordered_insert n idx)).
Proof.
  intros n idx Hnd Hfresh.
  apply (Permutation_NoDup (l := map id (n :: idx))).
  - apply Permutation_map, ordered_insert_perm.
  - simpl. constructor; auto. intros Hin. apply in_map_iff in Hin.
    destruct Hin as [e [Hid He]]. now apply (Hfresh e).
Qed.

Lemma filter_nodup_id : forall (f : bs -> bool) idx,
  NoDup (map id idx) -> NoDup (map id (filter f idx)).
Proof.
  intros f. induction idx as [|e l IH]; simpl; intros H; auto.
  inversion H as [|? ? Hni Hnd]; subst.
  destruct (f e); simpl; auto.
  constructor; auto. intros Hin. apply Hni.
  apply in_map_iff in Hin. destruct Hin as [m [Hid Hm]].
  apply filter_In in Hm. rewrite <- Hid. apply in_map. tauto.
Qed.

Lemma index_modify_valid_nodup : forall b i idx,
  NoDup (map id idx) -> NoDup (map id (index_modify_valid b i idx)).
Proof.
  intros b i idx Hnd. unfold index_modify_valid.
  destruct (index_find i idx) as [e|] eqn:E; auto.
  destruct (index_find_some _ _ _ E) as [_ Hid].
  apply ordered_insert_nodup.
  - now apply filter_nodup_id.
  - intros x Hx. apply index_erase_in in Hx. simpl. intuition congruence.
Qed.

Lemma set_valid_same : forall n, set_valid (is_valid n) n = n.
Proof. now destruct n. Qed.

Lemma head_in_tree_add : forall n ig v vd db db' r,
  head_in_tree db -> add_impl n ig v vd db = (db', r) -> completed r ->
  head_in_tree db'.
Proof.
  intros n ig v vd db db' r [K J] H Hc.
  destruct r as [[]|e| |];
    [|apply add_impl_throws in H; subst; split; auto
     |destruct Hc as [Hc|[e Hc]]; discriminate
     |destruct Hc as [Hc|[e Hc]]; discriminate].
  unfold add_impl in H.
  destruct (root db) as [rt|] eqn:Hrt; [|discriminate].
  destruct n as [n|]; [|discriminate].
  destruct (get_block_header_impl db (previous n)) as [[p|]|e| |];
    try discriminate.
  destruct (v && negb (vd n p)); [discriminate|].
  destruct (index_insert n (index db)) as [idx ins] eqn:Ei.
  destruct (index_insert_spec _ _ _ _ Ei) as [_ Hins].
  destruct ins; simpl in H.
  - destruct (Hins eq_refl) as [Hin [_ Hnd]]. specialize (Hnd K).
    destruct idx as [|c l]; [discriminate|].
    destruct (is_valid c); inversion H; subst; clear H; split; simpl; auto.
    + intros h Hh. inversion Hh; subst. right. now left.
    + intros h Hh. destruct (J h Hh) as [Hr|Hi]; [left; congruence|].
      right. apply Hin. now right.
  - destruct ig; inversion H; subst. split; auto.
    intros h Hh. rewrite Hrt. auto.
Qed.

Lemma head_in_tree_mark_valid : forall h db db' r,
  fork_inv db -> head_in_tree db ->
  mark_valid_impl h db = (db', r) -> completed r -> head_in_tree db'.
Proof.
  intros h db db' r [_ [_ [I3 _]]] [K J] H Hc. unfold mark_valid_impl in H.
  destruct (is_valid h); [inversion H; subst; split; auto|].
  destruct (index_find (id h) (index db)) as [e|] eqn:Ef;
    [|inversion H; subst; split; auto].
  pose proof (index_modify_valid_nodup true (id h) (index db) K) as K'.
  destruct (index_modify_valid_spec true (id h) (index db))
    as [_ [Hkeep [Hnew _]]].
  specialize (Hnew e Ef).
  destruct (index_modify_valid true (id h) (index db)) as [|c l] eqn:Em;
    [contradiction|].
  destruct (head db) as [hd|] eqn:Hhd;
    [|simpl in H; inversion H; subst; destruct Hc as [Hc|[e' Hc]];
      discriminate].
  rewrite (head_after_modify_valid e hd (proj1 (I3 hd Hhd))) in H.
  destruct (first_preferred c hd); inversion H; subst; clear H;
    split; simpl; auto.
  - intros h' Hh'. inversion Hh'; subst. right. now left.
  - intros h' Hh'. inversion Hh'; subst h'.
    destruct (J hd eq_refl) as [Hr|Hi]; auto. right.
    destruct (N.eq_dec (id hd) (id h)) as [E|E].
    + destruct (index_find_some _ _ _ Ef) as [He Heid].
      assert (e = hd) by (apply (in_unique_id (index db)); auto; congruence).
      subst e. destruct (I3 hd Hhd) as [Hv _].
      rewrite <- Hv, set_valid_same in Hnew. exact Hnew.
    + now apply Hkeep.
Qed.

Lemma head_in_tree_rollback : forall db,
  head_in_tree db -> head_in_tree (rollback_head_to_root_impl db).
Proof.
  intros db [K J]. unfold rollback_head_to_root_impl. split; simpl; auto.
  generalize (map id (index db)) as ids. revert K.
  generalize (index db) as idx.
  intros idx K ids. revert idx K.
  induction ids as [|i ids IH]; intros idx K; simpl; auto.
  apply IH. now apply index_modify_valid_nodup.
Qed.

Lemma head_in_tree_remove : forall fuel i db db' r,
  head_in_tree db -> remove_impl fuel i db = (db', r) -> head_in_tree db'.
Proof.
  intros fuel i db db' r [K J] H.
  destruct (remove_impl_filter _ _ _ _ _ H) as [Hr [Hh [k Hk]]].
  split.
  - rewrite Hk. now apply filter_nodup_id.
  - rewrite Hr, Hh. intros h Hhd. destruct (J h Hhd) as [?|Hi]; auto. right.
    destruct r as [[]|e| |];
      try (destruct (remove_impl_shape _ _ _ _ _ H) as [Hn _];
           rewrite Hn by discriminate; exact Hi).
    destruct (remove_impl_ret_index _ _ _ _ H) as [_ [_ [[h' [Hh' [Hne Hnd]]] Hin]]].
    rewrite Hhd in Hh'. inversion Hh'; subst h'. apply Hin. auto.
Qed.

Lemma branch_in_index_functional : forall idx h l,
  branch_in_index idx h l -> forall l', branch_in_index idx h l' -> l = l'.
Proof.
  induction 1 as [h Hf|h n l Hf Hb IH]; intros l' H';
    inversion H' as [h' Hf'|h' n' l'' Hf' Hb']; subst; try congruence.
  rewrite Hf in Hf'. inversion Hf'; subst. f_equal. now apply IH.
Qed.

Lemma branch_in_index_suffix : forall idx h l,
  branch_in_index idx h l ->
  forall b, In b l ->
  exists l1 l2, l = l1 ++ b :: l2 /\ branch_in_index idx (previous b) l2.
Proof.
  induction 1 as [h Hf|h n l Hf Hb IH]; intros b Hin; [contradiction|].
  destruct Hin as [->|Hin].
  - exists [], l. auto.
  - destruct (IH b Hin) as [l1 [l2 [E Hb2]]].
    exists (n :: l1), l2. split; auto. simpl. now f_equal.
Qed.

(** The walk that fills [blocks_to_remove] never comes back to the block it
    started from: it would not end. *)
Lemma branch_no_return : forall idx b l,
  index_find (id b) idx = Some b ->
  branch_in_index idx (previous b) l ->
  ~ In (id b) (map previous (b :: l)).
Proof.
  intros idx b l Hf Hb Hin. apply in_map_iff in Hin.
  destruct Hin as [c [Hp Hc]].
  assert (Hloop : exists l1 l2, l = l1 ++ l2
                    /\ branch_in_index idx (previous c) l2
                    /\ (length l2 <= length l)%nat).
  { destruct Hc as [<-|Hc].
    - exists [], l. auto.
    - destruct (branch_in_index_suffix _ _ _ Hb c Hc) as [l1 [l2 [E Hb2]]].
      exists (l1 ++ [c]), l2. split; [now rewrite <- app_assoc|].
      split; auto. rewrite E, length_app. simpl. lia. }
  destruct Hloop as [l1 [l2 [E [Hb2 Hlen]]]].
  rewrite Hp in Hb2.
  inversion Hb2 as [h Hnone E1|h n l3 Hsome Hb3 E1 E2]; [congruence|].
  rewrite Hf in Hsome. inversion Hsome; subst n.
  pose proof (branch_in_index_functional _ _ _ Hb _ Hb3) as El.
  assert (Hl : length l = length l3) by congruence.
  rewrite <- E2 in Hlen. simpl in Hlen. lia.
Qed.

Lemma remove_each_ret_head : forall fuel ids db db' h,
  head db = Some h -> remove_each fuel ids db = (db', Ret tt) ->
  forall x, In x ids -> id h <> x.
Proof.
  intros fuel. induction ids as [|i ids IH]; intros db db' h Hh H x Hx;
    [contradiction|]. simpl in H.
  destruct (remove_impl fuel i db) as [db1 r1] eqn:E.
  destruct r1 as [[]|e| |]; try discriminate.
  destruct (remove_impl_ret_index _ _ _ _ E) as [_ [Hh1 [[h' [Hh' [Hne _]]] _]]].
  rewrite Hh in Hh'. inversion Hh'; subst h'.
  destruct Hx as [<-|Hx]; auto.
  apply (IH db1 db' h); auto. congruence.
Qed.

Lemma remove_each_keeps_head : forall fuel ids db db' r h,
  head db = Some h -> In h (index db) ->
  remove_each fuel ids db = (db', r) -> In h (index db').
Proof.
  intros fuel. induction ids as [|i ids IH]; intros db db' r h Hh Hin H;
    simpl in H.
  - now inversion H; subst.
  - destruct (remove_impl fuel i db) as [db1 r1] eqn:E.
    destruct (remove_impl_shape _ _ _ _ _ E) as [Hn _].
    destruct r1 as [[]|e| |];
      try (inversion H; subst; rewrite Hn by discriminate; exact Hin).
    destruct (remove_impl_ret_index _ _ _ _ E)
      as [_ [Hh1 [[h' [Hh' [Hne Hnd]]] Hiff]]].
    rewrite Hh in Hh'. inversion Hh'; subst h'.
    apply (IH db1 db' r h); auto; [congruence|]. apply Hiff. auto.
Qed.

Lemma remove_scan_free : forall fuel hid idx done q,
  (forall n, In n idx -> id n <> hid) -> (forall x, In x q -> x <> hid) ->
  forall e, remove_scan fuel hid idx done q <> Throw e.
Proof.
  induction fuel as [|f IHf]; intros hid idx done q Hfree Hq e;
    destruct q as [|x q]; simpl; try discriminate.
  destruct (x =? hid) eqn:Ex.
  - apply N.eqb_eq in Ex. exfalso. apply (Hq x); auto. now left.
  - apply IHf; auto. intros y Hy. apply in_app_iff in Hy.
    destruct Hy as [Hy|Hy]; [apply Hq; now right|].
    apply in_map_iff in Hy. destruct Hy as [m [<- Hm]].
    apply filter_In in Hm. apply Hfree. tauto.
Qed.

Lemma remove_each_no_throw : forall fuel ids db db' e h,
  head db = Some h ->
  (forall n, In n (index db) -> id n <> id h) -> ~ In (id h) ids ->
  remove_each fuel ids db = (db', Throw e) -> False.
Proof.
  intros fuel. induction ids as [|i ids IH]; intros db db' e h Hh Hfree Hni H;
    simpl in H; [discriminate|].
  destruct (remove_impl fuel i db) as [db1 r1] eqn:E.
  destruct r1 as [[]|e1| |]; try discriminate.
  - destruct (remove_impl_ret_index _ _ _ _ E) as [_ [Hh1 [_ Hiff]]].
    apply (IH db1 db' e h); auto.
    + congruence.
    + intros n Hn. apply Hiff in Hn. apply Hfree. tauto.
    + intros Hx. apply Hni. now right.
  - unfold remove_impl in E. rewrite Hh in E.
    destruct (remove_scan fuel (id h) (index db) [] [i]) as [q|e2| |] eqn:Es;
      try discriminate.
    apply (remove_scan_free fuel (id h) (index db) [] [i] Hfree) in Es; auto.
    intros x [<-|[]] Hx. apply Hni. now left.
Qed.

Lemma head_in_tree_advance_root : forall fuel i db db' r,
  head_in_tree db -> advance_root_impl fuel i db = (db', r) -> completed r ->
  head_in_tree db'.
Proof.
  intros fuel i db db' r HJ H Hc. pose proof HJ as [K J].
  unfold advance_root_impl in H.
  destruct (root db) as [rt|] eqn:Hrt; [|inversion H; subst; exact HJ].
  unfold get_block_impl in H.
  destruct (index_find i (index db)) as [nr|] eqn:Ef;
    [|inversion H; subst; exact HJ].
  destruct (is_valid nr) eqn:Ev; simpl in H; [|inversion H; subst; exact HJ].
  destruct (collect_blocks_to_remove fuel db (id rt) nr []) as [ids|e| |] eqn:Ec;
    try (inversion H; subst; exact HJ).
  set (db1 := mk_db (index_erase i (index db)) (Some rt) (head db)) in *.
  destruct (remove_each fuel ids db1) as [db2 r2] eqn:Er.
  destruct (remove_each_filter _ _ _ _ _ Er) as [Hr [Hh [k Hk]]].
  simpl in Hr, Hh, Hk. unfold index_erase in Hk. rewrite filter_compose in Hk.
  assert (K2 : NoDup (map id (index db2))).
  { rewrite Hk. now apply filter_nodup_id. }
  destruct (index_find_some _ _ _ Ef) as [Hnr Hnrid].
  destruct (collect_blocks_to_remove_ret _ _ _ _ _ _ Ec) as [l [Hb [Hids Hlast]]].
  simpl in Hids.
  assert (Hroot : In (id rt) ids).
  { rewrite Hids, <- Hlast. apply (last_previous_in l nr). }
  assert (Hself : ~ In i ids).
  { rewrite Hids, <- Hnrid.
    apply (branch_no_return (index db) nr l); auto. now rewrite Hnrid. }
  assert (Hcases : forall h, head db = Some h ->
            (r2 = Ret tt -> Some nr = Some h \/ In h (index db2))
            /\ (forall e, r2 = Throw e -> Some rt = Some h \/ In h (index db2))).
  { intros h Hhd. destruct (J h Hhd) as [Hrh|Hin].
    - split; [|auto]. intros ->. exfalso.
      apply (remove_each_ret_head fuel ids db1 db2 h Hhd Er (id rt) Hroot).
      congruence.
    - destruct (N.eq_dec (id h) i) as [E|E].
      + assert (nr = h) by (apply (in_unique_id (index db)); auto; congruence).
        subst h. split; [auto|]. intros e ->. exfalso.
        apply (remove_each_no_throw fuel ids db1 db2 e nr Hhd) in Er; auto.
        * simpl. intros n Hn. apply index_erase_in in Hn. intuition congruence.
        * now rewrite Hnrid.
      + assert (Hin2 : In h (index db2)).
        { apply (remove_each_keeps_head fuel ids db1 db2 r2 h Hhd) in Er; auto.
          simpl. now apply index_erase_in. }
        split; auto. }
  destruct r2 as [[]|e| |]; inversion H; subst; clear H.
  - split; simpl; auto. intros h Hhd. rewrite Hh in Hhd.
    now apply (Hcases h Hhd).
  - split; auto. intros h Hhd. rewrite Hh in Hhd. rewrite Hr.
    now apply (proj2 (Hcases h Hhd) e).
  - destruct Hc as [Hc|[e Hc]]; discriminate.
  - destruct Hc as [Hc|[e Hc]]; discriminate.
Qed.

Lemma open_add_all_head_in_tree : forall vd blocks db db',
  head_in_tree db -> open_add_all vd blocks db = (db', Ret tt) ->
  head_in_tree db'.
Proof.
  intros vd. induction blocks as [|s rest IH]; intros db db' HJ H; simpl in H.
  - now inversion H; subst.
  - destruct (add_impl (Some s) false true vd db) as [db1 r1] eqn:E.
    destruct r1 as [[]|e| |]; try discriminate.
    apply (IH db1); auto.
    apply (head_in_tree_add _ _ _ _ _ _ _ HJ E). now left.
Qed.

Lemma head_in_tree_open : forall m vd file db db',
  head_in_tree db -> fst (open_impl m vd file db) = (db', Ret tt) ->
  head_in_tree db'.
Proof.
  intros m vd file db db' HJ H. destruct file as [f|]; simpl in H;
    [|now inversion H; subst].
  unfold open_file in H.
  destruct (negb (f_magic f =? m)); [discriminate|].
  destruct (negb _); [discriminate|].
  destruct (open_add_all vd (f_blocks f) (reset_impl (f_root f) db))
    as [db1 r1] eqn:E.
  destruct r1 as [[]|e| |]; try discriminate.
  assert (HJ1 : head_in_tree db1).
  { apply (open_add_all_head_in_tree vd (f_blocks f)
             (reset_impl (f_root f) db) db1); [|exact E].
    split; simpl; [constructor|]. intros h Hh. now left. }
  destruct HJ1 as [K1 _].
  destruct (f_head_id f) as [hid|]; [|discriminate].
  destruct (root db1) as [rt|] eqn:Hrt; [|discriminate].
  destruct (id rt =? hid).
  - destruct (open_check _) as [[]|e| |]; try discriminate.
    inversion H; subst. split; simpl; auto.
  - destruct (get_block_impl db1 hid) as [h|] eqn:Eg; [|discriminate].
    apply index_find_some in Eg.
    destruct (open_check _) as [[]|e| |]; try discriminate.
    inversion H; subst. split; simpl; auto.
    intros h' Hh'. inversion Hh'; subst. tauto.
Qed.

Lemma reachable_open_sound : forall db, reachable_open db -> reachable_sound db.
Proof.
  induction 1 as [|db o db' r Hreach IH Hop Hs Hcl].
  - constructor.
  - now apply (reachable_sound_op db o db' r).
Qed.

Lemma reachable_open_head_in_tree : forall db,
  reachable_open db -> head_in_tree db.
Proof.
  induction 1 as [|db o db' r Hreach IH Hop Hs Hcl].
  - split; simpl; [constructor|discriminate].
  - pose proof (reachable_sound_inv db (reachable_open_sound db Hreach)) as HI.
    destruct o; simpl in Hop, Hs, Hcl; try discriminate.
    + inversion Hop; subst. split; simpl; [constructor|]. intros h Hh. now left.
    + now apply (head_in_tree_add _ _ _ _ _ _ _ IH Hop).
    + now apply (head_in_tree_mark_valid _ _ _ _ HI IH Hop).
    + inversion Hop; subst. now apply head_in_tree_rollback.
    + now apply (head_in_tree_advance_root _ _ _ _ _ IH Hop).
    + now apply (head_in_tree_remove _ _ _ _ _ IH Hop).
    + destruct file as [f|].
      * destruct Hs as [-> _].
        now apply (head_in_tree_open magic_number validator (Some f) db db').
      * simpl in Hop. now inversion Hop; subst.
Qed.

(** C1, as stated, fails twice.  An [open] that returns normally can install
    a head that is not validated: the file's head id names the pending block
    X9, and the check at the end of [open_impl] only compares preferences.
    And after [close] the index is empty while the head is still the block it
    was, not the root. *)
Lemma head_invalid_after_open_detached_after_close :
  (reachable db_opened
   /\ apply_op (OpOpen 7 (fun _ _ => true) (Some file_pending_head)) empty_db
      = (db_opened, Ret tt)
   /\ head db_opened = Some X9 /\ is_valid X9 = false)
  /\ (reachable db_closed
      /\ head db_closed = Some A1 /\ index db_closed = []
      /\ root db_closed <> Some A1).
Proof.
  split; [split; [|repeat split]|split; [|repeat split]].
  - apply (reachable_op empty_db
             (OpOpen 7 (fun _ _ => true) (Some file_pending_head))
             db_opened (Ret tt)); [constructor|reflexivity|now left].
  - apply (reachable_op
             (fst (apply_op (OpAdd (Some A1) false)
                     (fst (apply_op (OpReset R0) empty_db))))
             (OpClose 7) db_closed (Ret tt));
      [|reflexivity|now left].
    apply (reachable_op (fst (apply_op (OpReset R0) empty_db))
             (OpAdd (Some A1) false) _ (Ret tt));
      [|reflexivity|now left].
    apply (reachable_op empty_db (OpReset R0) _ (Ret tt));
      [constructor|reflexivity|now left].
  - vm_compute. discriminate.
Qed.

(** C1, amended. In every state reached by any sequence of reset, add,
    mark_valid, rollback_head_to_root, advance_root, remove and close calls
    (returning or throwing), and of open calls that return normally from a
    file whose head id does not name a block stored as not validated, the head
    is valid and no valid index entry is [first_preferred] over it; and as long
    as no close is among the calls, the head is the root whenever the index
    holds no valid entry. *)
Theorem head_is_maximal_valid_node :
  (forall db, reachable_sound db -> head_is_best db)
  /\ (forall db h, reachable_open db -> head db = Some h ->
        (forall n, In n (index db) -> is_valid n = false) ->
        root db = Some h).
Proof.
  split.
  - intros db H. now apply reachable_sound_inv in H as (_ & _ & ? & _).
  - intros db h H Hh Hnone.
    destruct (reachable_open_head_in_tree db H) as [_ J].
    destruct (J h Hh) as [?|Hin]; auto.
    apply reachable_open_sound, reachable_sound_inv in H.
    destruct H as (_ & _ & I3 & _). destruct (I3 h Hh) as [Hv _].
    rewrite (Hnone h Hin) in Hv. discriminate.
Qed.

Lemma db_pending_reachable_open : reachable_open db_pending.
Proof.
  apply (reachable_open_op (run [add (Some A1) false] (reset_impl R0 empty_db))
           (OpAdd (Some B2) false) db_pending (Ret tt));
    [|reflexivity|now left|reflexivity].
  apply (reachable_open_op (reset_impl R0 empty_db)
           (OpAdd (Some A1) false) _ (Ret tt));
    [|reflexivity|now left|reflexivity].
  apply (reachable_open_op empty_db (OpReset R0) _ (Ret tt));
    [constructor|reflexivity|now left|reflexivity].
Qed.

Lemma head_is_maximal_valid_node_witness :
  reachable_sound db_pending /\ head_is_best db_pending
  /\ reachable_open (rollback_head_to_root_impl db_pending)
  /\ root (rollback_head_to_root_impl db_pending) = Some root0.
Proof.
  pose proof db_pending_reachable_open as Hro.
  pose proof (reachable_open_sound _ Hro) as Hrs.
  assert (Hrb : reachable_open (rollback_head_to_root_impl db_pending)).
  { apply (reachable_open_op db_pending OpRollbackHeadToRoot _ (Ret tt));
      [exact Hro|reflexivity|now left|reflexivity]. }
  destruct head_is_maximal_valid_node as [H1 H2].
  split; [exact Hrs|]. split; [exact (H1 db_pending Hrs)|].
  split; [exact Hrb|].
  apply (H2 (rollback_head_to_root_impl db_pending) root0 Hrb eq_refl).
  intros n Hn. vm_compute in Hn. destruct Hn as [<-|[<-|[]]]; reflexivity.
Defined.

(** ** fetch_branch_from (C8) *)

Lemma resolve_cases : forall db r x p,
  root db = Some r -> resolve db x = Some p ->
  (p = r /\ x = id r) \/ (In p (index db) /\ id p = x /\ x <> id r).
Proof.
  intros db r x p Hr H. unfold resolve in H. rewrite Hr in H.
  unfold root_or_block in H. destruct (x =? id r) eqn:E.
  - left. inversion H; subst. apply N.eqb_eq in E. auto.
  - right. apply N.eqb_neq in E. unfold get_block_impl in H.
    apply index_find_some in H. tauto.
Qed.

Lemma tree_root_not_in_index : forall db r,
  root db = Some r -> ids_unique db ->
  forall n, In n (index db) -> id n <> id r.
Proof.
  intros db r Hr Hu n Hn E. unfold ids_unique in Hu. rewrite Hr in Hu.
  inversion Hu as [|? ? Hni _]; subst. apply Hni. rewrite <- E.
  now apply in_map.
Qed.

Lemma lineage_functional : forall db, ids_unique db ->
  forall n l, lineage db n l -> forall l', lineage db n l' -> l = l'.
Proof.
  intros db Hu n l H.
  induction H as [r Hr|n p l Hn Hp Hl IH]; intros l' H';
    inversion H' as [r' Hr'|n' p' l'' Hn' Hp' Hl']; subst; auto.
  - exfalso. now apply (tree_root_not_in_index db r Hr Hu r).
  - exfalso. now apply (tree_root_not_in_index db n Hr' Hu n).
  - f_equal. apply IH. congruence.
Qed.

Lemma lineage_head : forall db n l, lineage db n l -> exists l', l = n :: l'.
Proof. intros db n l H. destruct H; eauto. Qed.

Lemma lineage_resolves : forall db r, root db = Some r ->
  forall n l, lineage db n l -> n = r \/ In n (index db).
Proof.
  intros db r Hr n l H. destruct H as [r' Hr'|]; auto.
  left. congruence.
Qed.

Lemma same_id_same_node : forall db r, root db = Some r -> ids_unique db ->
  forall x y, (x = r \/ In x (index db)) -> (y = r \/ In y (index db)) ->
              id x = id y -> x = y.
Proof.
  intros db r Hr Hu x y [->|Hx] [->|Hy] E; auto.
  - exfalso. now apply (tree_root_not_in_index db r Hr Hu y).
  - exfalso. now apply (tree_root_not_in_index db r Hr Hu x).
  - apply (in_unique_id (index db)); auto. now apply ids_unique_index.
Qed.

Section Lineages.

(** A tree with its root, fixed for the lemmas on the three loops of
    [fetch_branch_from_impl]. *)
Variable db : fork_database_impl.
Variable r : bs.
Hypothesis Hroot : root db = Some r.
Hypothesis Htree : tree db.

Lemma lineage_height : forall n l, lineage db n l ->
    block_num n + 1 = block_num r + N.of_nat (length l).
Proof.
  pose proof Hroot as Hr. pose proof Htree as [Hu Ht]. intros n l H.
  induction H as [r' Hr'|n p l Hn Hp Hl IH].
  - rewrite Hr in Hr'. inversion Hr'; subst. simpl. lia.
  - destruct (Ht n Hn) as [p' [Hp' Hnum]]. rewrite Hp in Hp'.
    inversion Hp'; subst p'. simpl length. lia.
Qed.

Lemma lineage_exists :
  forall n, In n (index db) -> exists l, lineage db n l.
Proof.
  pose proof Hroot as Hr. pose proof Htree as [Hu Ht].
  assert (H : forall k n, In n (index db) ->
            (N.to_nat (block_num n) < k)%nat -> exists l, lineage db n l).
  { induction k as [|k IH]; intros n Hn Hk; [lia|].
    destruct (Ht n Hn) as [p [Hp Hnum]].
    destruct (resolve_cases db r _ p Hr Hp) as [[-> _]|[Hpin _]].
    - exists [n; r]. apply (lineage_step db n r); auto. now constructor.
    - destruct (IH p Hpin) as [l Hl]; [lia|].
      exists (n :: l). now apply (lineage_step db n p). }
  intros n Hn. apply (H (S (N.to_nat (block_num n)))); auto.
Qed.

(** The first two loops: the higher tip comes down to the height of the
    lower one, and the nodes passed are a prefix of its lineage. *)
Lemma descend_to_height_spec : forall hi l, lineage db hi l ->
  forall lo, block_num r <= block_num lo ->
  exists pre post hi',
    l = pre ++ post /\ lineage db hi' post
    /\ (forall acc fuel, (length l <= fuel)%nat ->
          descend_to_height fuel db r hi lo acc = Ret (hi', acc ++ pre))
    /\ (block_num lo < block_num hi -> block_num hi' = block_num lo)
    /\ (block_num hi <= block_num lo -> pre = [] /\ hi' = hi).
Proof.
  pose proof Hroot as Hr. pose proof Htree as Ht. intros hi l H.
  induction H as [r' Hr'|n p l Hn Hp Hl IH]; intros lo Hlo.
  - rewrite Hr in Hr'. inversion Hr'; subst r'.
    exists [], [r], r. split; [reflexivity|]. split; [now constructor|].
    assert (E : (block_num lo <? block_num r) = false) by (apply N.ltb_ge; lia).
    split; [|split; [lia|auto]].
    intros acc fuel _. destruct fuel; simpl; rewrite E, app_nil_r; reflexivity.
  - destruct Ht as [Hu Hex]. destruct (Hex n Hn) as [p' [Hp' Hnum]].
    rewrite Hp in Hp'. inversion Hp'; subst p'.
    destruct (N.ltb_spec (block_num lo) (block_num n)) as [Hlt|Hge].
    + destruct (IH lo Hlo) as [pre [post [hi' [El [Hl' [Hrun [Hdown Hstay]]]]]]].
      exists (n :: pre), post, hi'. split; [simpl; now f_equal|].
      split; auto. split.
      * intros acc fuel Hf. destruct fuel as [|fuel]; [simpl in Hf; lia|].
        simpl. apply N.ltb_lt in Hlt. rewrite Hlt.
        unfold resolve in Hp. rewrite Hr in Hp. rewrite Hp.
        rewrite Hrun by (simpl in Hf; lia). now rewrite <- app_assoc.
      * split; [|lia]. intros _.
        destruct (N.ltb_spec (block_num lo) (block_num p)) as [Hlt'|Hge'];
          [auto|].
        destruct (Hstay Hge') as [_ ->]. lia.
    + exists [], (n :: l), n. split; [reflexivity|].
      split; [now apply (lineage_step db n p)|].
      assert (E : (block_num lo <? block_num n) = false) by (apply N.ltb_ge; lia).
      split; [|split; [lia|auto]].
      intros acc fuel _. destruct fuel; simpl; rewrite E, app_nil_r; reflexivity.
Qed.

(** The third loop: two different nodes of the same height step down together
    until they are siblings. *)
Lemma descend_together_spec : forall x lx, lineage db x lx ->
  forall y ly, lineage db y ly ->
    block_num x = block_num y -> id x <> id y ->
  exists px py a b common,
    lx = px ++ a :: common /\ ly = py ++ b :: common
    /\ a <> b /\ common <> []
    /\ forall res fuel, (length lx <= fuel)%nat ->
         descend_together fuel db x y res
         = Ret (a, b, (fst res ++ px, snd res ++ py)).
Proof.
  pose proof Hroot as Hr. pose proof Htree as Ht. intros x lx Hx.
  induction Hx as [r' Hr'|x p lx Hxin Hp Hlx IH];
    intros y ly Hy Hnum Hid.
  - exfalso. rewrite Hr in Hr'. inversion Hr'; subst r'.
    destruct Hy as [r' Hr''|y q ly Hyin Hq Hly]; [congruence|].
    pose proof (lineage_height y (y :: ly)
                  (lineage_step db y q ly Hyin Hq Hly)) as Hh.
    destruct (lineage_head _ _ _ Hly) as [l' ->]. simpl length in Hh. lia.
  - destruct Hy as [r' Hr'|y q ly Hyin Hq Hly].
    + exfalso. rewrite Hr in Hr'. inversion Hr'; subst r'.
      pose proof (lineage_height x (x :: lx)
                    (lineage_step db x p lx Hxin Hp Hlx)) as Hh.
      destruct (lineage_head _ _ _ Hlx) as [l' ->]. simpl length in Hh. lia.
    + pose proof Ht as [Hu Hex].
      destruct (N.eqb_spec (previous x) (previous y)) as [E|E].
      * assert (q = p) by congruence. subst q.
        assert (ly = lx) by (apply (lineage_functional db Hu p); auto).
        subst ly.
        exists [], [], x, y, lx. repeat split.
        -- intros ->. now apply Hid.
        -- destruct (lineage_head _ _ _ Hlx) as [l' ->]. discriminate.
        -- intros res fuel _. destruct fuel; simpl;
             (destruct (N.eqb_spec (previous x) (previous y)); [|contradiction]);
             simpl; rewrite !app_nil_r; now destruct res.
      * destruct (Hex x Hxin) as [p' [Hp' Hxn]]. rewrite Hp in Hp'.
        inversion Hp'; subst p'.
        destruct (Hex y Hyin) as [q' [Hq' Hyn]]. rewrite Hq in Hq'.
        inversion Hq'; subst q'.
        assert (Hpq : block_num p = block_num q) by lia.
        assert (Hnr : forall m lm, lineage db m lm -> In m (index db) ->
                        block_num r < block_num m).
        { intros m lm Hm Hmin.
          pose proof (lineage_height m lm Hm) as Hh.
          destruct Hm as [r' Hr'|m m' lm Hmin' Hm' Hlm].
          - exfalso. rewrite Hr in Hr'. inversion Hr'; subst r'.
            now apply (tree_root_not_in_index db r Hr Hu r).
          - destruct (lineage_head _ _ _ Hlm) as [l' ->].
            simpl length in Hh. lia. }
        destruct (resolve_cases db r _ p Hr Hp) as [[-> Ex]|[Hpin [Hpid Hpne]]];
          destruct (resolve_cases db r _ q Hr Hq) as [[-> Ey]|[Hqin [Hqid Hqne]]].
        -- congruence.
        -- specialize (Hnr q ly Hly Hqin). lia.
        -- specialize (Hnr p lx Hlx Hpin). lia.
        -- destruct (IH q ly Hly Hpq)
             as [px [py [a [b [common [Ex [Ey [Hab [Hc Hrun]]]]]]]]];
             [congruence|].
           exists (x :: px), (y :: py), a, b, common.
           split; [simpl; now f_equal|]. split; [simpl; now f_equal|].
           split; auto. split; auto.
           intros res fuel Hf. destruct fuel as [|fuel]; [simpl in Hf; lia|].
           simpl. destruct (N.eqb_spec (previous x) (previous y));
             [contradiction|]. simpl.
           unfold resolve in Hp, Hq. rewrite Hr in Hp, Hq.
           unfold root_or_block in Hp, Hq.
           destruct (N.eqb_spec (previous x) (id r)); [contradiction|].
           destruct (N.eqb_spec (previous y) (id r)); [contradiction|].
           rewrite Hp, Hq, Hrun by (simpl in Hf; lia).
           simpl. now rewrite <- !app_assoc.
Qed.

Lemma lineage_of_resolved : forall x n,
  resolve db x = Some n ->
  exists l, lineage db n l.
Proof.
  pose proof Hroot as Hr. intros x n H.
  destruct (resolve_cases db r x n Hr H) as [[-> _]|[Hin _]].
  - exists [r]. now constructor.
  - now apply lineage_exists.
Qed.

Lemma fetch_branch_from_impl_spec : forall a b na nb,
  resolve db a = Some na -> resolve db b = Some nb ->
  exists la lb first second common,
    lineage db na la /\ lineage db nb lb
    /\ la = first ++ common /\ lb = second ++ common
    /\ common <> [] /\ cut_at_lowest_common first second
    /\ forall fuel, (length la <= fuel)%nat -> (length lb <= fuel)%nat ->
         fetch_branch_from_impl fuel db a b = Ret (first, second).
Proof.
  pose proof Hroot as Hr. pose proof Htree as Ht. intros a b na nb Ha Hb.
  destruct (lineage_of_resolved a na Ha) as [la Hla].
  destruct (lineage_of_resolved b nb Hb) as [lb Hlb].
  pose proof (lineage_height na la Hla) as Hha.
  pose proof (lineage_height nb lb Hlb) as Hhb.
  assert (Hla1 : (1 <= length la)%nat).
  { destruct (lineage_head _ _ _ Hla) as [? ->]. simpl. lia. }
  assert (Hlb1 : (1 <= length lb)%nat).
  { destruct (lineage_head _ _ _ Hlb) as [? ->]. simpl. lia. }
  destruct (descend_to_height_spec na la Hla nb)
    as [pre1 [post1 [x [E1 [Hx [Hrun1 [Hd1 Hs1]]]]]]]; [lia|].
  pose proof (lineage_height x post1 Hx) as Hhx.
  assert (Hp1 : (1 <= length post1)%nat).
  { destruct (lineage_head _ _ _ Hx) as [? ->]. simpl. lia. }
  destruct (descend_to_height_spec nb lb Hlb x)
    as [pre2 [post2 [y [E2 [Hy [Hrun2 [Hd2 Hs2]]]]]]]; [lia|].
  assert (Hxy : block_num x = block_num y /\ (pre1 = [] \/ pre2 = [])).
  { destruct (N.lt_ge_cases (block_num nb) (block_num na)) as [Hlt|Hge].
    - rewrite (Hd1 Hlt) in *. destruct Hs2 as [-> ->]; [lia|]. auto.
    - destruct (Hs1 Hge) as [-> ->].
      destruct (N.lt_ge_cases (block_num na) (block_num nb)) as [Hlt|Hge'].
      + rewrite (Hd2 Hlt). auto.
      + destruct (Hs2 Hge') as [_ ->]. split; [lia|auto]. }
  destruct Hxy as [Hnum Hempty].
  assert (Hrun : forall fuel, (length la <= fuel)%nat -> (length lb <= fuel)%nat ->
            fetch_branch_from_impl fuel db a b
            = if id x =? id y then Ret (pre1, pre2)
              else bind (descend_together fuel db x y (pre1, pre2))
                        (fun p3 => let '(a, b, (res1, res2)) := p3 in
                                   Ret (res1 ++ [a], res2 ++ [b]))).
  { intros fuel Hfa Hfb. unfold fetch_branch_from_impl. rewrite Hr. simpl.
    unfold resolve in Ha, Hb. rewrite Hr in Ha, Hb. rewrite Ha, Hb.
    rewrite (Hrun1 [] fuel Hfa). simpl.
    rewrite (Hrun2 [] fuel Hfb). simpl. reflexivity. }
  pose proof Ht as [Hu _].
  destruct (N.eqb_spec (id x) (id y)) as [Eid|Nid].
  - assert (x = y).
    { apply (same_id_same_node db r Hr Hu); auto;
        eapply lineage_resolves; eauto. }
    subst y.
    assert (post2 = post1) by (apply (lineage_functional db Hu x); auto).
    subst post2.
    exists la, lb, pre1, pre2, post1.
    split; auto. split; auto. split; auto. split; auto. split; [|split]; auto.
    + intros ->. simpl in Hp1. lia.
    + intros f' s' z Ef Es.
      destruct Hempty as [->| ->]; [destruct f'|destruct s']; discriminate.
  - destruct (descend_together_spec x post1 Hx y post2 Hy Hnum Nid)
      as [px [py [u [v [common [Ex [Ey [Huv [Hc Hrun3]]]]]]]]].
    exists la, lb, (pre1 ++ px ++ [u]), (pre2 ++ py ++ [v]), common.
    split; auto. split; auto.
    split; [rewrite E1, Ex, <- !app_assoc; reflexivity|].
    split; [rewrite E2, Ey, <- !app_assoc; reflexivity|].
    split; auto. split.
    + intros f' s' z Ef Es.
      rewrite !app_assoc in Ef, Es.
      apply app_inj_tail in Ef. apply app_inj_tail in Es.
      destruct Ef as [_ Ef]. destruct Es as [_ Es]. congruence.
    + intros fuel Hfa Hfb. rewrite (Hrun fuel Hfa Hfb).
      rewrite Hrun3.
      * simpl. now rewrite <- !app_assoc.
      * rewrite E1, length_app in Hfa. lia.
Qed.

End Lineages.

Lemma descend_to_height_throws : forall fuel db r hi lo acc e,
  descend_to_height fuel db r hi lo acc = Throw e -> e = NotFound.
Proof.
  induction fuel as [|fuel IH]; intros db r hi lo acc e H; simpl in H;
    destruct (block_num lo <? block_num hi); try discriminate.
  destruct (root_or_block db r (previous hi)); [eauto|congruence].
Qed.

Lemma descend_together_throws : forall fuel db x y res e,
  descend_together fuel db x y res = Throw e -> e = NotFound.
Proof.
  induction fuel as [|fuel IH]; intros db x y res e H; simpl in H;
    destruct (negb (previous x =? previous y)); try discriminate.
  destruct (get_block_impl db (previous x)); [|congruence].
  destruct (get_block_impl db (previous y)); [eauto|congruence].
Qed.

Lemma fetch_branch_from_impl_throws : forall fuel db a b e,
  fetch_branch_from_impl fuel db a b = Throw e -> e = NotFound.
Proof.
  intros fuel db a b e H. unfold fetch_branch_from_impl in H.
  destruct (root db) as [r|]; simpl in H; [|discriminate].
  destruct (root_or_block db r a) as [na|]; [|congruence].
  destruct (root_or_block db r b) as [nb|]; [|congruence].
  destruct (descend_to_height fuel db r na nb []) as [[x r1]|e1| |] eqn:E1;
    simpl in H; try discriminate;
    [|inversion H; subst; now apply descend_to_height_throws in E1].
  destruct (descend_to_height fuel db r nb x []) as [[y r2]|e2| |] eqn:E2;
    simpl in H; try discriminate;
    [|inversion H; subst; now apply descend_to_height_throws in E2].
  destruct (id x =? id y); [discriminate|].
  destruct (descend_together fuel db x y (r1, r2)) as [[[u v] [s1 s2]]|e3| |] eqn:E3;
    simpl in H; try discriminate.
  inversion H; subst. now apply descend_together_throws in E3.
Qed.

(** *** The loops against the step-by-step branch pair *)

Lemma node_with_resolves : forall db r x n,
  NoDup (map id (index db)) -> node_with db r x n ->
  root_or_block db r x = Some n.
Proof.
  intros db r x n Hnd [[-> ->]|[Hx [Hn Hid]]]; unfold root_or_block.
  - now rewrite N.eqb_refl.
  - destruct (N.eqb_spec x (id r)); [contradiction|].
    unfold get_block_impl. rewrite <- Hid. now apply index_find_in_unique.
Qed.

Lemma no_entry_get : forall db x,
  no_entry db x -> get_block_impl db x = None.
Proof.
  intros db x H. unfold get_block_impl.
  destruct (index_find x (index db)) as [n|] eqn:E; [|reflexivity].
  apply index_find_some in E. destruct E as [Hn Hid].
  now destruct (H n Hn).
Qed.

Lemma no_node_resolves : forall db r x,
  no_node db r x -> root_or_block db r x = None.
Proof.
  intros db r x [Hx Hnone]. unfold root_or_block.
  destruct (N.eqb_spec x (id r)); [contradiction|].
  now apply no_entry_get.
Qed.

Lemma climb_run : forall db r floor n o,
  NoDup (map id (index db)) -> climb db r floor n o ->
  forall lo, block_num lo = floor ->
  exists f0, forall fuel acc, (f0 <= fuel)%nat ->
    descend_to_height fuel db r n lo acc
    = match o with
      | Some (l, m) => Ret (m, acc ++ l)
      | None => Throw NotFound
      end.
Proof.
  intros db r floor n o Hnd H lo Hlo. subst floor.
  induction H as [n Hle|n Hlt Hno|n p l m Hlt Hp _ [f0 IH]
                 |n p Hlt Hp _ [f0 IH]].
  - exists 0%nat. intros fuel acc _.
    assert (E : (block_num lo <? block_num n) = false)
      by (apply N.ltb_ge; lia).
    destruct fuel; simpl; rewrite E; now rewrite app_nil_r.
  - exists 1%nat. intros fuel acc Hf. destruct fuel as [|fuel]; [lia|].
    assert (E : (block_num lo <? block_num n) = true)
      by (apply N.ltb_lt; lia).
    simpl. rewrite E. now rewrite (no_node_resolves db r _ Hno).
  - exists (S f0). intros fuel acc Hf. destruct fuel as [|fuel]; [lia|].
    assert (E : (block_num lo <? block_num n) = true)
      by (apply N.ltb_lt; lia).
    simpl. rewrite E. rewrite (node_with_resolves db r _ p Hnd Hp).
    rewrite IH by lia. now rewrite <- app_assoc.
  - exists (S f0). intros fuel acc Hf. destruct fuel as [|fuel]; [lia|].
    assert (E : (block_num lo <? block_num n) = true)
      by (apply N.ltb_lt; lia).
    simpl. rewrite E. rewrite (node_with_resolves db r _ p Hnd Hp).
    now rewrite IH by lia.
Qed.

Lemma climb_both_run : forall db x y o,
  NoDup (map id (index db)) -> climb_both db x y o ->
  exists f0, forall fuel res, (f0 <= fuel)%nat ->
    p3 <- descend_together fuel db x y res ;;
    (let '(a, b, (res1, res2)) := p3 in Ret (res1 ++ [a], res2 ++ [b]))
    = match o with
      | Some (t1, t2) => Ret (fst res ++ t1, snd res ++ t2)
      | None => Throw NotFound
      end.
Proof.
  intros db x y o Hnd H.
  induction H as [x y Heq|x y Hne Hno
                 |x y x' y' l1 l2 Hne Hx' Hxid Hy' Hyid _ [f0 IH]
                 |x y x' y' Hne Hx' Hxid Hy' Hyid _ [f0 IH]].
  - exists 0%nat. intros fuel [res1 res2] _.
    assert (E : (previous x =? previous y) = true) by now apply N.eqb_eq.
    destruct fuel; simpl; rewrite E; reflexivity.
  - exists 1%nat. intros fuel res Hf. destruct fuel as [|fuel]; [lia|].
    assert (E : (previous x =? previous y) = false) by now apply N.eqb_neq.
    simpl. rewrite E. simpl.
    destruct Hno as [Hno|Hno]; rewrite (no_entry_get db _ Hno).
    + reflexivity.
    + now destruct (get_block_impl db (previous x)).
  - exists (S f0). intros fuel res Hf. destruct fuel as [|fuel]; [lia|].
    assert (E : (previous x =? previous y) = false) by now apply N.eqb_neq.
    simpl. rewrite E. simpl. unfold get_block_impl.
    rewrite <- Hxid, <- Hyid.
    rewrite (index_find_in_unique _ _ Hnd Hx'),
            (index_find_in_unique _ _ Hnd Hy').
    rewrite IH by lia. simpl. now rewrite <- !app_assoc.
  - exists (S f0). intros fuel res Hf. destruct fuel as [|fuel]; [lia|].
    assert (E : (previous x =? previous y) = false) by now apply N.eqb_neq.
    simpl. rewrite E. simpl. unfold get_block_impl.
    rewrite <- Hxid, <- Hyid.
    rewrite (index_find_in_unique _ _ Hnd Hx'),
            (index_find_in_unique _ _ Hnd Hy').
    now rewrite IH by lia.
Qed.

Lemma branch_pair_run : forall db r a b out,
  root db = Some r -> NoDup (map id (index db)) ->
  branch_pair db r a b out ->
  exists f0, forall fuel, (f0 <= fuel)%nat ->
    fetch_branch_from_impl fuel db a b
    = match out with
      | Some p => Ret p
      | None => Throw NotFound
      end.
Proof.
  intros db r a b out Hr Hnd H. unfold fetch_branch_from_impl. rewrite Hr.
  simpl.
  destruct H as [Hno|na nb Ha Hb H1|na nb l1 m1 Ha Hb H1 H2
                |na nb l1 m1 l2 m2 Ha Hb H1 H2 Hid
                |na nb l1 m1 l2 m2 t1 t2 Ha Hb H1 H2 Hid H3
                |na nb l1 m1 l2 m2 Ha Hb H1 H2 Hid H3].
  - exists 0%nat. intros fuel _. destruct Hno as [Hno|Hno].
    + now rewrite (no_node_resolves db r a Hno).
    + rewrite (no_node_resolves db r b Hno).
      now destruct (root_or_block db r a).
  - rewrite (node_with_resolves db r a na Hnd Ha),
            (node_with_resolves db r b nb Hnd Hb).
    destruct (climb_run db r _ na _ Hnd H1 nb eq_refl) as [f1 R1].
    exists f1. intros fuel Hf. now rewrite R1.
  - rewrite (node_with_resolves db r a na Hnd Ha),
            (node_with_resolves db r b nb Hnd Hb).
    destruct (climb_run db r _ na _ Hnd H1 nb eq_refl) as [f1 R1].
    destruct (climb_run db r _ nb _ Hnd H2 m1 eq_refl) as [f2 R2].
    exists (Nat.max f1 f2). intros fuel Hf.
    rewrite R1 by lia. simpl. now rewrite R2 by lia.
  - rewrite (node_with_resolves db r a na Hnd Ha),
            (node_with_resolves db r b nb Hnd Hb).
    destruct (climb_run db r _ na _ Hnd H1 nb eq_refl) as [f1 R1].
    destruct (climb_run db r _ nb _ Hnd H2 m1 eq_refl) as [f2 R2].
    exists (Nat.max f1 f2). intros fuel Hf.
    rewrite R1 by lia. simpl. rewrite R2 by lia. simpl.
    apply N.eqb_eq in Hid. now rewrite Hid.
  - rewrite (node_with_resolves db r a na Hnd Ha),
            (node_with_resolves db r b nb Hnd Hb).
    destruct (climb_run db r _ na _ Hnd H1 nb eq_refl) as [f1 R1].
    destruct (climb_run db r _ nb _ Hnd H2 m1 eq_refl) as [f2 R2].
    destruct (climb_both_run db m1 m2 _ Hnd H3) as [f3 R3].
    exists (Nat.max f1 (Nat.max f2 f3)). intros fuel Hf.
    rewrite R1 by lia. simpl. rewrite R2 by lia. simpl.
    apply N.eqb_neq in Hid. rewrite Hid.
    now rewrite R3 by lia.
  - rewrite (node_with_resolves db r a na Hnd Ha),
            (node_with_resolves db r b nb Hnd Hb).
    destruct (climb_run db r _ na _ Hnd H1 nb eq_refl) as [f1 R1].
    destruct (climb_run db r _ nb _ Hnd H2 m1 eq_refl) as [f2 R2].
    destruct (climb_both_run db m1 m2 _ Hnd H3) as [f3 R3].
    exists (Nat.max f1 (Nat.max f2 f3)). intros fuel Hf.
    rewrite R1 by lia. simpl. rewrite R2 by lia. simpl.
    apply N.eqb_neq in Hid. rewrite Hid.
    now rewrite R3 by lia.
Qed.

(** C8. In a tree (unique ids, every entry one block number above its
    resolvable parent), for ids [a] and [b] that resolve in {root} and index,
    [fetch_branch_from] returns, given fuel, the prefixes of the two lineages
    that precede their longest common suffix: both tip first, and neither
    contains the lowest common ancestor, which heads the common suffix.  For
    [a = b] the pair is (empty, empty).  An input that does not resolve fails
    NotFound, and NotFound is the only error the function throws.  In any
    index with unique ids, tree or not, the function follows the step-by-step
    branch pair: it returns what the climbs pass, and it fails NotFound
    whenever an id to resolve, at the start or as the parent of a node a
    climb has to leave, belongs to no node. *)
Theorem fetch_branch_from_cuts_at_common_ancestor :
  forall db r, root db = Some r ->
    (tree db ->
       (forall a b na nb,
          resolve db a = Some na -> resolve db b = Some nb ->
          exists la lb first second common,
            lineage db na la /\ lineage db nb lb
            /\ la = first ++ common /\ lb = second ++ common
            /\ common <> [] /\ cut_at_lowest_common first second
            /\ forall fuel,
                 (length la <= fuel)%nat -> (length lb <= fuel)%nat ->
                 fetch_branch_from_impl fuel db a b = Ret (first, second))
       /\ (forall x n fuel, resolve db x = Some n ->
             fetch_branch_from_impl fuel db x x = Ret ([], []))
       /\ (forall a b fuel, resolve db a = None \/ resolve db b = None ->
             fetch_branch_from_impl fuel db a b = Throw NotFound)
       /\ (forall a b fuel e,
             fetch_branch_from_impl fuel db a b = Throw e -> e = NotFound))
    /\ (NoDup (map id (index db)) ->
        forall a b out, branch_pair db r a b out ->
          exists f0, forall fuel, (f0 <= fuel)%nat ->
            fetch_branch_from_impl fuel db a b
            = match out with
              | Some p => Ret p
              | None => Throw NotFound
              end).
Proof.
  intros db r Hr. split; [intros Ht; split; [|split; [|split]]|].
  - intros a b na nb. now apply (fetch_branch_from_impl_spec db r Hr Ht).
  - intros x n fuel Hx. unfold fetch_branch_from_impl, resolve in *.
    rewrite Hr in *. simpl. rewrite Hx.
    assert (E : (block_num n <? block_num n) = false) by (apply N.ltb_ge; lia).
    destruct fuel; simpl; rewrite E; simpl; rewrite E; simpl;
      now rewrite N.eqb_refl.
  - intros a b fuel H. unfold fetch_branch_from_impl, resolve in *.
    rewrite Hr in *. simpl.
    destruct (root_or_block db r a); destruct (root_or_block db r b);
      auto; destruct H; discriminate.
  - intros a b fuel e. apply fetch_branch_from_impl_throws.
  - intros Hnd a b out. now apply branch_pair_run.
Qed.

Example fetch_branch_from_fork :
  fetch_branch_from_impl 5 db_fork 6 7 = Ret ([B6; A2], [C7; A1])
  /\ fetch_branch_from_impl 5 db_fork 6 5 = Ret ([B6], [])
  /\ fetch_branch_from_impl 5 db_fork 7 1 = Ret ([C7; A1], [])
  /\ fetch_branch_from_impl 5 db_fork 6 42 = Throw NotFound.
Proof. repeat split; reflexivity. Qed.

Example fetch_branch_from_orphaned :
  fetch_branch_from_impl 3 db_orphaned 7 5 = Throw NotFound
  /\ fetch_branch_from_impl 3 db_orphaned 5 7 = Throw NotFound
  /\ fetch_branch_from_impl 3 db_orphaned 7 6 = Throw NotFound
  /\ fetch_branch_from_impl 3 db_orphaned 6 1 = Ret ([B6; A2], []).
Proof. repeat split; reflexivity. Qed.

Lemma db_fork_tree : tree db_fork.
Proof.
  split.
  - vm_compute. repeat constructor; simpl; intuition discriminate.
  - intros n Hn. vm_compute in Hn.
    destruct Hn as [<-|[<-|[<-|[<-|[]]]]]; eexists; split; reflexivity.
Qed.

Lemma db_orphaned_shape :
  root db_orphaned = Some root0 /\ index db_orphaned = [B6; A2; C7].
Proof. split; reflexivity. Qed.

Lemma fetch_branch_from_cuts_at_common_ancestor_witness :
  root db_fork = Some root0 /\ tree db_fork
  /\ (forall a b na nb,
        resolve db_fork a = Some na -> resolve db_fork b = Some nb ->
        exists la lb first second common,
          lineage db_fork na la /\ lineage db_fork nb lb
          /\ la = first ++ common /\ lb = second ++ common
          /\ common <> [] /\ cut_at_lowest_common first second
          /\ forall fuel, (length la <= fuel)%nat -> (length lb <= fuel)%nat ->
               fetch_branch_from_impl fuel db_fork a b = Ret (first, second))
  /\ fetch_branch_from_impl 0 db_fork 6 6 = Ret ([], [])
  /\ fetch_branch_from_impl 3 db_fork 6 42 = Throw NotFound
  /\ (exists f0, forall fuel, (f0 <= fuel)%nat ->
        fetch_branch_from_impl fuel db_orphaned 7 5 = Throw NotFound)
  /\ (exists f0, forall fuel, (f0 <= fuel)%nat ->
        fetch_branch_from_impl fuel db_orphaned 5 7 = Throw NotFound)
  /\ (exists f0, forall fuel, (f0 <= fuel)%nat ->
        fetch_branch_from_impl fuel db_orphaned 7 6 = Throw NotFound)
  /\ (exists f0, forall fuel, (f0 <= fuel)%nat ->
        fetch_branch_from_impl fuel db_orphaned 6 1 = Ret ([B6; A2], [])).
Proof.
  pose proof db_fork_tree as Ht.
  destruct (fetch_branch_from_cuts_at_common_ancestor db_fork root0 eq_refl)
    as [Htree _].
  destruct (Htree Ht) as [H1 [H2 [H3 _]]].
  split; [reflexivity|]. split; [exact Ht|]. split; [exact H1|].
  split; [exact (H2 6 B6 0%nat eq_refl)|].
  split; [apply H3; right; reflexivity|].
  destruct db_orphaned_shape as [Hr Hi].
  destruct (fetch_branch_from_cuts_at_common_ancestor db_orphaned root0 Hr)
    as [_ Hpair].
  assert (Hnd : NoDup (map id (index db_orphaned))).
  { rewrite Hi. simpl. repeat constructor; simpl; intuition discriminate. }
  specialize (Hpair Hnd).
  assert (HC7 : node_with db_orphaned root0 7 C7).
  { right. rewrite Hi. simpl. split; [discriminate|]. tauto. }
  assert (HA2 : node_with db_orphaned root0 5 A2).
  { right. rewrite Hi. simpl. split; [discriminate|]. tauto. }
  assert (HB6 : node_with db_orphaned root0 6 B6).
  { right. rewrite Hi. simpl. split; [discriminate|]. tauto. }
  assert (HR : node_with db_orphaned root0 1 root0).
  { left. split; reflexivity. }
  assert (Hlost : no_node db_orphaned root0 (previous C7)).
  { split; [discriminate|]. rewrite Hi. intros n Hn.
    destruct Hn as [<-|[<-|[<-|[]]]]; discriminate. }
  split; [|split; [|split]].
  - apply (Hpair 7 5 None).
    apply (branch_pair_first_lost _ _ _ _ C7 A2 HC7 HA2).
    apply climb_lost; [reflexivity|exact Hlost].
  - apply (Hpair 5 7 None).
    apply (branch_pair_second_lost _ _ _ _ A2 C7 [] A2 HA2 HC7).
    + apply climb_stop. discriminate.
    + apply climb_lost; [reflexivity|exact Hlost].
  - apply (Hpair 7 6 None).
    apply (branch_pair_both_lost _ _ _ _ C7 B6 [] C7 [] B6 HC7 HB6).
    + apply climb_stop. simpl. lia.
    + apply climb_stop. simpl. lia.
    + discriminate.
    + apply climb_both_lost; [discriminate|]. left. exact (proj2 Hlost).
  - apply (Hpair 6 1 (Some ([B6; A2], []))).
    apply (branch_pair_same _ _ _ _ B6 root0 [B6; A2] root0 [] root0 HB6 HR).
    + apply (climb_up _ _ _ B6 A2 [A2] root0); [reflexivity|exact HA2|].
      apply (climb_up _ _ _ A2 root0 [] root0); [reflexivity|exact HR|].
      apply climb_stop. simpl. lia.
    + apply climb_stop. simpl. lia.
    + reflexivity.
Defined.

(** ** close then open (C4) *)

Lemma ordered_perm_eq : forall l1 l2,
  ordered l1 -> ordered l2 -> Permutation l1 l2 -> l1 = l2.
Proof.
  unfold ordered. induction l1 as [|a l1 IH]; intros l2 H1 H2 Hp.
  - apply Permutation_nil in Hp. now subst.
  - destruct l2 as [|b l2].
    + symmetry in Hp. apply Permutation_nil in Hp. discriminate.
    + inversion H1 as [|? ? H1' Ha]; subst.
      inversion H2 as [|? ? H2' Hb]; subst.
      rewrite Forall_forall in Ha, Hb.
      assert (a = b).
      { assert (Hin1 : In b (a :: l1)).
        { apply (Permutation_in _ (Permutation_sym Hp)). now left. }
        assert (Hin2 : In a (b :: l2)).
        { apply (Permutation_in _ Hp). now left. }
        destruct Hin1 as [|Hin1]; auto. destruct Hin2 as [|Hin2]; auto.
        exfalso. specialize (Ha b Hin1). specialize (Hb a Hin2).
        pose proof (by_lib_less_trans a b a Ha Hb) as F.
        rewrite by_lib_less_irrefl in F. discriminate. }
      subst b. f_equal. apply IH; auto.
      now apply Permutation_cons_inv in Hp.
Qed.

Lemma insert_all_perm : forall blocks idx,
  Permutation (rev blocks ++ idx) (insert_all blocks idx).
Proof.
  unfold insert_all. induction blocks as [|s rest IH]; intros idx; simpl.
  - reflexivity.
  - rewrite <- IH. rewrite <- app_assoc. simpl.
    apply Permutation_app_head. apply ordered_insert_perm.
Qed.

Lemma insert_all_snoc : forall done s idx,
  insert_all (done ++ [s]) idx = ordered_insert s (insert_all done idx).
Proof. intros. unfold insert_all. now rewrite fold_left_app. Qed.

Lemma insert_all_ordered : forall blocks,
  NoDup (map id blocks) -> ordered (insert_all blocks []).
Proof.
  intros blocks. induction blocks as [|s done IH] using rev_ind; intros Hnd.
  - constructor.
  - rewrite insert_all_snoc.
    rewrite map_app in Hnd. simpl in Hnd.
    apply NoDup_remove in Hnd. rewrite app_nil_r in Hnd.
    destruct Hnd as [Hnd Hni].
    apply ordered_insert_ordered; auto.
    intros e He E. apply Hni. rewrite <- E. apply in_map.
    apply (Permutation_in _ (Permutation_sym (insert_all_perm done []))) in He.
    rewrite app_nil_r in He. now apply in_rev.
Qed.

Lemma index_find_perm : forall l l' i,
  NoDup (map id l) -> Permutation l l' -> index_find i l = index_find i l'.
Proof.
  intros l l' i Hnd Hp.
  assert (Hnd' : NoDup (map id l')).
  { apply (Permutation_NoDup (l := map id l)); auto. now apply Permutation_map. }
  destruct (index_find i l) as [n|] eqn:E.
  - destruct (index_find_some _ _ _ E) as [Hn Hid]. subst i. symmetry.
    apply index_find_in_unique; auto. now apply (Permutation_in _ Hp).
  - symmetry. apply index_find_not_in. intros Hin.
    apply in_map_iff in Hin. destruct Hin as [m [Hid Hm]].
    apply (index_find_none _ _ E m); auto.
    now apply (Permutation_in _ (Permutation_sym Hp)).
Qed.

Lemma ordered_insert_not_nil : forall n idx, ordered_insert n idx <> [].
Proof. intros n [|e l]; simpl; [|destruct (by_lib_less n e)]; discriminate. Qed.

(** One iteration of the loop of [open_impl] on a block whose parent is
    already there. *)
Lemma add_impl_links : forall vd r idx hd s p,
  (if id r =? previous s then Some r else index_find (previous s) idx) = Some p ->
  vd s p = true -> index_find (id s) idx = None ->
  exists hd',
    add_impl (Some s) false true vd (mk_db idx (Some r) hd)
    = (mk_db (ordered_insert s idx) (Some r) hd', Ret tt).
Proof.
  intros vd r idx hd s p Hp Hv Hfresh.
  assert (Hget : get_block_header_impl (mk_db idx (Some r) hd) (previous s)
                 = Ret (Some p)).
  { unfold get_block_header_impl. simpl.
    destruct (id r =? previous s); congruence. }
  unfold add_impl. simpl root. rewrite Hget, Hv. simpl.
  unfold index_insert. rewrite Hfresh.
  destruct (ordered_insert s idx) as [|c l] eqn:E;
    [now apply ordered_insert_not_nil in E|].
  simpl. destruct (is_valid c); eauto.
Qed.

Lemma open_add_all_rebuilds : forall vd r blocks,
  NoDup (map id blocks) ->
  (forall done s rest, blocks = done ++ s :: rest ->
     exists p,
       (if id r =? previous s then Some r else index_find (previous s) done)
       = Some p
       /\ vd s p = true) ->
  forall rest done hd, blocks = done ++ rest ->
  exists hd',
    open_add_all vd rest (mk_db (insert_all done []) (Some r) hd)
    = (mk_db (insert_all blocks []) (Some r) hd', Ret tt).
Proof.
  intros vd r blocks Hnd Hlink.
  induction rest as [|s rest IH]; intros done hd E.
  - rewrite app_nil_r in E. subst. simpl. eauto.
  - destruct (Hlink done s rest E) as [p [Hp Hv]].
    assert (Hnd_done : NoDup (map id done) /\ ~ In (id s) (map id done)).
    { rewrite E, map_app in Hnd. simpl in Hnd. split.
      - now apply NoDup_app_remove_r in Hnd.
      - apply NoDup_remove_2 in Hnd. intros Hin. apply Hnd.
        apply in_or_app. now left. }
    destruct Hnd_done as [Hndd Hni].
    assert (Hperm : Permutation done (insert_all done [])).
    { rewrite <- insert_all_perm, app_nil_r. apply Permutation_rev. }
    destruct (add_impl_links vd r (insert_all done []) hd s p) as [hd1 Hadd];
      auto.
    + destruct (id r =? previous s); auto.
      now rewrite <- (index_find_perm done (insert_all done [])).
    + apply index_find_not_in. intros Hin. apply Hni.
      apply in_map_iff in Hin. destruct Hin as [m [Hid Hm]].
      rewrite <- Hid. apply in_map.
      now apply (Permutation_in _ (Permutation_sym Hperm)).
    + simpl. rewrite Hadd. rewrite <- insert_all_snoc.
      apply IH. rewrite E, <- app_assoc. reflexivity.
Qed.

Lemma close_order_links : forall vd db r,
  root db = Some r -> tree db -> irr_monotone db -> ordered (index db) ->
  validator_accepts vd db ->
  forall done s rest, close_order (index db) = done ++ s :: rest ->
  exists p,
    (if id r =? previous s then Some r else index_find (previous s) done)
    = Some p
    /\ vd s p = true.
Proof.
  intros vd db r Hr [Hu Ht] Hirr Ho Hvd done s rest E.
  pose proof (close_order_perm (index db)) as Hperm.
  assert (Hs : In s (index db)).
  { apply (Permutation_in _ Hperm). rewrite E. apply in_or_app.
    right. now left. }
  destruct (Ht s Hs) as [p [Hp Hnum]].
  exists p. split; [|now apply Hvd].
  destruct (resolve_cases db r _ p Hr Hp) as [[-> Ep]|[Hpin [Hpid Hpne]]].
  - rewrite Ep. now rewrite N.eqb_refl.
  - destruct (N.eqb_spec (id r) (previous s)) as [F|_]; [congruence|].
    assert (Hnd : NoDup (map id (done ++ s :: rest))).
    { rewrite <- E. apply (Permutation_NoDup (l := map id (index db))).
      - apply Permutation_map. now symmetry.
      - now apply ids_unique_index. }
    assert (Hin : In p (done ++ s :: rest)).
    { rewrite <- E. now apply (Permutation_in _ (Permutation_sym Hperm)). }
    apply in_app_or in Hin. destruct Hin as [Hin|[Hin|Hin]].
    + rewrite <- Hpid. apply index_find_in_unique; auto.
      rewrite map_app in Hnd. now apply NoDup_app_remove_r in Hnd.
    + subst p. lia.
    + exfalso. apply in_split in Hin. destruct Hin as [l2 [l3 ->]].
      pose proof (close_order_sorted _ Ho) as Hsorted. rewrite E in Hsorted.
      destruct (StronglySorted_split _ _ _ _ _ _ _ Hsorted) as [Hfp _].
      specialize (Hirr s p Hs Hp).
      revert Hfp. unfold first_preferred.
      destruct (N.ltb_spec (irreversible_blocknum p) (irreversible_blocknum s));
        [discriminate|].
      destruct (N.ltb_spec (irreversible_blocknum s) (irreversible_blocknum p));
        [lia|].
      destruct (N.ltb_spec (block_num p) (block_num s)); [discriminate|lia].
Qed.

Lemma insert_all_close_order : forall idx,
  NoDup (map id idx) -> ordered idx ->
  insert_all (close_order idx) [] = idx.
Proof.
  intros idx Hnd Ho. apply ordered_perm_eq; auto.
  - apply insert_all_ordered.
    apply (Permutation_NoDup (l := map id idx)); auto.
    apply Permutation_map. symmetry. apply close_order_perm.
  - rewrite <- insert_all_perm, app_nil_r, <- Permutation_rev.
    apply close_order_perm.
Qed.

Lemma open_check_round_trip : forall db r h,
  root db = Some r -> head db = Some h -> ordered (index db) ->
  head_is_best db -> ((h = r /\ True) \/ (In h (index db) /\ id h <> id r)) ->
  open_check db = Ret tt.
Proof.
  intros db r h Hr Hh Ho Hbest Hcase. unfold open_check.
  rewrite Hh, Hr. simpl. destruct (Hbest h Hh) as [Hv Hb].
  destruct (index db) as [|c l] eqn:E.
  - destruct Hcase as [[-> _]|[[] _]]. now rewrite N.eqb_refl.
  - destruct (is_valid c) eqn:Ec.
    + rewrite (Hb c (or_introl eq_refl) Ec). reflexivity.
    + destruct Hcase as [[-> _]|[Hin _]]; [now rewrite N.eqb_refl|].
      rewrite (ordered_hd_valid c l Ho Ec h Hin) in Hv. discriminate.
Qed.

Lemma db_pending_tree : tree db_pending /\ irr_monotone db_pending.
Proof.
  split; [split|].
  - vm_compute. repeat constructor; simpl; intuition discriminate.
  - intros n Hn. vm_compute in Hn.
    destruct Hn as [<-|[<-|[]]]; eexists; split; reflexivity.
  - intros n p Hn Hp. vm_compute in Hn.
    destruct Hn as [<-|[<-|[]]]; vm_compute in Hp; inversion Hp; subst;
      vm_compute; discriminate.
Qed.

(** C4, as stated, fails: the tree root <- A1 <- B2 satisfies the structural
    invariants, but when the validator handed to [open] rejects a block, [open]
    throws after the reset and nothing of the index is reproduced. *)
Lemma close_then_open_needs_accepting_validator :
  tree db_pending /\ irr_monotone db_pending
  /\ exists f db',
       snd (close_impl 7 db_pending) = Some f
       /\ open_impl 7 (fun _ _ => false) (Some f) (fst (close_impl 7 db_pending))
          = ((db', Throw ValidatorRejected), Some f)
       /\ index db' = [] /\ index db_pending <> [].
Proof.
  destruct db_pending_tree as [Ht Hi]. split; [exact Ht|]. split; [exact Hi|].
  eexists. eexists. split; [reflexivity|]. split; [reflexivity|].
  split; [reflexivity|]. vm_compute. discriminate.
Qed.

(** C4, amended. For every tree state with root and head set that satisfies
    the invariants of the data model (root valid, unique ids, head the root or
    an index entry, head valid and not beaten by a valid entry, entries linked
    one block number above their parent with a monotone irreversibility
    number) and every validator that accepts the entries of the index, [close]
    writes a file from which [open], started in any state, returns normally
    with exactly the root, index and head that were closed, and removes the
    file. *)
Theorem close_then_open_reproduces :
  forall m vd db r h,
    root db = Some r -> head db = Some h -> is_valid r = true ->
    tree db -> irr_monotone db -> ordered (index db) -> head_is_best db ->
    (h = r \/ In h (index db)) -> validator_accepts vd db ->
    exists f,
      close_impl m db = (mk_db [] (root db) (head db), Some f)
      /\ forall db0, open_impl m vd (Some f) db0 = ((db, Ret tt), None).
Proof.
  intros m vd db r h Hr Hh Hrv Ht Hirr Ho Hbest Hhead Hvd.
  pose proof Ht as [Hu _]. pose proof (ids_unique_index db Hu) as Hnd.
  exists (mk_file m max_supported_version (header_state r)
                  (close_order (index db)) (Some (id h))).
  split; [unfold close_impl; now rewrite Hr, Hh|].
  intros db0. unfold open_impl, open_file. simpl.
  rewrite N.eqb_refl. simpl.
  assert (Hreset : reset_impl (header_state r) db0
                   = mk_db [] (Some r) (Some r)).
  { unfold reset_impl, header_state. simpl. destruct r; simpl in *.
    now subst. }
  rewrite Hreset.
  destruct (open_add_all_rebuilds vd r (close_order (index db)))
    with (rest := close_order (index db)) (done := @nil bs) (hd := Some r)
    as [hd' Hadd]; auto.
  - apply (Permutation_NoDup (l := map id (index db))); auto.
    apply Permutation_map. symmetry. apply close_order_perm.
  - now apply (close_order_links vd db r).
  - change (insert_all [] []) with (@nil bs) in Hadd. rewrite Hadd.
    rewrite (insert_all_close_order _ Hnd Ho). simpl.
    destruct (N.eqb_spec (id r) (id h)) as [E|E].
    + assert (h = r).
      { symmetry. apply (same_id_same_node db r Hr Hu); auto. }
      subst h.
      rewrite (open_check_round_trip (mk_db (index db) (Some r) (Some r)) r r);
        auto.
      * destruct db; simpl in *. now subst.
      * intros h' Hh'. simpl in Hh'. inversion Hh'; subst h'.
        simpl. now apply Hbest.
    + destruct Hhead as [->|Hin]; [congruence|]. unfold get_block_impl. simpl.
      rewrite (index_find_in_unique _ h Hnd Hin).
      rewrite (open_check_round_trip (mk_db (index db) (Some r) (Some h)) r h);
        auto.
      * destruct db; simpl in *. now subst.
      * intros h' Hh'. simpl in Hh'. inversion Hh'; subst h'.
        simpl. now apply Hbest.
Qed.

Lemma close_then_open_reproduces_witness :
  exists f,
    close_impl 7 db_pending
    = (mk_db [] (root db_pending) (head db_pending), Some f)
    /\ forall db0,
         open_impl 7 (fun _ _ => true) (Some f) db0
         = ((db_pending, Ret tt), None).
Proof.
  destruct db_pending_tree as [Ht Hi].
  apply (close_then_open_reproduces 7 (fun _ _ => true) db_pending root0 A1);
    try reflexivity; auto.
  - prove_ordered.
  - pose proof (reachable_sound_inv db_pending
                  (reachable_open_sound _ db_pending_reachable_open))
      as (_ & _ & Hbest & _).
    exact Hbest.
  - right. vm_compute. tauto.
  - intros n p _ _. reflexivity.
Defined.

(** * Further properties of the fork tree *)

(** ** The fork-choice order *)

(** X1. [first_preferred] is a strict weak order that ignores validity and
    ids: irreflexive, asymmetric, transitive, with a transitive complement,
    and two block states are left unordered exactly when they agree on the
    irreversible block number and on the block number. *)
Theorem first_preferred_strict_weak_order :
  (forall a, first_preferred a a = false)
  /\ (forall a b, first_preferred a b = true -> first_preferred b a = false)
  /\ (forall a b c, first_preferred a b = true -> first_preferred b c = true ->
                    first_preferred a c = true)
  /\ (forall a b c, first_preferred a b = false -> first_preferred b c = false ->
                    first_preferred a c = false)
  /\ (forall a b,
        (first_preferred a b = false /\ first_preferred b a = false)
        <-> (irreversible_blocknum a = irreversible_blocknum b
             /\ block_num a = block_num b))
  /\ (forall a b v w,
        first_preferred (set_valid v a) (set_valid w b) = first_preferred a b).
Proof.
  split; [exact first_preferred_irrefl|].
  split; [exact first_preferred_asym|].
  split; [exact first_preferred_trans|].
  split; [exact first_preferred_neg_trans|].
  split; [|reflexivity].
  intros a b. unfold first_preferred. split.
  - intros [H1 H2].
    destruct (N.ltb_spec (irreversible_blocknum b) (irreversible_blocknum a));
      destruct (N.ltb_spec (irreversible_blocknum a) (irreversible_blocknum b));
      destruct (N.ltb_spec (block_num b) (block_num a));
      destruct (N.ltb_spec (block_num a) (block_num b));
      simpl in *; try discriminate; lia.
  - intros [-> ->]. rewrite !N.ltb_irrefl. auto.
Qed.

(** ** search_on_branch *)

Lemma search_on_branch_loop_spec : forall idx rt hd bn h l,
  branch_in_index idx h l ->
  forall fuel, (length l < fuel)%nat ->
    search_on_branch_loop fuel (mk_db idx rt hd) bn (index_find h idx)
    = Ret (find (fun n => block_num n =? bn) l).
Proof.
  induction 1 as [h Hf|h n l Hf Hb IH]; intros fuel Hfuel.
  - rewrite Hf. now destruct fuel.
  - rewrite Hf. destruct fuel as [|fuel]; simpl in *; [lia|].
    destruct (block_num n =? bn); auto.
    unfold get_block_impl. simpl. apply IH. lia.
Qed.

Lemma descending_at_most_one : forall l a b,
  descending_block_num l -> In a l -> In b l ->
  block_num a = block_num b -> a = b.
Proof.
  unfold descending_block_num. induction 1 as [|x l Hs IH Hx];
    intros Ha Hb E; [contradiction|].
  rewrite Forall_forall in Hx.
  destruct Ha as [->|Ha]; destruct Hb as [->|Hb]; auto.
  - specialize (Hx b Hb). lia.
  - specialize (Hx a Ha). lia.
Qed.

(** X2. When linked index entries sit above their parents,
    [search_on_branch(h, n)] returns, given fuel for the walk, the one entry
    with block number [n] on the branch that [fetch_branch(h)] returns, and
    null exactly when that branch has no such entry. *)
Theorem search_on_branch_finds_the_entry :
  forall db h bn, parent_below (index db) ->
  exists l,
    branch_in_index (index db) h l
    /\ (forall fuel, (length l < fuel)%nat ->
          fetch_branch_impl fuel db h MAX_U32
          = Ret (filter (fun n => block_num n <=? MAX_U32) l)
          /\ search_on_branch_impl fuel db h bn
             = Ret (find (fun n => block_num n =? bn) l))
    /\ (forall s, find (fun n => block_num n =? bn) l = Some s <->
                  In s l /\ block_num s = bn)
    /\ (find (fun n => block_num n =? bn) l = None <->
        forall s, In s l -> block_num s <> bn).
Proof.
  intros db h bn Hpb.
  destruct (branch_in_index_exists _ Hpb h) as [l Hb].
  pose proof (branch_in_index_descending _ Hpb _ _ Hb) as Hd.
  exists l. destruct db as [idx rt hd]. simpl in *.
  split; [exact Hb|]. split; [|split].
  - intros fuel Hfuel. split.
    + unfold fetch_branch_impl, get_block_impl. simpl.
      now rewrite (fetch_branch_loop_spec idx rt hd MAX_U32 h l Hb).
    + unfold search_on_branch_impl, get_block_impl. simpl.
      now apply search_on_branch_loop_spec.
  - intros s. split.
    + intros Hf. apply find_some in Hf. destruct Hf as [Hin E].
      apply N.eqb_eq in E. auto.
    + intros [Hin E].
      destruct (find (fun n => block_num n =? bn) l) as [s'|] eqn:Hf.
      * apply find_some in Hf. destruct Hf as [Hin' E'].
        apply N.eqb_eq in E'. f_equal.
        apply (descending_at_most_one l); auto. congruence.
      * apply (find_none _ _ Hf) in Hin. apply N.eqb_neq in Hin. contradiction.
  - split.
    + intros Hf s Hin. apply (find_none _ _ Hf) in Hin.
      now apply N.eqb_neq in Hin.
    + intros Hnone.
      destruct (find (fun n => block_num n =? bn) l) as [s|] eqn:Hf; auto.
      apply find_some in Hf. destruct Hf as [Hin E]. apply N.eqb_eq in E.
      now destruct (Hnone s Hin).
Qed.

Lemma search_on_branch_finds_the_entry_witness :
  parent_below (index db_line)
  /\ search_on_branch_impl 4 db_line 4 12 = Ret (Some B2)
  /\ search_on_branch_impl 4 db_line 4 10 = Ret None.
Proof.
  assert (Hpb : parent_below (index db_line)) by prove_parent_below3.
  split; [exact Hpb|].
  split.
  - destruct (search_on_branch_finds_the_entry db_line 4 12 Hpb)
      as [l [Hb [Hrun _]]].
    assert (El : l = [C3; B2; A1]).
    { apply (branch_in_index_functional _ _ _ Hb).
      repeat (eapply branch_on; [reflexivity|]). now apply branch_off. }
    subst l. exact (proj2 (Hrun 4%nat (Nat.lt_succ_diag_r 3))).
  - destruct (search_on_branch_finds_the_entry db_line 4 10 Hpb)
      as [l [Hb [Hrun _]]].
    assert (El : l = [C3; B2; A1]).
    { apply (branch_in_index_functional _ _ _ Hb).
      repeat (eapply branch_on; [reflexivity|]). now apply branch_off. }
    subst l. exact (proj2 (Hrun 4%nat (Nat.lt_succ_diag_r 3))).
Defined.

(** ** Lookups after add, mark_valid and rollback *)

Lemma index_find_ordered_insert_other : forall n idx i,
  i <> id n -> index_find i (ordered_insert n idx) = index_find i idx.
Proof.
  intros n idx i Hne. unfold index_find.
  assert (E : (id n =? i) = false) by (apply N.eqb_neq; congruence).
  induction idx as [|e l IH]; simpl.
  - now rewrite E.
  - destruct (by_lib_less n e); simpl.
    + now rewrite E.
    + now rewrite IH.
Qed.

Lemma index_find_ordered_insert_new : forall n idx,
  index_find (id n) idx = None ->
  index_find (id n) (ordered_insert n idx) = Some n.
Proof.
  intros n idx. unfold index_find.
  induction idx as [|e l IH]; simpl; intros H.
  - now rewrite N.eqb_refl.
  - destruct (id e =? id n) eqn:E; [discriminate|].
    destruct (by_lib_less n e); simpl.
    + now rewrite N.eqb_refl.
    + rewrite E. now apply IH.
Qed.

Lemma index_find_erase : forall i idx j,
  index_find j (index_erase i idx)
  = if j =? i then None else index_find j idx.
Proof.
  intros i idx j. unfold index_find, index_erase.
  induction idx as [|e l IH]; simpl.
  - now destruct (j =? i).
  - destruct (N.eqb_spec (id e) i) as [Ei|Ei]; simpl.
    + rewrite IH. destruct (N.eqb_spec j i) as [Ej|Ej]; auto.
      destruct (N.eqb_spec (id e) j); [congruence|reflexivity].
    + rewrite IH. destruct (N.eqb_spec (id e) j) as [Ej|Ej]; auto.
      destruct (N.eqb_spec j i); [congruence|reflexivity].
Qed.

Lemma index_find_modify_valid : forall b i idx j,
  index_find j (index_modify_valid b i idx)
  = if j =? i then option_map (set_valid b) (index_find i idx)
    else index_find j idx.
Proof.
  intros b i idx j. unfold index_modify_valid.
  destruct (index_find i idx) as [e|] eqn:E.
  - destruct (index_find_some _ _ _ E) as [_ Hid].
    destruct (N.eqb_spec j i) as [Ej|Ej].
    + simpl. subst j. rewrite <- Hid.
      change (id e) with (id (set_valid b e)) at 1.
      apply index_find_ordered_insert_new. simpl.
      rewrite index_find_erase. now rewrite N.eqb_refl.
    + rewrite index_find_ordered_insert_other by (simpl; congruence).
      rewrite index_find_erase.
      destruct (N.eqb_spec j i); [contradiction|reflexivity].
  - destruct (N.eqb_spec j i) as [Ej|Ej]; [subst j; now rewrite E|reflexivity].
Qed.

Lemma add_impl_ret_lookup :
  forall n ignore_duplicate validate validator db db',
    add_impl (Some n) ignore_duplicate validate validator db = (db', Ret tt) ->
    root db' = root db
    /\ (forall i, i <> id n -> get_block_impl db' i = get_block_impl db i)
    /\ (get_block_impl db (id n) = None ->
        get_block_impl db' (id n) = Some n)
    /\ (forall e, get_block_impl db (id n) = Some e ->
        ignore_duplicate = true /\ db' = db).
Proof.
  intros n ig v vd db db' H. unfold add_impl in H.
  destruct (root db) as [rt|] eqn:Hrt; [|discriminate].
  destruct (get_block_header_impl db (previous n)) as [[p|]|e| |];
    try discriminate.
  destruct (v && negb (vd n p)); [discriminate|].
  unfold index_insert in H. unfold get_block_impl.
  destruct (index_find (id n) (index db)) as [e|] eqn:Ef; simpl in H.
  - destruct ig; [|discriminate]. inversion H; subst db'.
    rewrite Ef. repeat split; auto; discriminate.
  - destruct (ordered_insert n (index db)) as [|c l] eqn:Eo;
      [discriminate|].
    assert (Hidx : index db' = ordered_insert n (index db) /\ root db' = root db).
    { rewrite Eo. destruct (is_valid c); inversion H; subst; simpl; auto. }
    destruct Hidx as [-> ->]. split; [auto|]. split; [|split].
    + intros i Hi. now apply index_find_ordered_insert_other.
    + intros _. now apply index_find_ordered_insert_new.
    + discriminate.
Qed.

(** X3. When [add] returns normally, a lookup of the block's id gives the
    block itself if the id was new, and the entry that was already there
    (not the block handed in) if it was not; no other lookup changes, and
    neither does the root. *)
Theorem add_then_get_block :
  forall n ignore_duplicate validate validator db db',
    add_impl (Some n) ignore_duplicate validate validator db = (db', Ret tt) ->
    root db' = root db
    /\ (forall i, i <> id n -> get_block_impl db' i = get_block_impl db i)
    /\ (get_block_impl db (id n) = None ->
        get_block_impl db' (id n) = Some n)
    /\ (forall e, get_block_impl db (id n) = Some e ->
        ignore_duplicate = true /\ db' = db).
Proof. exact add_impl_ret_lookup. Qed.

Lemma add_then_get_block_witness :
  get_block_impl db_pending 3 = Some B2
  /\ get_block_impl db_pending 2 = Some A1.
Proof.
  destruct (add_then_get_block B2 false false (fun _ _ => true)
              (run [add (Some A1) false] (reset_impl R0 empty_db))
              db_pending eq_refl) as [_ [Hother [Hnew _]]].
  split.
  - apply Hnew. reflexivity.
  - rewrite Hother; [reflexivity|discriminate].
Defined.

(** X4. A block whose id is already in the index never changes the tree:
    [add] throws Unlinkable when its parent no longer resolves (the parent is
    looked up before the id), and otherwise returns without touching the
    state, head included, under [ignore_duplicate], or throws Duplicate. *)
Theorem add_duplicate_changes_nothing :
  forall n e ignore_duplicate db r,
    root db = Some r -> get_block_impl db (id n) = Some e ->
    add (Some n) ignore_duplicate db
    = (db,
       match get_block_header_impl db (previous n) with
       | Ret None => Throw Unlinkable
       | _ => if ignore_duplicate then Ret tt else Throw Duplicate
       end).
Proof.
  intros n e ig db r Hr He. unfold add, add_impl. rewrite Hr.
  unfold get_block_header_impl. rewrite Hr. simpl.
  unfold get_block_impl in He. unfold index_insert. rewrite He.
  destruct (id r =? previous n); simpl.
  - now destruct ig.
  - destruct (index_find (previous n) (index db)); simpl; auto.
    now destruct ig.
Qed.

Lemma add_duplicate_changes_nothing_witness :
  add (Some (set_valid true B2)) true db_pending = (db_pending, Ret tt)
  /\ add (Some (set_valid true B2)) false db_pending
     = (db_pending, Throw Duplicate)
  /\ add (Some (mk_bs 3 77 12 5 true)) true db_pending
     = (db_pending, Throw Unlinkable).
Proof.
  split; [|split].
  - exact (add_duplicate_changes_nothing (set_valid true B2) B2 true
             db_pending root0 eq_refl eq_refl).
  - exact (add_duplicate_changes_nothing (set_valid true B2) B2 false
             db_pending root0 eq_refl eq_refl).
  - exact (add_duplicate_changes_nothing (mk_bs 3 77 12 5 true) B2 true
             db_pending root0 eq_refl eq_refl).
Defined.

(** X5. [mark_valid] of a block state whose own flag is unset and whose id is
    in the index (with the head set) flips exactly that entry: afterwards the
    lookup of the id gives the entry marked valid, and no other lookup and not
    the root has changed.  The head becomes the new first entry of the index
    when that entry is preferred to it; otherwise it stays, and, in a
    database that has not been closed, it shows the flag set when it is the
    entry that was flipped.  A block state whose own flag is already set is
    ignored, in the index or not. *)
Theorem mark_valid_flips_one_entry :
  forall h db,
    (is_valid h = true -> mark_valid_impl h db = (db, Ret tt))
    /\ (forall e hd,
          is_valid h = false -> get_block_impl db (id h) = Some e ->
          head db = Some hd ->
          exists db' c,
            mark_valid_impl h db = (db', Ret tt)
            /\ root db' = root db
            /\ get_block_impl db' (id h) = Some (set_valid true e)
            /\ (forall i, i <> id h ->
                  get_block_impl db' i = get_block_impl db i)
            /\ hd_error (index db') = Some c
            /\ (first_preferred c hd = true -> head db' = Some c)
            /\ (first_preferred c hd = false -> hd <> e ->
                head db' = Some hd)
            /\ (first_preferred c hd = false -> hd = e ->
                reachable_unclosed db ->
                head db' = Some (set_valid true e))).
Proof.
  intros h db. split.
  - intros Hv. unfold mark_valid_impl. now rewrite Hv.
  - intros e hd Hv He Hhd. unfold mark_valid_impl, get_block_impl in *.
    rewrite Hv, He, Hhd.
    pose proof (index_find_modify_valid true (id h) (index db)) as Hfind.
    assert (Hne : index_modify_valid true (id h) (index db) <> []).
    { unfold index_modify_valid. rewrite He. apply ordered_insert_not_nil. }
    destruct (index_modify_valid true (id h) (index db)) as [|c l] eqn:Em;
      [congruence|].
    assert (Hlook : index_find (id h) (c :: l) = Some (set_valid true e)
                    /\ forall i, i <> id h ->
                         index_find i (c :: l) = index_find i (index db)).
    { split.
      - rewrite Hfind, N.eqb_refl, He. reflexivity.
      - intros i Hi. rewrite Hfind.
        destruct (N.eqb_spec i (id h)); [contradiction|reflexivity]. }
    destruct Hlook as [Hl1 Hl2].
    destruct (head_after_modify e (Some hd)) as [hd'|] eqn:Eh;
      [|discriminate].
    destruct (head_after_modify_cases e (Some hd) hd' Eh)
      as [h0 [E0 Hcase]].
    inversion E0; subst h0; clear E0.
    assert (Efp : first_preferred c hd' = first_preferred c hd).
    { destruct Hcase as [[-> _]|[-> ->]]; reflexivity. }
    rewrite Efp.
    destruct (first_preferred c hd) eqn:Ep; eexists; exists c;
      (split; [reflexivity|]); simpl;
      (split; [auto|]); (split; [auto|]); (split; [auto|]);
      (split; [auto|]); (split; [|split]); intros; try congruence.
    + destruct Hcase as [[-> _]|[-> _]]; [reflexivity|contradiction].
    + destruct Hcase as [[_ F]|[_ ->]]; [contradiction|reflexivity].
Qed.

Lemma mark_valid_flips_one_entry_witness :
  (exists db' c,
     mark_valid_impl B2 db_pending = (db', Ret tt)
     /\ root db' = root db_pending
     /\ get_block_impl db' 3 = Some (set_valid true B2)
     /\ (forall i, i <> 3 -> get_block_impl db' i = get_block_impl db_pending i)
     /\ hd_error (index db') = Some c
     /\ (first_preferred c A1 = true -> head db' = Some c)
     /\ (first_preferred c A1 = false -> A1 <> B2 -> head db' = Some A1)
     /\ (first_preferred c A1 = false -> A1 = B2 ->
         reachable_unclosed db_pending ->
         head db' = Some (set_valid true B2)))
  /\ reachable_unclosed db_opened
  /\ head db_opened = Some X9
  /\ head (fst (mark_valid_impl X9 db_opened)) = Some (set_valid true X9).
Proof.
  assert (Hu : reachable_unclosed db_opened).
  { apply (reachable_unclosed_op empty_db
             (OpOpen 7 (fun _ _ => true) (Some file_pending_head))
             db_opened (Ret tt));
      [constructor|reflexivity|now left|reflexivity]. }
  split; [|split; [exact Hu|split; [reflexivity|]]].
  - exact (proj2 (mark_valid_flips_one_entry B2 db_pending) B2 A1
             eq_refl eq_refl eq_refl).
  - destruct (proj2 (mark_valid_flips_one_entry X9 db_opened) X9 X9
                eq_refl eq_refl eq_refl)
      as [db' [c [Hm [_ [_ [_ [Hc [_ [_ Hsame]]]]]]]]].
    rewrite Hm. simpl fst.
    apply Hsame; [|reflexivity|exact Hu].
    assert (Ec : c = set_valid true X9).
    { vm_compute in Hm. inversion Hm; subst db'. simpl in Hc.
      inversion Hc. reflexivity. }
    rewrite Ec. reflexivity.
Defined.

Lemma rollback_lookup : forall ids idx j,
  index_find j
    (fold_left (fun acc i => index_modify_valid false i acc) ids idx)
  = if existsb (N.eqb j) ids
    then option_map (set_valid false) (index_find j idx)
    else index_find j idx.
Proof.
  induction ids as [|i ids IH]; intros idx j; simpl; auto.
  rewrite IH, index_find_modify_valid.
  destruct (N.eqb_spec j i) as [Ej|Ej]; simpl.
  - subst j. destruct (existsb (N.eqb i) ids); auto.
    destruct (index_find i idx); reflexivity.
  - reflexivity.
Qed.

(** X6. [rollback_head_to_root] clears the validity flag of every index entry
    and changes nothing else in it: each lookup gives the entry it gave
    before, with the flag unset; the head becomes the root and the root is
    kept. *)
Theorem rollback_invalidates_every_entry :
  forall db,
    root (rollback_head_to_root_impl db) = root db
    /\ head (rollback_head_to_root_impl db) = root db
    /\ (forall i, get_block_impl (rollback_head_to_root_impl db) i
                  = option_map (set_valid false) (get_block_impl db i))
    /\ (forall n, In n (index (rollback_head_to_root_impl db)) ->
                  is_valid n = false).
Proof.
  intros db. split; [reflexivity|]. split; [reflexivity|]. split.
  - intros i. unfold get_block_impl, rollback_head_to_root_impl. simpl.
    rewrite rollback_lookup.
    destruct (existsb (N.eqb i) (map id (index db))) eqn:E; auto.
    destruct (index_find i (index db)) as [e|] eqn:Ef; auto.
    destruct (index_find_some _ _ _ Ef) as [He Hid].
    assert (F : existsb (N.eqb i) (map id (index db)) = true).
    { apply existsb_exists. exists (id e). split; [now apply in_map|].
      apply N.eqb_eq. congruence. }
    congruence.
  - intros n Hn. unfold rollback_head_to_root_impl in Hn. simpl in Hn.
    apply (rollback_all_invalid (map id (index db)) (index db)); auto.
    intros m Hm _. now apply in_map.
Qed.

(** ** What add, remove and mark_valid do to the links *)

Lemma add_impl_outcome : forall n ig v vd db db' r,
  add_impl (Some n) ig v vd db = (db', r) ->
  (exists rt, root db = Some rt) ->
  (r = Ret tt
   \/ (db' = db
       /\ (r = Throw Unlinkable \/ r = Throw ValidatorRejected
           \/ r = Throw Duplicate)))
  /\ root db' = root db.
Proof.
  intros n ig v vd db db' r H [rt Hrt]. unfold add_impl in H. rewrite Hrt in H.
  unfold get_block_header_impl in H. rewrite Hrt in H. simpl in H.
  destruct (if id rt =? previous n then Ret (Some rt)
            else Ret (index_find (previous n) (index db)))
    as [[p|]|e| |] eqn:Eh;
    try (destruct (id rt =? previous n); discriminate).
  - destruct (v && negb (vd n p)); [inversion H; subst; auto 6|].
    unfold index_insert in H.
    destruct (index_find (id n) (index db)) as [e|]; simpl in H.
    + destruct ig; inversion H; subst; auto 6.
    + destruct (ordered_insert n (index db)) as [|c l] eqn:Eo;
        [now apply ordered_insert_not_nil in Eo|].
      destruct (is_valid c); inversion H; subst; simpl; auto.
  - inversion H; subst. auto 6.
Qed.

Lemma add_impl_inserted : forall n v vd db db',
  add_impl (Some n) false v vd db = (db', Ret tt) ->
  root db' = root db
  /\ index db' = ordered_insert n (index db)
  /\ index_find (id n) (index db) = None
  /\ (exists rt, root db = Some rt
        /\ (previous n = id rt
            \/ exists p, In p (index db) /\ id p = previous n))
  /\ (head db' = head db \/ head db' = hd_error (index db')).
Proof.
  intros n v vd db db' H. unfold add_impl in H.
  destruct (root db) as [rt|] eqn:Hrt; [|discriminate].
  unfold get_block_header_impl in H. rewrite Hrt in H. simpl in H.
  assert (Hparent : forall p,
            (if id rt =? previous n then Ret (Some rt)
             else Ret (index_find (previous n) (index db))) = Ret (Some p) ->
            previous n = id rt
            \/ exists p, In p (index db) /\ id p = previous n).
  { intros p Hp. destruct (N.eqb_spec (id rt) (previous n)); auto.
    inversion Hp as [Hf]. apply index_find_some in Hf. right. eauto. }
  destruct (if id rt =? previous n then Ret (Some rt)
            else Ret (index_find (previous n) (index db)))
    as [[p|]|e| |]; try discriminate.
  specialize (Hparent p eq_refl).
  destruct (v && negb (vd n p)); [discriminate|].
  unfold index_insert in H.
  destruct (index_find (id n) (index db)) as [e|]; simpl in H;
    [discriminate|].
  destruct (ordered_insert n (index db)) as [|c l] eqn:Eo; [discriminate|].
  destruct (is_valid c); inversion H; subst; simpl; eauto 8.
Qed.

Lemma linked_grow : forall db db' n,
  linked db -> root db' = root db ->
  (forall x, In x (index db') <-> x = n \/ In x (index db)) ->
  ((exists r, root db = Some r /\ previous n = id r)
   \/ exists p, In p (index db) /\ id p = previous n) ->
  linked db'.
Proof.
  intros db db' n Hl Hr Hin Hn x Hx. rewrite Hr.
  apply Hin in Hx. destruct Hx as [->|Hx].
  - destruct Hn as [?|[p [Hp Hid]]]; auto.
    right. exists p. split; auto. apply Hin. auto.
  - destruct (Hl x Hx) as [?|[p [Hp Hid]]]; auto.
    right. exists p. split; auto. apply Hin. auto.
Qed.

Lemma linked_add_impl : forall n ig v vd db db' r,
  linked db -> add_impl n ig v vd db = (db', r) -> completed r -> linked db'.
Proof.
  intros n ig v vd db db' r Hl H Hc.
  destruct r as [[]|e| |];
    [|apply add_impl_throws in H; now subst
     |destruct Hc as [Hc|[e Hc]]; discriminate
     |destruct Hc as [Hc|[e Hc]]; discriminate].
  destruct n as [n|];
    [|unfold add_impl in H; destruct (root db); discriminate].
  destruct (add_impl_ret_lookup n ig v vd db db' H) as [Hr [_ [_ Hdup]]].
  destruct (get_block_impl db (id n)) as [e|] eqn:Eg.
  - destruct (Hdup e eq_refl) as [_ ->]. exact Hl.
  - destruct ig.
    + (* a new id: the same insertion as without the flag *)
      assert (H' : add_impl (Some n) false v vd db = (db', Ret tt)).
      { revert H. unfold add_impl, index_insert.
        unfold get_block_impl in Eg. rewrite Eg. auto. }
      destruct (add_impl_inserted _ _ _ _ _ H') as [_ [Hi [_ [[rt [Hrt Hp]] _]]]].
      apply (linked_grow db db' n); auto.
      * intros x. rewrite Hi. apply ordered_insert_in.
      * destruct Hp; eauto.
    + destruct (add_impl_inserted _ _ _ _ _ H) as [_ [Hi [_ [[rt [Hrt Hp]] _]]]].
      apply (linked_grow db db' n); auto.
      * intros x. rewrite Hi. apply ordered_insert_in.
      * destruct Hp; eauto.
Qed.

Lemma index_modify_valid_links : forall b i idx,
  (forall x, In x (index_modify_valid b i idx) ->
     exists x0, In x0 idx /\ id x = id x0 /\ previous x = previous x0)
  /\ (forall x0, In x0 idx ->
        exists x, In x (index_modify_valid b i idx) /\ id x = id x0).
Proof.
  intros b i idx. unfold index_modify_valid.
  destruct (index_find i idx) as [e|] eqn:E.
  - destruct (index_find_some _ _ _ E) as [He Hid]. split.
    + intros x Hx. apply ordered_insert_in in Hx. destruct Hx as [->|Hx].
      * exists e. auto.
      * apply index_erase_in in Hx. exists x. tauto.
    + intros x0 Hx0. destruct (N.eq_dec (id x0) i) as [Ei|Ei].
      * exists (set_valid b e). split; [apply ordered_insert_in; now left|].
        simpl. congruence.
      * exists x0. split; auto. apply ordered_insert_in. right.
        now apply index_erase_in.
  - split; intros x Hx; exists x; auto.
Qed.

Lemma linked_same_links : forall db db',
  linked db -> root db' = root db ->
  (forall x, In x (index db') ->
     exists x0, In x0 (index db) /\ id x = id x0 /\ previous x = previous x0) ->
  (forall x0, In x0 (index db) ->
     exists x, In x (index db') /\ id x = id x0) ->
  linked db'.
Proof.
  intros db db' Hl Hr Hback Hforth x Hx. rewrite Hr.
  destruct (Hback x Hx) as [x0 [Hx0 [Hid Hp]]]. rewrite Hp.
  destruct (Hl x0 Hx0) as [?|[p [Hpin Hpid]]]; auto.
  right. destruct (Hforth p Hpin) as [p' [Hp' Hid']].
  exists p'. split; auto. congruence.
Qed.

Lemma linked_mark_valid : forall h db db' r,
  linked db -> mark_valid_impl h db = (db', r) -> linked db'.
Proof.
  intros h db db' r Hl H. unfold mark_valid_impl in H.
  destruct (is_valid h); [now inversion H; subst|].
  destruct (index_find (id h) (index db)); [|now inversion H; subst].
  destruct (index_modify_valid_links true (id h) (index db)) as [Hb Hf].
  assert (G : forall hd', linked (mk_db (index_modify_valid true (id h) (index db))
                                        (root db) hd')).
  { intros hd'. apply (linked_same_links db); auto. }
  destruct (index_modify_valid true (id h) (index db)) as [|c l];
    [inversion H; subst; apply G|].
  destruct (head_after_modify _ (head db)) as [hd|];
    [|inversion H; subst; apply G].
  destruct (first_preferred c hd); inversion H; subst; apply G.
Qed.

Lemma linked_rollback : forall db,
  linked db -> linked (rollback_head_to_root_impl db).
Proof.
  intros db Hl. unfold rollback_head_to_root_impl.
  assert (G : forall ids idx,
            (forall x, In x (fold_left (fun acc i => index_modify_valid false i acc) ids idx) ->
               exists x0, In x0 idx /\ id x = id x0 /\ previous x = previous x0)
            /\ (forall x0, In x0 idx ->
                  exists x, In x (fold_left (fun acc i => index_modify_valid false i acc) ids idx)
                            /\ id x = id x0)).
  { induction ids as [|i ids IH]; intros idx; simpl.
    - split; intros x Hx; exists x; auto.
    - destruct (IH (index_modify_valid false i idx)) as [Hb Hf].
      destruct (index_modify_valid_links false i idx) as [Hb1 Hf1]. split.
      + intros x Hx. destruct (Hb x Hx) as [x1 [Hx1 [E1 E2]]].
        destruct (Hb1 x1 Hx1) as [x0 [Hx0 [E3 E4]]].
        exists x0. repeat split; congruence.
      + intros x0 Hx0. destruct (Hf1 x0 Hx0) as [x1 [Hx1 E1]].
        destruct (Hf x1 Hx1) as [x [Hx E2]]. exists x. split; congruence. }
  destruct (G (map id (index db)) (index db)) as [Hb Hf].
  apply (linked_same_links db); auto.
Qed.

Lemma linked_remove : forall fuel i db db' r,
  linked db -> remove_impl fuel i db = (db', r) -> linked db'.
Proof.
  intros fuel i db db' r Hl H.
  destruct (remove_impl_shape _ _ _ _ _ H) as [Hn _].
  destruct r as [[]|e| |]; try (rewrite Hn by discriminate; exact Hl).
  destruct (remove_impl_ret_index _ _ _ _ H) as [Hr [_ [_ Hin]]].
  intros n Hnin. rewrite Hr. apply Hin in Hnin.
  destruct Hnin as [Hn0 [Hne Hnd]].
  destruct (Hl n Hn0) as [?|[p [Hp Hid]]]; auto.
  right. exists p. split; auto. apply Hin. split; auto. split.
  - intros E. apply Hnd. rewrite <- E, Hid. now apply descends_child.
  - intros Hd. apply Hnd. apply descends_step; auto. now rewrite <- Hid.
Qed.

(** What a returning sequence of removes leaves: no child of a removed id,
    and with every entry its parent, if that was there before. *)
Lemma remove_each_links : forall fuel ids db db',
  remove_each fuel ids db = (db', Ret tt) ->
  (forall n, In n (index db') -> In n (index db))
  /\ (forall n x, In n (index db') -> In x ids -> previous n <> x)
  /\ (forall n p, In n (index db') -> In p (index db) ->
                  id p = previous n -> In p (index db')).
Proof.
  intros fuel. induction ids as [|x ids IH]; intros db db' H; simpl in H.
  - inversion H; subst. split; [auto|]. split; [|auto]. intros n y _ [].
  - destruct (remove_impl fuel x db) as [db1 r1] eqn:E.
    destruct r1 as [[]|e| |]; try discriminate.
    destruct (remove_impl_ret_index _ _ _ _ E) as [_ [_ [_ Hin]]].
    destruct (IH _ _ H) as [Hsub [Hno Hup]].
    split; [|split].
    + intros n Hn. apply Hsub in Hn. apply Hin in Hn. tauto.
    + intros n y Hn [<-|Hy]; [|now apply Hno].
      apply Hsub in Hn. apply Hin in Hn. destruct Hn as [Hn [_ Hnd]].
      intros Ep. apply Hnd. now apply descends_child.
    + intros n p Hn Hp Hid. apply (Hup n p); auto.
      pose proof (Hsub n Hn) as Hn1. apply Hin in Hn1.
      destruct Hn1 as [Hn0 [Hne Hnd]].
      apply Hin. split; auto. split.
      * intros Ee. apply Hnd. rewrite <- Ee, Hid. now apply descends_child.
      * intros Hd. apply Hnd. apply descends_step; auto. now rewrite <- Hid.
Qed.

Lemma linked_advance_root : forall fuel i db db' r,
  linked db -> advance_root_impl fuel i db = (db', r) ->
  r <> Throw WouldRemoveHead -> completed r -> linked db'.
Proof.
  intros fuel i db db' r Hl H Hnw Hc.
  destruct r as [[]|e| |];
    [|apply advance_root_impl_throws in H; [now subst|congruence]
     |destruct Hc as [Hc|[e Hc]]; discriminate
     |destruct Hc as [Hc|[e Hc]]; discriminate].
  unfold advance_root_impl in H.
  destruct (root db) as [rt|] eqn:Hrt; [|discriminate].
  unfold get_block_impl in H.
  destruct (index_find i (index db)) as [nr|] eqn:Ef; [|discriminate].
  destruct (is_valid nr); simpl in H; [|discriminate].
  destruct (collect_blocks_to_remove fuel db (id rt) nr []) as [ids|e| |] eqn:Ec;
    try discriminate.
  set (db1 := mk_db (index_erase i (index db)) (Some rt) (head db)) in *.
  destruct (remove_each fuel ids db1) as [db2 r2] eqn:Er.
  destruct r2 as [[]|e| |]; try discriminate.
  inversion H; subst db'; clear H.
  destruct (index_find_some _ _ _ Ef) as [Hnr Hnrid].
  destruct (collect_blocks_to_remove_ret _ _ _ _ _ _ Ec) as [l [_ [Hids Hlast]]].
  simpl in Hids.
  assert (Hroot : In (id rt) ids).
  { rewrite Hids, <- Hlast. apply (last_previous_in l nr). }
  destruct (remove_each_links _ _ _ _ Er) as [Hsub [Hno Hup]]. simpl in *.
  intros n Hn. simpl.
  pose proof (Hsub n Hn) as Hn1. apply index_erase_in in Hn1.
  destruct Hn1 as [Hn0 Hne].
  destruct (Hl n Hn0) as [[r' [Hr' Hp]]|[p [Hp Hid]]].
  - exfalso. rewrite Hrt in Hr'. inversion Hr'; subst r'.
    now apply (Hno n (id rt) Hn Hroot).
  - destruct (N.eq_dec (id p) i) as [Ei|Ei].
    + left. exists nr. split; auto. congruence.
    + right. exists p. split; auto. apply (Hup n p); auto.
      now apply index_erase_in.
Qed.

(** ** open, case by case *)

Lemma open_add_all_outcome : forall vd blocks db db1 r1,
  (exists rt, root db = Some rt) -> linked db ->
  open_add_all vd blocks db = (db1, r1) ->
  root db1 = root db /\ linked db1
  /\ (r1 = Ret tt \/ r1 = Throw Unlinkable \/ r1 = Throw ValidatorRejected
      \/ r1 = Throw Duplicate)
  /\ (r1 = Ret tt ->
      index db1 = insert_all blocks (index db)
      /\ (NoDup (map id (index db)) -> NoDup (map id (index db1)))
      /\ (ordered (index db) -> ordered (index db1))).
Proof.
  intros vd. induction blocks as [|s rest IH]; intros db db1 r1 Hroot Hl H;
    simpl in H.
  - inversion H; subst. repeat split; auto.
  - destruct (add_impl (Some s) false true vd db) as [db0 r0] eqn:E.
    destruct (add_impl_outcome _ _ _ _ _ _ _ E Hroot) as [Hout Hr0].
    assert (Hl0 : linked db0).
    { apply (linked_add_impl _ _ _ _ _ _ _ Hl E).
      destruct Hout as [->|[_ [->|[->| ->]]]]; [now left|right..]; eauto. }
    destruct r0 as [[]|e| |].
    + destruct (add_impl_inserted _ _ _ _ _ E) as [_ [Hi [Hfresh _]]].
      destruct (IH db0 db1 r1) as [Hr [Hl1 [Ho Hret]]]; auto.
      { destruct Hroot as [rt Hrt]. exists rt. congruence. }
      split; [congruence|]. split; [auto|]. split; [auto|].
      intros Hr1. destruct (Hret Hr1) as [Hidx [Hnd Hord]].
      split; [|split].
      * rewrite Hidx, Hi. reflexivity.
      * intros Hnd0. apply Hnd. rewrite Hi. apply ordered_insert_nodup; auto.
        now apply index_find_none.
      * intros Ho0. apply Hord. rewrite Hi. apply ordered_insert_ordered; auto.
        now apply index_find_none.
    + inversion H; subst.
      destruct Hout as [Hout|[_ Hout]]; [discriminate|].
      split; [auto|]. split; [auto|]. split; [tauto|discriminate].
    + destruct Hout as [Hout|[_ [Hout|[Hout|Hout]]]]; discriminate.
    + destruct Hout as [Hout|[_ [Hout|[Hout|Hout]]]]; discriminate.
Qed.

Lemma open_check_outcome : forall db h r,
  head db = Some h -> root db = Some r ->
  open_check db = Ret tt \/ open_check db = Throw Corrupt.
Proof.
  intros db h r Hh Hr. unfold open_check. rewrite Hh, Hr. simpl.
  destruct (index db) as [|c l].
  - destruct (id h =? id r); auto.
  - destruct (is_valid c).
    + destruct (first_preferred c h); simpl; auto.
    + destruct (id h =? id r); auto.
Qed.

(** The paths through [open_impl] on an existing file. *)
Lemma open_file_cases : forall m vd f db db' r file',
  open_file m vd f db = ((db', r), file') ->
  (f_magic f <> m /\ db' = db /\ r = Throw BadMagic /\ file' = Some f)
  \/ (f_magic f = m /\ f_version f <> 1 /\ db' = db
      /\ r = Throw UnsupportedVersion /\ file' = Some f)
  \/ (f_magic f = m /\ f_version f = 1
      /\ exists db1 r1,
           open_add_all vd (f_blocks f) (reset_impl (f_root f) db) = (db1, r1)
           /\ ((r1 <> Ret tt /\ db' = db1 /\ r = r1 /\ file' = Some f)
               \/ (r1 = Ret tt /\ index db' = index db1 /\ root db' = root db1
                   /\ ((r = Ret tt /\ file' = None /\ open_check db' = Ret tt
                        /\ option_map id (head db') = f_head_id f
                        /\ (head db' = root db1
                            \/ exists h, head db' = Some h /\ In h (index db1)))
                       \/ (r = Throw Corrupt /\ file' = Some f))))).
Proof.
  intros m vd f db db' r file' H. unfold open_file in H.
  destruct (N.eqb_spec (f_magic f) m) as [Em|Em]; simpl in H;
    [|left; inversion H; subst; auto].
  right.
  assert (Ev : (f_version f = 1 /\
                negb ((min_supported_version <=? f_version f)
                      && (f_version f <=? max_supported_version)) = false)
               \/ (f_version f <> 1 /\
                   negb ((min_supported_version <=? f_version f)
                         && (f_version f <=? max_supported_version)) = true)).
  { unfold min_supported_version, max_supported_version.
    destruct (N.leb_spec 1 (f_version f)); destruct (N.leb_spec (f_version f) 1);
      simpl; [left|right..]; split; auto; lia. }
  destruct Ev as [[Ev Eb]|[Ev Eb]]; rewrite Eb in H;
    [|left; inversion H; subst; auto].
  right. split; [auto|]. split; [auto|].
  destruct (open_add_all vd (f_blocks f) (reset_impl (f_root f) db))
    as [db1 r1] eqn:Ea.
  exists db1, r1. split; [reflexivity|].
  destruct (open_add_all_outcome vd (f_blocks f) (reset_impl (f_root f) db)
              db1 r1) as [Hr1 [_ [Hout _]]];
    [simpl; eauto|intros n []|exact Ea|].
  simpl in Hr1.
  destruct r1 as [[]|e| |];
    try (left; inversion H; subst; repeat split; auto; discriminate).
  right. split; [reflexivity|].
  destruct (f_head_id f) as [hid|] eqn:Ehid;
    [|inversion H; subst; auto 8].
  rewrite Hr1 in H.
  match type of H with
  | context [id ?x =? hid] => set (rt := x) in *
  end.
  destruct (N.eqb_spec (id rt) hid) as [Eh|Eh].
  - destruct (open_check_outcome (mk_db (index db1) (Some rt) (Some rt)) rt rt
                eq_refl eq_refl) as [Ec|Ec];
      rewrite Ec in H; inversion H; subst; simpl; rewrite Hr1.
    + split; [auto|]. split; [auto|]. left.
      repeat split; auto.
    + auto 8.
  - destruct (get_block_impl db1 hid) as [h|] eqn:Eg;
      [|inversion H; subst; simpl; rewrite Hr1; auto 8].
    apply index_find_some in Eg. destruct Eg as [Hin Hid].
    destruct (open_check_outcome (mk_db (index db1) (Some rt) (Some h)) h rt
                eq_refl eq_refl) as [Ec|Ec];
      rewrite Ec in H; inversion H; subst; simpl; rewrite Hr1.
    + split; [auto|]. split; [auto|]. left.
      split; [auto|]. split; [auto|]. split; [auto|]. split; [auto|].
      right. eauto.
    + auto 8.
Qed.

Lemma linked_open : forall m vd file db db' r file',
  linked db -> open_impl m vd file db = ((db', r), file') -> linked db'.
Proof.
  intros m vd [f|] db db' r file' Hl H; simpl in H;
    [|now inversion H; subst].
  destruct (open_file_cases _ _ _ _ _ _ _ H)
    as [[_ [-> _]]|[[_ [_ [-> _]]]|[_ [_ [db1 [r1 [Ea Hc]]]]]]]; auto.
  destruct (open_add_all_outcome vd (f_blocks f) (reset_impl (f_root f) db)
              db1 r1) as [_ [Hl1 _]];
    [simpl; eauto|intros n []|exact Ea|].
  destruct Hc as [[_ [-> _]]|[_ [Hi [Hr _]]]]; auto.
  intros n Hn. rewrite Hi in *. rewrite Hr. now apply Hl1.
Qed.

Lemma linked_step : forall o db db' r,
  linked db -> apply_op o db = (db', r) -> completed r -> ~ orphaning o r ->
  linked db'.
Proof.
  intros o db db' r Hl H Hc Ho. destruct o; simpl in H.
  - inversion H; subst. intros n [].
  - unfold add in H. apply (linked_add_impl _ _ _ _ _ _ _ Hl H Hc).
  - apply (linked_mark_valid _ _ _ _ Hl H).
  - inversion H; subst. now apply linked_rollback.
  - apply (linked_advance_root _ _ _ _ _ Hl H); auto.
  - apply (linked_remove _ _ _ _ _ Hl H).
  - inversion H; subst. unfold close_impl.
    destruct (root db); simpl; auto. intros n [].
  - destruct (open_impl magic_number validator file db) as [[d q] f'] eqn:E.
    simpl in H. inversion H; subst. apply (linked_open _ _ _ _ _ _ _ Hl E).
Qed.

Lemma db_line_reachable_linked : reachable_linked db_line.
Proof.
  apply (reachable_linked_op db_pending (OpAdd (Some C3) false) db_line (Ret tt));
    [|reflexivity|now left|intros []].
  apply (reachable_linked_op (run [add (Some A1) false] (reset_impl R0 empty_db))
           (OpAdd (Some B2) false) db_pending (Ret tt));
    [|reflexivity|now left|intros []].
  apply (reachable_linked_op (reset_impl R0 empty_db)
           (OpAdd (Some A1) false) _ (Ret tt));
    [|reflexivity|now left|intros []].
  apply (reachable_linked_op empty_db (OpReset R0) _ (Ret tt));
    [constructor|reflexivity|now left|intros []].
Qed.

(** X7.  Every [previous] stays resolvable: in a state reached from the
    freshly constructed database by calls that came back, none of them an
    [advance_root] that failed with "would remove head", the parent of each
    stored block state is the root or another stored block state.  This
    covers [open] on any file and with any validator, also when it throws
    half-way through the file. *)
Theorem previous_always_resolves : forall db,
  reachable_linked db -> linked db.
Proof.
  intros db H. induction H as [|db o db' r _ IH Hop Hc Ho].
  - intros n [].
  - exact (linked_step o db db' r IH Hop Hc Ho).
Qed.

Lemma previous_always_resolves_witness :
  reachable_linked db_line /\ linked db_line.
Proof.
  split; [exact db_line_reachable_linked|].
  apply (previous_always_resolves db_line). exact db_line_reachable_linked.
Defined.

Lemma open_check_ret : forall db,
  open_check db = Ret tt -> ordered (index db) ->
  exists h r, head db = Some h /\ root db = Some r
    /\ (forall n, In n (index db) -> is_valid n = true ->
                  first_preferred n h = false)
    /\ ((forall n, In n (index db) -> is_valid n = false) -> id h = id r).
Proof.
  intros db H Ho. unfold open_check in H.
  destruct (head db) as [h|]; [|discriminate].
  destruct (root db) as [r|]; [|discriminate]. simpl in H.
  exists h, r. split; [auto|]. split; [auto|].
  destruct (index db) as [|c l] eqn:E.
  - split; [intros n []|]. intros _.
    destruct (N.eqb_spec (id h) (id r)); [auto|discriminate].
  - destruct (is_valid c) eqn:Ec.
    + destruct (first_preferred c h) eqn:Ef; [discriminate|]. split.
      * intros n Hn Hv.
        apply (first_preferred_neg_trans n c h); auto.
        apply (ordered_hd_best c l Ho Ec n Hn Hv).
      * intros Hall. rewrite (Hall c (or_introl eq_refl)) in Ec. discriminate.
    + split.
      * intros n Hn Hv. rewrite (ordered_hd_valid c l Ho Ec n Hn) in Hv.
        discriminate.
      * intros _. destruct (N.eqb_spec (id h) (id r)); [auto|discriminate].
Qed.

(** X8.  How [open] comes back.  It always comes back: with a normal return,
    and then the file is gone, or with one of six exceptions, and then the
    file, which existed, is still there.  A wrong magic number or an
    unsupported version is reported before the database is touched. *)
Theorem open_outcomes : forall m vd file db,
  match open_impl m vd file db with
  | ((_, Ret _), file') => file' = None
  | ((db', Throw e), file') =>
      file' = file /\ file <> None
      /\ (e = BadMagic \/ e = UnsupportedVersion \/ e = Unlinkable
          \/ e = ValidatorRejected \/ e = Duplicate \/ e = Corrupt)
      /\ (e = BadMagic \/ e = UnsupportedVersion -> db' = db)
  | _ => False
  end.
Proof.
  intros m vd [f|] db; simpl; [|reflexivity].
  destruct (open_file m vd f db) as [[db' r] file'] eqn:E.
  destruct (open_file_cases _ _ _ _ _ _ _ E)
    as [[_ [-> [-> ->]]]|[[_ [_ [-> [-> ->]]]]|[_ [_ [db1 [r1 [Ea Hc]]]]]]].
  - split; [auto|]. split; [discriminate|]. split; auto.
  - split; [auto|]. split; [discriminate|]. split; auto.
  - destruct (open_add_all_outcome vd (f_blocks f) (reset_impl (f_root f) db)
                db1 r1) as [_ [_ [Hout _]]];
      [simpl; eauto|intros n []|exact Ea|].
    destruct Hc as [[Hn [-> [-> ->]]]|[_ [_ [_ [[-> [-> _]]|[-> ->]]]]]].
    + destruct Hout as [->|[->|[->| ->]]]; [now elim Hn|..];
        (split; [auto|]; split; [discriminate|]; split;
         [tauto|intros [?|?]; discriminate]).
    + reflexivity.
    + split; [auto|]. split; [discriminate|]. split; [tauto|].
      intros [?|?]; discriminate.
Qed.

(** X9.  What a successful [open] leaves behind.  The magic number and the
    version matched; the root is the stored root header, validated; the index
    holds exactly the stored block states, whose ids are distinct, in index
    order, each linked to the root or to another of them; the head is the
    root or a stored block state and carries the stored head id; no validated
    entry is preferred to it, and it is the root when no entry is validated.
    What the database held before plays no part. *)
Theorem open_loads_the_file : forall m vd f db db' file',
  open_impl m vd (Some f) db = ((db', Ret tt), file') ->
  f_magic f = m /\ f_version f = 1
  /\ root db' = Some (mk_bs (bhs_id (f_root f)) (bhs_previous (f_root f))
                            (bhs_block_num (f_root f))
                            (bhs_irreversible_blocknum (f_root f)) true)
  /\ Permutation (index db') (f_blocks f)
  /\ NoDup (map id (f_blocks f))
  /\ ordered (index db')
  /\ linked db'
  /\ (exists h r,
        head db' = Some h /\ root db' = Some r
        /\ f_head_id f = Some (id h)
        /\ (h = r \/ In h (index db'))
        /\ (forall n, In n (index db') -> is_valid n = true ->
                      first_preferred n h = false)
        /\ ((forall n, In n (index db') -> is_valid n = false) ->
            id h = id r))
  /\ forall other, open_impl m vd (Some f) other = ((db', Ret tt), None).
Proof.
  intros m vd f db db' file' H. simpl in H.
  destruct (open_file_cases _ _ _ _ _ _ _ H)
    as [[_ [_ [F _]]]|[[_ [_ [_ [F _]]]]|[Em [Ev [db1 [r1 [Ea Hc]]]]]]];
    try discriminate.
  destruct (open_add_all_outcome vd (f_blocks f) (reset_impl (f_root f) db)
              db1 r1) as [Hr1 [Hl1 [_ Hret]]];
    [simpl; eauto|intros n []|exact Ea|].
  destruct Hc as [[Hn [_ [F _]]]|[-> [Hi [Hr [[_ [-> [Hck [Hid Hh]]]]|[F _]]]]]];
    try discriminate; [now elim Hn; symmetry|].
  destruct (Hret eq_refl) as [Hidx [Hnd Hord]]. simpl in Hidx, Hnd, Hord, Hr1.
  assert (Hperm : Permutation (index db') (f_blocks f)).
  { rewrite Hi, Hidx, <- insert_all_perm, app_nil_r. symmetry.
    apply Permutation_rev. }
  assert (Ho : ordered (index db')).
  { rewrite Hi. apply Hord. constructor. }
  split; [auto|]. split; [auto|]. split; [congruence|]. split; [auto|].
  split.
  { apply (Permutation_NoDup (l := map id (index db'))).
    - now apply Permutation_map.
    - rewrite Hi. apply Hnd. constructor. }
  split; [auto|]. split.
  { intros n Hn. rewrite Hi in *. rewrite Hr. now apply Hl1. }
  split.
  - destruct (open_check_ret db' Hck Ho) as [h [r [Hhd [Hrt [Hbest Hnone]]]]].
    exists h, r. split; [auto|]. split; [auto|]. split.
    { rewrite Hhd in Hid. simpl in Hid. auto. }
    split; [|auto].
    destruct Hh as [Hh|[h' [Hh Hin]]].
    + left. congruence.
    + right. rewrite Hi. congruence.
  - intros other. simpl. clear - H Em Ev. unfold open_file in *.
    rewrite Em, N.eqb_refl, Ev in *. exact H.
Qed.

Lemma open_loads_the_file_witness :
  open_impl 7 (fun _ _ => true) (Some file_pending_head) db_fork
  = ((db_opened, Ret tt), None)
  /\ Permutation (index db_opened) [A1; X9]
  /\ option_map id (head db_opened) = Some 9.
Proof.
  destruct (open_loads_the_file 7 (fun _ _ => true) file_pending_head db_fork
              db_opened None eq_refl)
    as [_ [_ [_ [Hp [_ [_ [_ [[h [r [Hh [_ [Hid _]]]]] _]]]]]]]].
  split; [reflexivity|]. split; [exact Hp|].
  rewrite Hh. simpl. now inversion Hid.
Defined.

(** ** close, then close or open again *)

(** X10.  Closing twice loses the blocks.  With a root and a head set, the
    first [close] empties the index but keeps root and head, so a second
    [close] changes nothing more and overwrites the file with one that stores
    no block state next to the old head id.  [open] on that file returns only
    when the head was the root; otherwise it throws and leaves the database
    with the root alone and no head. *)
Theorem close_twice_loses_the_blocks : forall m vd db r h other,
  root db = Some r -> head db = Some h ->
  let db1 := fst (close_impl m db) in
  let file2 := snd (close_impl m db1) in
  fst (close_impl m db1) = db1
  /\ option_map f_blocks file2 = Some []
  /\ option_map f_head_id file2 = Some (Some (id h))
  /\ fst (open_impl m vd file2 other)
     = if id r =? id h
       then (mk_db [] (Some (set_valid true r)) (Some (set_valid true r)),
             Ret tt)
       else (mk_db [] (Some (set_valid true r)) None, Throw Corrupt).
Proof.
  intros m vd db r h other Hr Hh. unfold close_impl. rewrite Hr, Hh. simpl.
  split; [auto|]. split; [auto|]. split; [auto|].
  unfold open_file. simpl. rewrite N.eqb_refl. simpl.
  unfold set_valid. destruct r as [ri rp rn rl rv]; simpl.
  destruct (ri =? id h) eqn:E; [|reflexivity].
  unfold open_check. simpl. rewrite N.eqb_refl. reflexivity.
Qed.

Lemma close_twice_loses_the_blocks_witness :
  snd (fst (open_impl 7 (fun _ _ => true)
              (snd (close_impl 7 (fst (close_impl 7 db_pending)))) empty_db))
  = Throw Corrupt.
Proof.
  destruct (close_twice_loses_the_blocks 7 (fun _ _ => true) db_pending root0 A1
              empty_db eq_refl eq_refl) as [_ [_ [_ H]]].
  exact (f_equal snd H).
Defined.

(** X11.  [close] writes every block state after its parent.  In a tree whose
    irreversible block numbers do not decrease from parent to child, each
    block state of the file has the root as its parent or follows its parent
    in the file, which is what lets [open] add them back one by one. *)
Theorem close_writes_parents_first : forall m db r file,
  root db = Some r -> tree db -> irr_monotone db -> ordered (index db) ->
  snd (close_impl m db) = Some file ->
  forall done s rest, f_blocks file = done ++ s :: rest ->
    previous s = id r \/ exists p, In p done /\ id p = previous s.
Proof.
  intros m db r file Hr Ht Hirr Ho Hc done s rest E.
  unfold close_impl in Hc. rewrite Hr in Hc. simpl in Hc.
  inversion Hc; subst file; clear Hc. simpl in E.
  destruct (close_order_links (fun _ _ => true) db r Hr Ht Hirr Ho
              (fun _ _ _ _ => eq_refl) done s rest E) as [p [Hp _]].
  destruct (N.eqb_spec (id r) (previous s)) as [Eq|_]; [now left|].
  right. apply index_find_some in Hp. exists p. exact Hp.
Qed.

Lemma close_writes_parents_first_witness :
  snd (close_impl 7 db_pending)
  = Some (mk_file 7 1 R0 [A1; B2] (Some 2))
  /\ (previous B2 = id root0 \/ exists p, In p [A1] /\ id p = previous B2).
Proof.
  split; [reflexivity|].
  destruct db_pending_tree as [Ht Hi].
  apply (close_writes_parents_first 7 db_pending root0
           (mk_file 7 1 R0 [A1; B2] (Some 2)) eq_refl Ht Hi)
    with (rest := []); [prove_ordered|reflexivity|reflexivity].
Defined.

(** ** The order of the stored block states *)

Lemma add_impl_head : forall n v vd db db',
  add_impl (Some n) false v vd db = (db', Ret tt) ->
  head db' = match index db' with
             | c :: _ => if is_valid c then Some c else head db
             | [] => head db
             end.
Proof.
  intros n v vd db db' H. unfold add_impl in H.
  destruct (root db) as [rt|]; [|discriminate].
  destruct (get_block_header_impl db (previous n)) as [[p|]|e| |];
    try discriminate.
  destruct (v && negb (vd n p)); [discriminate|].
  unfold index_insert in H.
  destruct (index_find (id n) (index db)) as [e|]; simpl in H;
    [discriminate|].
  destruct (ordered_insert n (index db)) as [|c l]; [discriminate|].
  destruct (is_valid c) eqn:Ec; inversion H; subst; simpl; now rewrite Ec.
Qed.

Lemma insert_all_keeps : forall blocks idx x,
  In x idx -> In x (insert_all blocks idx).
Proof.
  intros blocks idx x Hx.
  apply (Permutation_in _ (insert_all_perm blocks idx)).
  apply in_or_app. now right.
Qed.

Lemma open_add_all_index : forall vd blocks db db1,
  open_add_all vd blocks db = (db1, Ret tt) ->
  root db1 = root db
  /\ index db1 = insert_all blocks (index db)
  /\ (ordered (index db) -> ordered (index db1)).
Proof.
  intros vd. induction blocks as [|s rest IH]; intros db db1 H; simpl in H.
  - inversion H; subst. auto.
  - destruct (add_impl (Some s) false true vd db) as [db0 r0] eqn:E.
    destruct r0 as [[]|e| |]; try discriminate.
    destruct (add_impl_inserted _ _ _ _ _ E) as [Hr0 [Hi0 [Hfresh _]]].
    destruct (IH _ _ H) as [Hr [Hi Ho]].
    split; [congruence|]. split.
    + rewrite Hi, Hi0. reflexivity.
    + intros Ho0. apply Ho. rewrite Hi0. apply ordered_insert_ordered; auto.
      now apply index_find_none.
Qed.

Lemma open_add_all_head : forall vd blocks db db1,
  ordered (index db) ->
  open_add_all vd blocks db = (db1, Ret tt) ->
  head db1 = match blocks, index db1 with
             | _ :: _, c :: _ => if is_valid c then Some c else head db
             | _, _ => head db
             end.
Proof.
  intros vd. induction blocks as [|s rest IH]; intros db db1 Ho H.
  - simpl in H. inversion H; subst. reflexivity.
  - simpl in H.
    destruct (add_impl (Some s) false true vd db) as [db0 r0] eqn:E.
    destruct r0 as [[]|e| |]; try discriminate.
    destruct (add_impl_inserted _ _ _ _ _ E) as [Hr0 [Hi0 [Hfresh _]]].
    pose proof (add_impl_head _ _ _ _ _ E) as Hh0.
    assert (Ho0 : ordered (index db0)).
    { rewrite Hi0. apply ordered_insert_ordered; auto.
      now apply index_find_none. }
    destruct (open_add_all_index _ _ _ _ H) as [_ [Hi1 Ho1]].
    specialize (Ho1 Ho0). rewrite (IH _ _ Ho0 H).
    destruct rest as [|s' rest'].
    + simpl in H. inversion H; subst db1. exact Hh0.
    + assert (Hsub : forall x, In x (index db0) -> In x (index db1)).
      { intros x Hx. rewrite Hi1. now apply insert_all_keeps. }
      assert (Hs : In s (index db0)).
      { rewrite Hi0. apply ordered_insert_in. now left. }
      destruct (index db1) as [|c l] eqn:Ec; [destruct (Hsub s Hs)|].
      destruct (is_valid c) eqn:Ev; [reflexivity|].
      rewrite Hh0. destruct (index db0) as [|c0 l0] eqn:Ec0; [reflexivity|].
      now rewrite (ordered_hd_valid c l Ho1 Ev c0 (Hsub c0 (or_introl eq_refl))).
Qed.

Lemma open_add_all_permuted : forall vd l1 l2 db db1 db2,
  ordered (index db) -> Permutation l1 l2 ->
  open_add_all vd l1 db = (db1, Ret tt) ->
  open_add_all vd l2 db = (db2, Ret tt) ->
  db1 = db2.
Proof.
  intros vd l1 l2 db db1 db2 Ho Hp H1 H2.
  destruct (open_add_all_index _ _ _ _ H1) as [Hr1 [Hi1 Ho1]].
  destruct (open_add_all_index _ _ _ _ H2) as [Hr2 [Hi2 Ho2]].
  pose proof (open_add_all_head _ _ _ _ Ho H1) as Hh1.
  pose proof (open_add_all_head _ _ _ _ Ho H2) as Hh2.
  assert (Hidx : index db1 = index db2).
  { apply ordered_perm_eq; auto.
    rewrite Hi1, Hi2.
    apply (Permutation_trans (Permutation_sym (insert_all_perm l1 (index db)))).
    apply (Permutation_trans (l' := rev l2 ++ index db));
      [|apply insert_all_perm].
    apply Permutation_app_tail.
    apply (Permutation_trans (Permutation_sym (Permutation_rev l1))).
    apply (Permutation_trans Hp). apply Permutation_rev. }
  assert (Hhd : head db1 = head db2).
  { rewrite Hh1, Hh2, Hidx. destruct l1 as [|a1 l1'], l2 as [|a2 l2']; auto.
    - apply Permutation_nil in Hp. discriminate.
    - symmetry in Hp. apply Permutation_nil in Hp. discriminate. }
  destruct db1, db2; simpl in *. congruence.
Qed.

(** X12.  The order of the block states in the file does not matter to
    [open].  Two files with the same root, the same head id and the same block
    states in different orders, when both open, give the same database. *)
Theorem open_ignores_block_order : forall m vd f1 f2 db db1 db2 k1 k2,
  f_root f1 = f_root f2 -> f_head_id f1 = f_head_id f2 ->
  Permutation (f_blocks f1) (f_blocks f2) ->
  open_impl m vd (Some f1) db = ((db1, Ret tt), k1) ->
  open_impl m vd (Some f2) db = ((db2, Ret tt), k2) ->
  db1 = db2.
Proof.
  intros m vd f1 f2 db db1 db2 k1 k2 Hroot Hhid Hp H1 H2. simpl in H1, H2.
  assert (Hshape : forall f d k,
            open_file m vd f db = ((d, Ret tt), k) ->
            exists d1 hid,
              open_add_all vd (f_blocks f) (reset_impl (f_root f) db)
              = (d1, Ret tt)
              /\ f_head_id f = Some hid
              /\ d = mk_db (index d1) (root d1)
                          (match root d1 with
                           | Some r => if id r =? hid then root d1
                                       else get_block_impl d1 hid
                           | None => None
                           end)).
  { clear. intros f d k H.
    destruct (open_file_cases _ _ _ _ _ _ _ H)
      as [[_ [_ [F _]]]|[[_ [_ [_ [F _]]]]|[Em [Ev [d1 [r1 [Ea Hc]]]]]]];
      try discriminate.
    destruct Hc as [[Hn [_ [F _]]]|[-> [_ [_ [[_ [-> _]]|[F _]]]]]];
      try discriminate; [now elim Hn; symmetry|].
    unfold open_file in H. rewrite Em, N.eqb_refl, Ev, Ea in H. simpl in H.
    exists d1. destruct (f_head_id f) as [hid|]; [|discriminate].
    exists hid. split; [auto|]. split; [auto|].
    destruct (root d1) as [r|]; [|discriminate].
    destruct (id r =? hid).
    - destruct (open_check _); inversion H; subst; reflexivity.
    - destruct (get_block_impl d1 hid) as [h|]; [|discriminate].
      destruct (open_check _); inversion H; subst; reflexivity. }
  destruct (Hshape _ _ _ H1) as [d1 [hid1 [Ea1 [Eh1 ->]]]].
  destruct (Hshape _ _ _ H2) as [d2 [hid2 [Ea2 [Eh2 ->]]]].
  rewrite Hroot in Ea1.
  assert (Ed : d1 = d2).
  { apply (open_add_all_permuted vd (f_blocks f1) (f_blocks f2)
             (reset_impl (f_root f2) db)); auto. constructor. }
  assert (Eh : hid1 = hid2) by congruence.
  subst. reflexivity.
Qed.

Lemma open_ignores_block_order_witness :
  open_impl 7 (fun _ _ => true) (Some (mk_file 7 1 R0 [X9; A1] (Some 9)))
            empty_db
  = ((db_opened, Ret tt), None).
Proof.
  rewrite (open_ignores_block_order 7 (fun _ _ => true)
             file_pending_head (mk_file 7 1 R0 [X9; A1] (Some 9)) empty_db
             db_opened
             (fst (fst (open_impl 7 (fun _ _ => true)
                          (Some (mk_file 7 1 R0 [X9; A1] (Some 9))) empty_db)))
             None None eq_refl eq_refl
             (perm_swap X9 A1 []) eq_refl eq_refl).
  reflexivity.
Defined.

(** ** remove, then look up or remove again *)

Lemma index_find_filter : forall (keep : bs -> bool) i idx,
  (forall e, In e idx -> id e = i -> keep e = true) ->
  index_find i (filter keep idx) = index_find i idx.
Proof.
  intros keep i. unfold index_find.
  induction idx as [|e l IH]; intros Hk; simpl; [reflexivity|].
  destruct (N.eqb_spec (id e) i) as [E|E].
  - rewrite (Hk e (or_introl eq_refl) E). simpl.
    destruct (N.eqb_spec (id e) i); [reflexivity|contradiction].
  - destruct (keep e); simpl.
    + destruct (N.eqb_spec (id e) i); [contradiction|].
      apply IH. intros x Hx. apply Hk. now right.
    + apply IH. intros x Hx. apply Hk. now right.
Qed.

Lemma remove_impl_again : forall fuel i db db',
  remove_impl fuel i db = (db', Ret tt) ->
  remove_impl fuel i db' = (db', Ret tt).
Proof.
  intros fuel i db db' H.
  destruct (remove_impl_ret_index _ _ _ _ H)
    as [Hr [Hh [[h [Hhd [Hne _]]] Hin]]].
  assert (Hfuel : exists f, fuel = S f).
  { unfold remove_impl in H. rewrite Hhd in H.
    destruct fuel as [|f]; [discriminate|eauto]. }
  destruct Hfuel as [f ->].
  assert (Hkids : children_of i (index db') = []).
  { destruct (children_of i (index db')) as [|c l] eqn:E; [reflexivity|].
    assert (Hc : In c (children_of i (index db'))) by (rewrite E; now left).
    unfold children_of in Hc. apply filter_In in Hc. destruct Hc as [Hc Hp].
    apply N.eqb_eq in Hp. apply Hin in Hc. destruct Hc as [Hc [_ Hnd]].
    exfalso. apply Hnd. now apply descends_child. }
  unfold remove_impl. rewrite Hh, Hhd. simpl.
  destruct (N.eqb_spec i (id h)) as [E|_]; [exfalso; congruence|].
  rewrite Hkids. simpl.
  replace (remove_scan f (id h) (index db') [i] []) with (Ret [i])
    by (destruct f; reflexivity).
  simpl.
  replace (index_erase i (index db')) with (index db').
  - rewrite <- Hhd, <- Hh. destruct db'; reflexivity.
  - symmetry. unfold index_erase. apply filter_all.
    intros x Hx. apply filter_In. split; [auto|].
    apply negb_true_iff, N.eqb_neq. now apply Hin in Hx.
Qed.

(** X13.  After a [remove] that returned, the removed id and every id below
    it are no longer found, every other id is found as before, and removing
    the same id again returns without changing anything. *)
Theorem remove_then_lookup : forall fuel i db db',
  remove_impl fuel i db = (db', Ret tt) ->
  get_block_impl db' i = None
  /\ (forall x, descends (index db) i x -> get_block_impl db' x = None)
  /\ (forall x, x <> i -> ~ descends (index db) i x ->
                get_block_impl db' x = get_block_impl db x)
  /\ remove_impl fuel i db' = (db', Ret tt).
Proof.
  intros fuel i db db' H.
  destruct (remove_impl_ret_index _ _ _ _ H) as [_ [_ [_ Hin]]].
  destruct (remove_impl_filter _ _ _ _ _ H) as [_ [_ [keep Hk]]].
  unfold get_block_impl.
  split; [|split; [|split]].
  - destruct (index_find i (index db')) as [n|] eqn:E; [|reflexivity].
    apply index_find_some in E. destruct E as [Hn Hid].
    apply Hin in Hn. tauto.
  - intros x Hd.
    destruct (index_find x (index db')) as [n|] eqn:E; [|reflexivity].
    apply index_find_some in E. destruct E as [Hn Hid].
    apply Hin in Hn. subst x. tauto.
  - intros x Hx Hd. rewrite Hk. apply index_find_filter.
    intros e He Hid.
    assert (Hkeep : In e (index db')) by (apply Hin; subst x; tauto).
    rewrite Hk in Hkeep. apply filter_In in Hkeep. tauto.
  - exact (remove_impl_again _ _ _ _ H).
Qed.

Lemma remove_then_lookup_witness :
  remove_impl 5 2 db_fork
  = (mk_db [B6; A2] (Some root0) (Some B6), Ret tt)
  /\ get_block_impl (mk_db [B6; A2] (Some root0) (Some B6)) 2 = None
  /\ get_block_impl (mk_db [B6; A2] (Some root0) (Some B6)) 7 = None
  /\ remove_impl 5 2 (mk_db [B6; A2] (Some root0) (Some B6))
     = (mk_db [B6; A2] (Some root0) (Some B6), Ret tt).
Proof.
  destruct (remove_then_lookup 5 2 db_fork
              (mk_db [B6; A2] (Some root0) (Some B6)) eq_refl)
    as [Hid [Hbelow [_ Hagain]]].
  split; [reflexivity|]. split; [exact Hid|]. split; [|exact Hagain].
  apply Hbelow. apply (descends_child _ 2 C7); [|reflexivity].
  vm_compute. tauto.
Defined.

(** ** fetch_branch_from, both ways round and against the root *)

Lemma cut_unique : forall la lb f1 s1 c1 f2 s2 c2 : list bs,
  la = f1 ++ c1 -> lb = s1 ++ c1 -> cut_at_lowest_common f1 s1 ->
  la = f2 ++ c2 -> lb = s2 ++ c2 -> cut_at_lowest_common f2 s2 ->
  f1 = f2 /\ s1 = s2.
Proof.
  intros la lb f1 s1 c1 f2 s2 c2 Ha1 Hb1 Hc1 Ha2 Hb2 Hc2.
  assert (G : forall (f s c f' s' c' : list bs),
            f ++ c = f' ++ c' -> s ++ c = s' ++ c' ->
            cut_at_lowest_common f s ->
            forall x, f = f' ++ x -> c' = x ++ c -> x = []).
  { intros f s c f' s' c' Ea Eb Hc x Ef Ec.
    destruct x as [|y x]; [reflexivity|].
    exfalso. destruct (@exists_last _ (y :: x)) as [x0 [z Ex]]; [discriminate|].
    rewrite Ex in *. subst c'.
    rewrite (app_assoc s') in Eb. apply app_inv_tail in Eb.
    apply (Hc (f' ++ x0) (s' ++ x0) z).
    - now rewrite Ef, app_assoc.
    - now rewrite Eb, app_assoc. }
  assert (Ea : f1 ++ c1 = f2 ++ c2) by congruence.
  assert (Eb : s1 ++ c1 = s2 ++ c2) by congruence.
  destruct (app_eq_app _ _ _ _ Ea) as [x [[Ef Ec]|[Ef Ec]]].
  - pose proof (G f1 s1 c1 f2 s2 c2 Ea Eb Hc1 x Ef Ec) as ->.
    rewrite app_nil_r in Ef. simpl in Ec. subst.
    apply app_inv_tail in Eb. auto.
  - pose proof (G f2 s2 c2 f1 s1 c1 (eq_sym Ea) (eq_sym Eb) Hc2 x Ef Ec) as ->.
    rewrite app_nil_r in Ef. simpl in Ec. subst.
    apply app_inv_tail in Eb. auto.
Qed.

Lemma cut_at_lowest_common_sym : forall first second,
  cut_at_lowest_common first second -> cut_at_lowest_common second first.
Proof. intros f s H f' s' x Ef Es. exact (H s' f' x Es Ef). Qed.

Lemma fetch_branch_from_impl_swap : forall db r,
  root db = Some r -> tree db ->
  forall a b na nb,
    resolve db a = Some na -> resolve db b = Some nb ->
    exists f0 first second,
      forall fuel, (f0 <= fuel)%nat ->
        fetch_branch_from_impl fuel db a b = Ret (first, second)
        /\ fetch_branch_from_impl fuel db b a = Ret (second, first).
Proof.
  intros db r Hr Ht a b na nb Ha Hb.
  destruct (fetch_branch_from_impl_spec db r Hr Ht a b na nb Ha Hb)
    as [la [lb [f1 [s1 [c1 [Hla [Hlb [Ea [Eb [_ [Hc Hrun]]]]]]]]]]].
  destruct (fetch_branch_from_impl_spec db r Hr Ht b a nb na Hb Ha)
    as [lb' [la' [s2 [f2 [c2 [Hlb' [Hla' [Eb' [Ea' [_ [Hc' Hrun']]]]]]]]]]].
  destruct Ht as [Hu _].
  pose proof (lineage_functional db Hu na la Hla la' Hla') as <-.
  pose proof (lineage_functional db Hu nb lb Hlb lb' Hlb') as <-.
  destruct (cut_unique la lb f1 s1 c1 f2 s2 c2 Ea Eb Hc Ea' Eb'
              (cut_at_lowest_common_sym _ _ Hc')) as [<- <-].
  exists (Nat.max (length la) (length lb)), f1, s1. intros fuel Hf.
  split; [apply Hrun|apply Hrun']; lia.
Qed.

(** X14.  [fetch_branch_from] treats its two arguments alike: in a tree, for
    two ids that resolve, swapping the arguments swaps the two branches of
    the result. *)
Theorem fetch_branch_from_symmetric : forall db r a b na nb,
  root db = Some r -> tree db ->
  resolve db a = Some na -> resolve db b = Some nb ->
  exists f0 first second,
    forall fuel, (f0 <= fuel)%nat ->
      fetch_branch_from_impl fuel db a b = Ret (first, second)
      /\ fetch_branch_from_impl fuel db b a = Ret (second, first).
Proof.
  intros db r a b na nb Hr Ht. now apply (fetch_branch_from_impl_swap db r).
Qed.

Lemma fetch_branch_from_symmetric_witness :
  exists f0 first second,
    forall fuel, (f0 <= fuel)%nat ->
      fetch_branch_from_impl fuel db_fork 7 6 = Ret (first, second)
      /\ fetch_branch_from_impl fuel db_fork 6 7 = Ret (second, first).
Proof.
  apply (fetch_branch_from_symmetric db_fork root0 7 6 C7 B6 eq_refl
           db_fork_tree eq_refl eq_refl).
Defined.

Lemma lineage_branch : forall db r,
  root db = Some r -> ids_unique db ->
  forall n la, lineage db n la ->
    exists l, la = l ++ [r] /\ branch_in_index (index db) (id n) l.
Proof.
  intros db r Hr Hu n la H.
  induction H as [r' Hr'|n p l Hn Hp Hl [l0 [El Hb]]].
  - rewrite Hr in Hr'. inversion Hr'; subst r'. exists []. split; [auto|].
    constructor. apply index_find_not_in. intros Hin.
    apply in_map_iff in Hin. destruct Hin as [x [Hid Hx]].
    now apply (tree_root_not_in_index db r Hr Hu x).
  - exists (n :: l0). split; [now rewrite El|].
    apply branch_on.
    + apply index_find_in_unique; auto. now apply ids_unique_index.
    + destruct (resolve_cases db r _ p Hr Hp) as [[-> E]|[_ [E _]]].
      * now rewrite E.
      * now rewrite <- E.
Qed.

(** X15.  Against the root, [fetch_branch_from] is [fetch_branch].  In a
    tree, for an id [h] that resolves, the branch pair of [h] and the root id
    is the untrimmed branch of [h] next to an empty branch, whichever way
    round, and [fetch_branch] returns that same branch cut at its trim. *)
Theorem fetch_branch_from_root : forall db r h n,
  root db = Some r -> tree db -> resolve db h = Some n ->
  exists f0 l,
    forall fuel trim, (f0 <= fuel)%nat ->
      fetch_branch_from_impl fuel db h (id r) = Ret (l, [])
      /\ fetch_branch_from_impl fuel db (id r) h = Ret ([], l)
      /\ fetch_branch_impl fuel db h trim
         = Ret (filter (fun e => block_num e <=? trim) l).
Proof.
  intros db r h n Hr Ht Hh.
  assert (Hrr : resolve db (id r) = Some r).
  { unfold resolve, root_or_block. now rewrite Hr, N.eqb_refl. }
  destruct (fetch_branch_from_impl_spec db r Hr Ht h (id r) n r Hh Hrr)
    as [la [lb [f [s [c [Hla [Hlb [Ea [Eb [Hc [_ Hrun]]]]]]]]]]].
  destruct (fetch_branch_from_impl_swap db r Hr Ht h (id r) n r Hh Hrr)
    as [f1 [first [second Hswap]]].
  pose proof Ht as [Hu _].
  pose proof (lineage_functional db Hu r lb Hlb [r] (lineage_root db r Hr)) as ->.
  assert (Es : s = [] /\ c = [r]).
  { destruct s as [|x s]; [simpl in Eb; auto|].
    inversion Eb as [[Ex E]]. destruct s; destruct c; try discriminate.
    now elim Hc. }
  destruct Es as [-> ->].
  destruct (lineage_branch db r Hr Hu n la Hla) as [l [El Hb]].
  assert (Ef : f = l).
  { rewrite El in Ea. now apply app_inv_tail in Ea. }
  subst f.
  assert (Eid : id n = h).
  { destruct (resolve_cases db r h n Hr Hh) as [[-> ->]|[_ [E _]]]; auto. }
  rewrite Eid in Hb.
  set (f0 := Nat.max f1 (S (length la))).
  assert (Hlen : length la = S (length l)).
  { rewrite El, length_app. simpl. lia. }
  destruct (Hswap f0) as [H1 H2]; [unfold f0; lia|].
  rewrite Hrun in H1 by (unfold f0; simpl; lia).
  inversion H1; subst first second.
  exists f0, l. intros fuel trim Hf.
  destruct (Hswap fuel) as [H3 H4]; [unfold f0 in Hf; lia|].
  split; [auto|]. split; [auto|].
  unfold fetch_branch_impl, get_block_impl.
  destruct db as [idx rt hd]. simpl in *.
  rewrite (fetch_branch_loop_spec idx rt hd trim h l Hb);
    [reflexivity|unfold f0 in Hf; lia].
Qed.

Lemma fetch_branch_from_root_witness :
  exists f0 l,
    forall fuel trim, (f0 <= fuel)%nat ->
      fetch_branch_from_impl fuel db_fork 6 (id root0) = Ret (l, [])
      /\ fetch_branch_from_impl fuel db_fork (id root0) 6 = Ret ([], l)
      /\ fetch_branch_impl fuel db_fork 6 trim
         = Ret (filter (fun e => block_num e <=? trim) l).
Proof.
  apply (fetch_branch_from_root db_fork root0 6 B6 eq_refl db_fork_tree
           eq_refl).
Defined.

(** ** pending_head *)

Lemma pending_head_best : forall db h,
  fork_inv db -> head db = Some h ->
  exists p,
    pending_head db = Ret (Some p)
    /\ (p = h \/ (In p (index db) /\ is_valid p = false
                  /\ first_preferred p h = true))
    /\ first_preferred h p = false
    /\ forall n, In n (index db) -> first_preferred n p = false.
Proof.
  intros db h [_ [_ [Hbest Ho]]] Hh. destruct (Hbest h Hh) as [_ Hb].
  pose proof (lower_bound_all_invalid (index db) Ho) as Hinv.
  pose proof (before_lower_bound_all_valid (index db)) as Hval.
  pose proof (lower_bound_split (index db)) as Hsplit.
  assert (Hlo : ordered (lower_bound_valid false (index db))).
  { rewrite Hsplit in Ho. now apply ordered_app_inv in Ho. }
  rewrite Forall_forall in Hinv, Hval.
  assert (Hcase : forall n, In n (index db) ->
            (is_valid n = true /\ first_preferred n h = false)
            \/ In n (lower_bound_valid false (index db))).
  { intros n Hn. pose proof Hn as Hn'. rewrite Hsplit in Hn'.
    apply in_app_or in Hn'. destruct Hn' as [Hn'|Hn']; auto. }
  unfold pending_head.
  destruct (lower_bound_valid false (index db)) as [|c rest] eqn:E.
  - exists h. rewrite Hh. split; [auto|]. split; [auto|].
    split; [apply first_preferred_irrefl|].
    intros n Hn. destruct (Hcase n Hn) as [[_ Hf]|[]]. exact Hf.
  - assert (Hc : is_valid c = false) by (apply Hinv; now left).
    assert (Hcin : In c (index db)).
    { rewrite Hsplit. apply in_or_app. right. now left. }
    assert (Hrest : forall n, In n (c :: rest) -> first_preferred n c = false).
    { intros n [<-|Hn]; [apply first_preferred_irrefl|].
      inversion Hlo as [|? ? _ Hall]; subst. rewrite Forall_forall in Hall.
      apply (by_lib_less_not_preferred c n); auto.
      rewrite Hc. symmetry. apply Hinv. now right. }
    rewrite Hc, Hh. simpl.
    destruct (first_preferred c h) eqn:Ef.
    + exists c. split; [auto|]. split; [auto|].
      pose proof (first_preferred_asym c h Ef) as Hhc.
      split; [auto|]. intros n Hn.
      destruct (Hcase n Hn) as [[_ Hf]|Hin]; [|now apply Hrest].
      apply (first_preferred_neg_trans n h c); auto.
    + exists h. split; [auto|]. split; [auto|].
      split; [apply first_preferred_irrefl|]. intros n Hn.
      destruct (Hcase n Hn) as [[_ Hf]|Hin]; [auto|].
      apply (first_preferred_neg_trans n c h); auto.
Qed.

(** X16.  [pending_head] is the best block state overall.  After calls that
    keep the head sound, it returns the head or an entry that is not validated
    and is preferred to the head, and in both cases neither the head nor any
    entry, validated or not, is preferred to what it returns. *)
Theorem pending_head_is_best_overall : forall db h,
  reachable_sound db -> head db = Some h ->
  exists p,
    pending_head db = Ret (Some p)
    /\ (p = h \/ (In p (index db) /\ is_valid p = false
                  /\ first_preferred p h = true))
    /\ first_preferred h p = false
    /\ forall n, In n (index db) -> first_preferred n p = false.
Proof.
  intros db h Hr Hh. apply pending_head_best; auto.
  now apply reachable_sound_inv.
Qed.

Lemma pending_head_is_best_overall_witness :
  exists p,
    pending_head db_pending = Ret (Some p)
    /\ (p = A1 \/ (In p (index db_pending) /\ is_valid p = false
                   /\ first_preferred p A1 = true))
    /\ first_preferred A1 p = false
    /\ forall n, In n (index db_pending) -> first_preferred n p = false.
Proof.
  apply (pending_head_is_best_overall db_pending A1);
    [|reflexivity].
  apply reachable_open_sound. exact db_pending_reachable_open.
Defined.

(** ** What the store keeps whatever is called *)

Lemma store_inv_shrink : forall db db' keep,
  store_inv db -> index db' = filter keep (index db) ->
  root db' = root db -> head db' = head db -> store_inv db'.
Proof.
  intros db db' keep [Ho [Hnd [Hn Hv]]] Hi Hr Hh. unfold store_inv.
  rewrite Hi, Hr, Hh. split; [now apply ordered_filter|].
  split; [now apply filter_nodup_id|]. split; [|auto].
  intros E. destruct (Hn E) as [-> ->]. auto.
Qed.

Lemma store_inv_add_impl : forall n ig v vd db db' r,
  store_inv db -> add_impl n ig v vd db = (db', r) -> store_inv db'.
Proof.
  intros n ig v vd db db' r HI H. unfold add_impl in H.
  destruct (root db) as [rt|] eqn:Hrt; [|now inversion H; subst].
  destruct n as [n|]; [|now inversion H; subst].
  destruct (get_block_header_impl db (previous n)) as [[p|]|e| |];
    try (now inversion H; subst).
  destruct (v && negb (vd n p)); [now inversion H; subst|].
  destruct (index_insert n (index db)) as [idx ins] eqn:Ei.
  destruct (index_insert_spec _ _ _ _ Ei) as [_ Hins].
  destruct ins; simpl in H; [|destruct ig; now inversion H; subst].
  destruct (Hins eq_refl) as [_ [Hord Hnd]].
  destruct HI as [Ho [Hn [_ Hv]]].
  assert (G : forall hd', store_inv (mk_db idx (Some rt) hd')).
  { intros hd'. unfold store_inv. simpl.
    split; [auto|]. split; [auto|]. split; [discriminate|].
    intros r0 E. apply Hv. congruence. }
  destruct idx as [|c l]; [inversion H; subst; apply G|].
  destruct (is_valid c); inversion H; subst; apply G.
Qed.

Lemma store_inv_mark_valid : forall h db db' r,
  store_inv db -> mark_valid_impl h db = (db', r) -> store_inv db'.
Proof.
  intros h db db' r HI H. unfold mark_valid_impl in H.
  destruct (is_valid h); [now inversion H; subst|].
  destruct (index_find (id h) (index db)) as [e|] eqn:Ef;
    [|now inversion H; subst].
  destruct HI as [Ho [Hnd [Hn Hv]]].
  assert (G : forall hd', store_inv (mk_db (index_modify_valid true (id h)
                                              (index db)) (root db) hd')).
  { intros hd'. unfold store_inv. simpl.
    split; [now apply index_modify_valid_spec|].
    split; [now apply index_modify_valid_nodup|]. split; [|auto].
    intros E. destruct (Hn E) as [Ei _]. rewrite Ei in Ef. discriminate. }
  destruct (index_modify_valid true (id h) (index db)) as [|c l];
    [inversion H; subst; apply G|].
  destruct (head_after_modify _ (head db)) as [hd|];
    [|inversion H; subst; apply G].
  destruct (first_preferred c hd); inversion H; subst; apply G.
Qed.

Lemma rollback_nodup : forall ids idx, NoDup (map id idx) ->
  NoDup (map id (fold_left (fun acc i => index_modify_valid false i acc)
                           ids idx)).
Proof.
  induction ids as [|i ids IH]; intros idx Hnd; simpl; auto.
  apply IH. now apply index_modify_valid_nodup.
Qed.

Lemma store_inv_rollback : forall db,
  store_inv db -> store_inv (rollback_head_to_root_impl db).
Proof.
  intros db [Ho [Hnd [Hn Hv]]]. unfold rollback_head_to_root_impl, store_inv.
  simpl. split; [now apply rollback_ordered|].
  split; [now apply rollback_nodup|]. split; [|auto].
  intros E. destruct (Hn E) as [-> _]. simpl. auto.
Qed.

Lemma store_inv_remove : forall fuel i db db' r,
  store_inv db -> remove_impl fuel i db = (db', r) -> store_inv db'.
Proof.
  intros fuel i db db' r HI H.
  destruct (remove_impl_filter _ _ _ _ _ H) as [Hr [Hh [k Hk]]].
  now apply (store_inv_shrink db db' k).
Qed.

Lemma store_inv_advance_root : forall fuel i db db' r,
  store_inv db -> advance_root_impl fuel i db = (db', r) -> store_inv db'.
Proof.
  intros fuel i db db' r HI H. unfold advance_root_impl in H.
  destruct (root db) as [rt|] eqn:Hrt; [|inversion H; subst; auto].
  destruct (get_block_impl db i) as [nr|] eqn:Ef; [|inversion H; subst; auto].
  destruct (is_valid nr) eqn:Ev; simpl in H; [|inversion H; subst; auto].
  destruct (collect_blocks_to_remove fuel db (id rt) nr []) as [ids|e| |];
    try (inversion H; subst; auto; fail).
  destruct (remove_each fuel ids _) as [db2 r2] eqn:Er.
  destruct (remove_each_filter _ _ _ _ _ Er) as [Hr [Hh [k Hk]]].
  simpl in Hr, Hh, Hk. unfold index_erase in Hk. rewrite filter_compose in Hk.
  assert (HI2 : store_inv db2).
  { apply (store_inv_shrink db db2 _ HI Hk); congruence. }
  destruct r2 as [[]|e| |]; inversion H; subst; auto.
  destruct HI2 as [Ho [Hnd _]]. unfold store_inv. simpl.
  split; [auto|]. split; [auto|]. split; [discriminate|].
  intros r' Hr'. now inversion Hr'; subst.
Qed.

Lemma store_inv_open_add_all : forall vd blocks db db' r,
  store_inv db -> open_add_all vd blocks db = (db', r) -> store_inv db'.
Proof.
  intros vd. induction blocks as [|s rest IH]; intros db db' r HI H;
    simpl in H.
  - now inversion H; subst.
  - destruct (add_impl (Some s) false true vd db) as [db0 r0] eqn:E.
    pose proof (store_inv_add_impl _ _ _ _ _ _ _ HI E) as HI0.
    destruct r0 as [[]|e| |]; try (now inversion H; subst).
    apply (IH _ _ _ HI0 H).
Qed.

Lemma store_inv_reset : forall b db, store_inv (reset_impl b db).
Proof.
  intros b db. unfold store_inv, reset_impl. simpl.
  split; [constructor|]. split; [constructor|]. split; [discriminate|].
  intros r E. now inversion E.
Qed.

Lemma store_inv_open : forall m vd file db db' r file',
  store_inv db -> open_impl m vd file db = ((db', r), file') -> store_inv db'.
Proof.
  intros m vd [f|] db db' r file' HI H; simpl in H;
    [|now inversion H; subst].
  destruct (open_file_cases _ _ _ _ _ _ _ H)
    as [[_ [-> _]]|[[_ [_ [-> _]]]|[_ [_ [db1 [r1 [Ea Hc]]]]]]]; auto.
  pose proof (store_inv_open_add_all _ _ _ _ _ (store_inv_reset (f_root f) db)
                Ea) as [Ho [Hnd [_ Hv]]].
  destruct (open_add_all_outcome vd (f_blocks f) (reset_impl (f_root f) db)
              db1 r1) as [Hr1 _];
    [simpl; eauto|intros n []|exact Ea|].
  simpl in Hr1.
  assert (G : forall d, index d = index db1 -> root d = root db1 -> store_inv d).
  { intros d Hi Hr. unfold store_inv. rewrite Hi, Hr.
    split; [auto|]. split; [auto|]. split; [|auto].
    rewrite Hr1. discriminate. }
  destruct Hc as [[_ [-> _]]|[_ [Hi [Hr _]]]]; auto.
Qed.

Lemma store_inv_step : forall o db db' r,
  store_inv db -> apply_op o db = (db', r) -> store_inv db'.
Proof.
  intros o db db' r HI H. destruct o; simpl in H.
  - inversion H; subst. apply store_inv_reset.
  - unfold add in H. apply (store_inv_add_impl _ _ _ _ _ _ _ HI H).
  - apply (store_inv_mark_valid _ _ _ _ HI H).
  - inversion H; subst. now apply store_inv_rollback.
  - apply (store_inv_advance_root _ _ _ _ _ HI H).
  - apply (store_inv_remove _ _ _ _ _ HI H).
  - inversion H; subst. unfold close_impl.
    destruct (root db) as [rt|] eqn:Hrt; simpl; auto.
    destruct HI as [_ [_ [_ Hv]]]. unfold store_inv. simpl.
    split; [constructor|]. split; [constructor|].
    split; [discriminate|]. intros r0 E. apply Hv. congruence.
  - destruct (open_impl magic_number validator file db) as [[d q] f'] eqn:E.
    simpl in H. inversion H; subst. apply (store_inv_open _ _ _ _ _ _ _ HI E).
Qed.

Lemma reachable_store_inv : forall db, reachable db -> store_inv db.
Proof.
  intros db H. induction H as [|db o db' r _ IH Hop _].
  - unfold store_inv, empty_db. simpl.
    split; [constructor|]. split; [constructor|]. split; [auto|discriminate].
  - exact (store_inv_step o db db' r IH Hop).
Qed.

(** X17.  Whatever is called, and however the calls end, the store keeps its
    shape: the index stays in its order with every id at most once, nothing
    is stored and no head is set while the root is unset, and a root that is
    set is validated. *)
Theorem store_keeps_its_shape : forall db, reachable db -> store_inv db.
Proof. exact reachable_store_inv. Qed.

Lemma store_keeps_its_shape_witness :
  reachable (fst (apply_op (OpOpen 7 (fun _ _ => true)
                              (Some (mk_file 7 1 R0 [A1; X9] (Some 4))))
                           empty_db))
  /\ store_inv (fst (apply_op (OpOpen 7 (fun _ _ => true)
                                 (Some (mk_file 7 1 R0 [A1; X9] (Some 4))))
                              empty_db)).
Proof.
  assert (Hr : reachable (fst (apply_op (OpOpen 7 (fun _ _ => true)
                              (Some (mk_file 7 1 R0 [A1; X9] (Some 4))))
                           empty_db))).
  { apply (reachable_op empty_db
             (OpOpen 7 (fun _ _ => true)
                     (Some (mk_file 7 1 R0 [A1; X9] (Some 4))))
             _ (Throw Corrupt)).
    - constructor.
    - reflexivity.
    - right. eauto. }
  split; [exact Hr|]. exact (store_keeps_its_shape _ Hr).
Defined.

(** ** The facade *)

Lemma open_impl_not_bad_magic : forall m vd f db db' r file',
  f_magic f = m -> open_impl m vd (Some f) db = ((db', r), file') ->
  r <> Throw BadMagic.
Proof.
  intros m vd f db db' r file' Em H. simpl in H.
  destruct (open_file_cases _ _ _ _ _ _ _ H)
    as [[Hm _]|[[_ [_ [_ [-> _]]]]|[_ [_ [db1 [r1 [Ea Hc]]]]]]];
    [contradiction|discriminate|].
  destruct (open_add_all_outcome vd (f_blocks f) (reset_impl (f_root f) db)
              db1 r1) as [_ [_ [Hout _]]];
    [simpl; eauto|intros n []|exact Ea|].
  destruct Hc as [[_ [_ [-> _]]]|[_ [_ [_ [[-> _]|[-> _]]]]]];
    try discriminate.
  destruct Hout as [->|[->|[->| ->]]]; discriminate.
Qed.

(** X18.  The facade's [open] lets the file's magic number pick the tree.
    A magic number of neither tree is refused before anything changes.  A
    legacy file is read by the legacy tree and leaves the flag and the
    instant-finality tree alone.  Any other accepted file is read by a fresh
    instant-finality tree, and the facade is in instant-finality mode
    afterwards even when reading throws; the legacy tree is left alone.  The
    tree that reads never rejects the magic number itself. *)
Theorem facade_open_dispatch : forall lm im vd f fd fd' r file',
  fork_database_open lm im vd (Some f) fd = ((fd', r), file') ->
  (f_magic f <> lm -> f_magic f <> im ->
     fd' = fd /\ r = Throw BadMagic /\ file' = Some f)
  /\ (f_magic f = lm ->
        legacy fd' = legacy fd /\ fork_db_if fd' = fork_db_if fd
        /\ chain_head (fork_db_legacy fd') = chain_head (fork_db_legacy fd)
        /\ open_impl lm vd (Some f) (my (fork_db_legacy fd))
           = ((my (fork_db_legacy fd'), r), file')
        /\ r <> Throw BadMagic)
  /\ (f_magic f <> lm -> f_magic f = im ->
        legacy fd' = false /\ fork_db_legacy fd' = fork_db_legacy fd
        /\ r <> Throw BadMagic
        /\ exists t, fork_db_if fd' = Some t /\ chain_head t = None
             /\ open_impl im vd (Some f) empty_db = ((my t, r), file')).
Proof.
  intros lm im vd f fd fd' r file' H. unfold fork_database_open in H.
  destruct (N.eqb_spec (f_magic f) lm) as [El|El];
    destruct (N.eqb_spec (f_magic f) im) as [Ei|Ei]; simpl in H.
  - destruct (open_file lm vd f (my (fork_db_legacy fd)))
      as [[d q] k] eqn:E.
    simpl in H. inversion H; subst fd' r file'; clear H. simpl.
    split; [intros F; contradiction|]. split; [|intros F; contradiction].
    intros _. repeat split; auto.
    apply (open_impl_not_bad_magic _ _ _ _ _ _ _ El E).
  - destruct (open_file lm vd f (my (fork_db_legacy fd)))
      as [[d q] k] eqn:E.
    simpl in H. inversion H; subst fd' r file'; clear H. simpl.
    split; [intros F; contradiction|]. split; [|intros F; contradiction].
    intros _. repeat split; auto.
    apply (open_impl_not_bad_magic _ _ _ _ _ _ _ El E).
  - destruct (open_file im vd f empty_db)
      as [[d q] k] eqn:E.
    simpl in H. inversion H; subst fd' r file'; clear H. simpl.
    split; [intros _ F; contradiction|]. split; [intros F; contradiction|].
    intros _ _. split; [auto|]. split; [auto|].
    split; [apply (open_impl_not_bad_magic _ _ _ _ _ _ _ Ei E)|].
    exists (mk_fork_database_t d None). auto.
  - inversion H; subst. split; [auto|].
    split; [intros F; contradiction|intros _ F; contradiction].
Qed.

Lemma facade_open_dispatch_witness :
  legacy (fst (fst (fork_database_open 5 7 (fun _ _ => true)
                      (Some file_pending_head) new_fork_database))) = false
  /\ fork_db_legacy (fst (fst (fork_database_open 5 7 (fun _ _ => true)
                                 (Some file_pending_head) new_fork_database)))
     = new_fork_database_t.
Proof.
  destruct (facade_open_dispatch 5 7 (fun _ _ => true) file_pending_head
              new_fork_database _ _ _ eq_refl) as [_ [_ H]].
  destruct H as [Hl [Ht _]]; [discriminate|reflexivity|].
  split; [exact Hl|exact Ht].
Defined.

(** X19.  The switch to instant finality survives a restart.  From legacy
    mode with a legacy chain head, [switch_from_legacy] returns and leaves an
    instant-finality tree whose root and head are the converted head; the
    legacy tree is not touched.  [close] then writes that tree alone, with
    the instant-finality magic number and no block state, and a fresh facade
    that opens the file ends in instant-finality mode with the same root as
    head, and removes the file. *)
Theorem switch_from_legacy_survives_restart :
  forall lm im convert vd fd head,
  lm <> im -> legacy fd = true ->
  chain_head (fork_db_legacy fd) = Some head ->
  let new_root := set_valid true (convert head) in
  let tree := mk_db [] (Some new_root) (Some new_root) in
  let fd1 := mk_fork_database false (fork_db_legacy fd)
               (Some (mk_fork_database_t tree (Some (convert head)))) in
  let file := mk_file im 1 (header_state (convert head)) []
                      (Some (id (convert head))) in
  switch_from_legacy convert fd = (fd1, Ret tt)
  /\ fork_database_close lm im fd1 = ((fd1, Ret tt), Some file)
  /\ fork_database_open lm im vd (Some file) new_fork_database
     = ((mk_fork_database false new_fork_database_t
           (Some (mk_fork_database_t tree None)), Ret tt), None).
Proof.
  intros lm im convert vd fd head Hne Hl Hc. simpl.
  split; [|split].
  - unfold switch_from_legacy. rewrite Hl, Hc. reflexivity.
  - reflexivity.
  - unfold fork_database_open. simpl.
    destruct (N.eqb_spec im lm) as [E|_]; [now elim Hne|].
    rewrite N.eqb_refl. simpl. unfold open_file. simpl.
    rewrite N.eqb_refl. simpl. rewrite N.eqb_refl.
    unfold open_check. simpl. rewrite N.eqb_refl. reflexivity.
Qed.

Lemma switch_from_legacy_survives_restart_witness :
  fork_database_open 5 7 (fun _ _ => true)
    (snd (fork_database_close 5 7
            (fst (switch_from_legacy (fun b => b)
                    (mk_fork_database true
                       (mk_fork_database_t db_pending (Some A1)) None)))))
    new_fork_database
  = ((mk_fork_database false new_fork_database_t
        (Some (mk_fork_database_t (mk_db [] (Some A1) (Some A1)) None)),
      Ret tt), None).
Proof.
  destruct (switch_from_legacy_survives_restart 5 7 (fun b => b)
              (fun _ _ => true)
              (mk_fork_database true
                 (mk_fork_database_t db_pending (Some A1)) None)
              A1) as [H1 [H2 H3]]; [discriminate|reflexivity|reflexivity|].
  exact H3.
Defined.

(** ** Validating the pending head *)

Lemma preferred_sorts_first : forall c p h,
  by_lib_less c (set_valid true p) = true ->
  first_preferred c h = false -> first_preferred p h = true -> False.
Proof.
  intros c p h H1 H2 H3. unfold set_valid in H1.
  unfold first_preferred, by_lib_less, bool_gt in *. simpl in H1.
  destruct (is_valid c); simpl in H1; [|discriminate].
  repeat match goal with
  | H : context [N.ltb ?a ?b] |- _ => destruct (N.ltb_spec a b)
  end; simpl in *; try congruence; try lia.
Qed.

Lemma mark_valid_pending : forall db h p,
  fork_inv db -> NoDup (map id (index db)) ->
  head db = Some h -> In p (index db) -> is_valid p = false ->
  first_preferred p h = true ->
  mark_valid_impl p db
  = (mk_db (index_modify_valid true (id p) (index db)) (root db)
           (Some (set_valid true p)), Ret tt)
    /\ hd_error (index_modify_valid true (id p) (index db))
       = Some (set_valid true p).
Proof.
  intros db h p [_ [_ [Hbest Ho]]] Hnd Hh Hp Hv Hf.
  destruct (Hbest h Hh) as [_ Hb].
  pose proof (index_find_in_unique _ _ Hnd Hp) as Efind.
  destruct (index_modify_valid_spec true (id p) (index db))
    as [Hin [_ [Hnew Hord]]].
  specialize (Hnew p Efind). specialize (Hord Ho).
  assert (Hc : hd_error (index_modify_valid true (id p) (index db))
               = Some (set_valid true p)).
  { destruct (index_modify_valid true (id p) (index db)) as [|c l] eqn:E;
      [destruct Hnew|].
    simpl. f_equal. destruct Hnew as [Hnew|Hnew]; [auto|].
    exfalso. inversion Hord as [|? ? _ Hall]; subst.
    rewrite Forall_forall in Hall. specialize (Hall _ Hnew).
    apply (preferred_sorts_first c p h Hall); auto.
    destruct (Hin c (or_introl eq_refl)) as [[Hid Hcv]|[Hcin Hid]].
    - exfalso.
      assert (Ec : c = set_valid true p).
      { apply (in_unique_id (c :: l) c (set_valid true p));
          [rewrite <- E; now apply index_modify_valid_nodup
          |now left|now right|exact Hid]. }
      rewrite Ec, by_lib_less_irrefl in Hall. discriminate.
    - apply Hb; auto.
      destruct (is_valid c) eqn:Ec; auto.
      clear - Hall Ec. unfold by_lib_less, bool_gt, set_valid in Hall.
      simpl in Hall. rewrite Ec in Hall. simpl in Hall. discriminate. }
  split; [|exact Hc].
  unfold mark_valid_impl. rewrite Hv, Efind, Hh.
  rewrite (head_after_modify_valid p h (proj1 (Hbest h Hh))).
  destruct (index_modify_valid true (id p) (index db)) as [|c l];
    [discriminate|].
  simpl in Hc. inversion Hc; subst c.
  change (first_preferred (set_valid true p) h) with (first_preferred p h).
  now rewrite Hf.
Qed.

Lemma reachable_sound_reachable : forall db, reachable_sound db -> reachable db.
Proof.
  induction 1 as [|db o db' r _ IH Hop Hs]; [constructor|].
  apply (reachable_op db o db' r); auto.
  destruct o; simpl in Hs; auto.
  destruct file as [f|]; auto. destruct Hs as [-> _]. now left.
Qed.

(** X20.  Validating the pending head makes it the head.  After calls that
    keep the head sound, when [pending_head] returns an entry other than the
    head, [mark_valid] of that entry returns, the entry, now validated, is
    the first of the index and the new head, and the root stays. *)
Theorem validating_pending_head_makes_it_head : forall db h p,
  reachable_sound db -> head db = Some h ->
  pending_head db = Ret (Some p) -> p <> h ->
  exists db',
    mark_valid_impl p db = (db', Ret tt)
    /\ head db' = Some (set_valid true p)
    /\ hd_error (index db') = Some (set_valid true p)
    /\ root db' = root db.
Proof.
  intros db h p Hr Hh Hp Hne.
  pose proof (reachable_sound_inv db Hr) as HI.
  destruct (reachable_store_inv db (reachable_sound_reachable db Hr))
    as [_ [Hnd _]].
  destruct (pending_head_best db h HI Hh) as [p0 [Hp0 [Hcase _]]].
  rewrite Hp in Hp0. inversion Hp0; subst p0.
  destruct Hcase as [E|[Hin [Hv Hf]]]; [contradiction|].
  destruct (mark_valid_pending db h p HI Hnd Hh Hin Hv Hf) as [Hm Hc].
  eexists. split; [exact Hm|]. simpl. auto.
Qed.

Lemma validating_pending_head_makes_it_head_witness :
  exists db',
    mark_valid_impl B2 db_pending = (db', Ret tt)
    /\ head db' = Some (set_valid true B2)
    /\ hd_error (index db') = Some (set_valid true B2)
    /\ root db' = root db_pending.
Proof.
  apply (validating_pending_head_makes_it_head db_pending A1 B2);
    [|reflexivity|reflexivity|discriminate].
  apply reachable_open_sound. exact db_pending_reachable_open.
Defined.

(** ** What close writes *)

(** X21.  [close] writes every index entry exactly once.  With a root set,
    the file holds the magic number, the current version, the root's header
    state, the head's id if there is a head, and a rearrangement of the index
    with nothing left out and nothing repeated; the index is emptied while
    root and head stay.  With no root nothing is written and nothing
    changes. *)
Theorem close_writes_every_entry_once : forall m db,
  (root db = None -> close_impl m db = (db, None))
  /\ (forall r, root db = Some r ->
        exists file,
          close_impl m db = (mk_db [] (root db) (head db), Some file)
          /\ f_magic file = m /\ f_version file = max_supported_version
          /\ f_root file = header_state r
          /\ Permutation (f_blocks file) (index db)
          /\ length (f_blocks file) = length (index db)
          /\ f_head_id file = option_map id (head db)).
Proof.
  intros m db. unfold close_impl. split.
  - intros ->. reflexivity.
  - intros r ->. eexists. split; [reflexivity|]. simpl.
    repeat split; auto.
    + apply close_order_perm.
    + apply Permutation_length, close_order_perm.
Qed.

Lemma close_writes_every_entry_once_witness :
  exists file,
    close_impl 7 db_fork = (mk_db [] (root db_fork) (head db_fork), Some file)
    /\ Permutation (f_blocks file) (index db_fork)
    /\ f_head_id file = Some 6.
Proof.
  destruct (proj2 (close_writes_every_entry_once 7 db_fork) root0 eq_refl)
    as [file [Hc [_ [_ [_ [Hp [_ Hh]]]]]]].
  exists file. split; [exact Hc|]. split; [exact Hp|exact Hh].
Defined.

(** ** The tree stays a tree *)

Lemma tree_linked : forall db r, root db = Some r -> tree db -> linked db.
Proof.
  intros db r Hr [_ Ht] n Hn. destruct (Ht n Hn) as [p [Hp _]].
  destruct (resolve_cases db r _ p Hr Hp) as [[-> E]|[Hin [E _]]].
  - left. eauto.
  - right. eauto.
Qed.

Lemma tree_parent_below : forall db r,
  root db = Some r -> tree db -> parent_below (index db).
Proof.
  intros db r Hr [Hu Ht] n p Hn Hp Hid. destruct (Ht n Hn) as [p0 [Hp0 Hnum]].
  assert (E : p0 = p).
  { destruct (resolve_cases db r _ p0 Hr Hp0) as [[-> E]|[Hin [E _]]].
    - exfalso. apply (tree_root_not_in_index db r Hr Hu p Hp). congruence.
    - apply (in_unique_id (index db)); auto; [|congruence].
      now apply ids_unique_index. }
  subst p0. lia.
Qed.

Lemma tree_transfer : forall db r db' r',
  root db = Some r -> tree db -> root db' = Some r' ->
  NoDup (map id (index db')) ->
  (forall x, In x (index db') -> id x <> id r') ->
  linked db' ->
  (exists r0, (r0 = r \/ In r0 (index db))
              /\ id r' = id r0 /\ block_num r' = block_num r0) ->
  (forall x, In x (index db') ->
     exists x0, In x0 (index db) /\ id x = id x0
                /\ previous x = previous x0 /\ block_num x = block_num x0) ->
  tree db'.
Proof.
  intros db r db' r' Hr [Hu Ht] Hr' Hnd Hfresh Hl [r0 [Hr0 [Hr0id Hr0n]]] Hcp.
  split.
  - unfold ids_unique. rewrite Hr'. constructor; auto.
    intros Hin. apply in_map_iff in Hin. destruct Hin as [x [Hid Hx]].
    now apply (Hfresh x Hx).
  - intros n Hn.
    destruct (Hcp n Hn) as [n0 [Hn0 [Hid [Hprev Hnum]]]].
    destruct (Ht n0 Hn0) as [p0 [Hp0 Hnum0]].
    assert (Hp0n : (p0 = r \/ In p0 (index db)) /\ id p0 = previous n0).
    { destruct (resolve_cases db r _ p0 Hr Hp0) as [[-> E]|[Hin [E _]]]; auto. }
    destruct Hp0n as [Hp0n Hp0id].
    unfold resolve, root_or_block, get_block_impl. rewrite Hr'.
    destruct (Hl n Hn) as [[r'' [Hr'' Hp]]|[p [Hp Hpid]]].
    + rewrite Hr' in Hr''. inversion Hr''; subst r''.
      rewrite Hp, N.eqb_refl. exists r'. split; [auto|].
      assert (E : r0 = p0).
      { apply (same_id_same_node db r Hr Hu); auto. congruence. }
      subst r0. lia.
    + destruct (N.eqb_spec (previous n) (id r')) as [E|_].
      * exfalso. apply (Hfresh p Hp). congruence.
      * rewrite <- Hpid, (index_find_in_unique _ _ Hnd Hp).
        exists p. split; [auto|].
        destruct (Hcp p Hp) as [x0 [Hx0 [Hxid [_ Hxn]]]].
        assert (E : x0 = p0).
        { apply (same_id_same_node db r Hr Hu); auto. congruence. }
        subst x0. lia.
Qed.

Lemma index_modify_valid_headers : forall b i idx x,
  In x (index_modify_valid b i idx) ->
  exists x0, In x0 idx /\ id x = id x0 /\ previous x = previous x0
             /\ block_num x = block_num x0.
Proof.
  intros b i idx x Hx. unfold index_modify_valid in Hx.
  destruct (index_find i idx) as [e|] eqn:E; [|eauto].
  destruct (index_find_some _ _ _ E) as [He _].
  apply ordered_insert_in in Hx. destruct Hx as [->|Hx].
  - exists e. auto.
  - apply index_erase_in in Hx. exists x. tauto.
Qed.

Lemma rollback_headers : forall ids idx x,
  In x (fold_left (fun acc i => index_modify_valid false i acc) ids idx) ->
  exists x0, In x0 idx /\ id x = id x0 /\ previous x = previous x0
             /\ block_num x = block_num x0.
Proof.
  induction ids as [|i ids IH]; intros idx x Hx; simpl in Hx; [eauto|].
  destruct (IH _ _ Hx) as [x1 [Hx1 [E1 [E2 E3]]]].
  destruct (index_modify_valid_headers _ _ _ _ Hx1) as [x0 [Hx0 [F1 [F2 F3]]]].
  exists x0. repeat split; congruence.
Qed.

Lemma tree_same_root : forall db r db',
  root db = Some r -> tree db -> root db' = Some r ->
  NoDup (map id (index db')) -> linked db' ->
  (forall x, In x (index db') ->
     exists x0, In x0 (index db) /\ id x = id x0
                /\ previous x = previous x0 /\ block_num x = block_num x0) ->
  tree db'.
Proof.
  intros db r db' Hr Ht Hr' Hnd Hl Hcp.
  apply (tree_transfer db r db' r); auto.
  - intros x Hx. destruct (Hcp x Hx) as [x0 [Hx0 [E _]]]. rewrite E.
    destruct Ht as [Hu _]. now apply (tree_root_not_in_index db r Hr Hu).
  - exists r. auto.
Qed.

Lemma tree_mark_valid : forall h db r db' q,
  root db = Some r -> tree db -> mark_valid_impl h db = (db', q) -> tree db'.
Proof.
  intros h db r db' q Hr Ht H.
  pose proof (tree_linked db r Hr Ht) as Hl.
  pose proof (linked_mark_valid _ _ _ _ Hl H) as Hl'.
  pose proof Ht as [Hu _]. pose proof (ids_unique_index db Hu) as Hnd.
  unfold mark_valid_impl in H.
  destruct (is_valid h); [now inversion H; subst|].
  destruct (index_find (id h) (index db)); [|now inversion H; subst].
  assert (G : forall d, index d = index_modify_valid true (id h) (index db) ->
                        root d = root db -> linked d -> tree d).
  { intros d Hi Hrd Hld. apply (tree_same_root db r d); auto; [congruence| |].
    - rewrite Hi. now apply index_modify_valid_nodup.
    - intros x Hx. rewrite Hi in Hx.
      now apply (index_modify_valid_headers true (id h)). }
  destruct (index_modify_valid true (id h) (index db)) as [|c l];
    [inversion H; subst; now apply G|].
  destruct (head_after_modify _ (head db)) as [hd|];
    [|inversion H; subst; now apply G].
  destruct (first_preferred c hd); inversion H; subst; now apply G.
Qed.

Lemma tree_rollback : forall db r,
  root db = Some r -> tree db -> tree (rollback_head_to_root_impl db).
Proof.
  intros db r Hr Ht.
  pose proof Ht as [Hu _]. pose proof (ids_unique_index db Hu) as Hnd.
  apply (tree_same_root db r); auto.
  - now apply rollback_nodup.
  - apply linked_rollback. now apply (tree_linked db r).
  - intros x Hx. now apply (rollback_headers (map id (index db))).
Qed.

Lemma tree_remove : forall fuel i db r db' q,
  root db = Some r -> tree db -> remove_impl fuel i db = (db', q) -> tree db'.
Proof.
  intros fuel i db r db' q Hr Ht H.
  pose proof Ht as [Hu _]. pose proof (ids_unique_index db Hu) as Hnd.
  destruct (remove_impl_filter _ _ _ _ _ H) as [Hr' [_ [k Hk]]].
  apply (tree_same_root db r); auto; [congruence| | |].
  - rewrite Hk. now apply filter_nodup_id.
  - apply (linked_remove _ _ _ _ _ (tree_linked db r Hr Ht) H).
  - intros x Hx. rewrite Hk in Hx. apply filter_In in Hx. exists x. tauto.
Qed.

Lemma advance_root_impl_filter : forall fuel i db db' q,
  advance_root_impl fuel i db = (db', q) ->
  exists keep, index db' = filter keep (index db).
Proof.
  intros fuel i db db' q H.
  assert (G : exists keep, index db = filter keep (index db)).
  { exists (fun _ => true). symmetry. apply filter_all.
    intros x Hx. apply filter_In. auto. }
  unfold advance_root_impl in H.
  destruct (root db) as [rt|]; [|inversion H; subst; auto].
  destruct (get_block_impl db i) as [nr|]; [|inversion H; subst; auto].
  destruct (is_valid nr); simpl in H; [|inversion H; subst; auto].
  destruct (collect_blocks_to_remove fuel db (id rt) nr []) as [ids|e| |];
    try (inversion H; subst; auto; fail).
  destruct (remove_each fuel ids _) as [db2 r2] eqn:Er.
  destruct (remove_each_filter _ _ _ _ _ Er) as [_ [_ [k Hk]]].
  simpl in Hk. unfold index_erase in Hk. rewrite filter_compose in Hk.
  destruct r2 as [[]|e| |]; inversion H; subst; simpl; eauto.
Qed.

Lemma tree_advance_root : forall fuel i db r db',
  root db = Some r -> tree db ->
  advance_root_impl fuel i db = (db', Ret tt) -> tree db'.
Proof.
  intros fuel i db r db' Hr Ht H.
  pose proof Ht as [Hu _].
  pose proof (tree_linked db r Hr Ht) as Hl.
  pose proof (tree_parent_below db r Hr Ht) as Hpb.
  destruct (advance_root_impl_ret fuel i db db' r Hr (conj Hu (conj Hl Hpb)) H)
    as [nr [Ef [_ [Hr' [_ [Hin [_ Hni]]]]]]].
  destruct (index_find_some _ _ _ Ef) as [Hnr Hnrid].
  destruct (advance_root_impl_filter _ _ _ _ _ H) as [k Hk].
  apply (tree_transfer db r db' nr); auto.
  - rewrite Hk. apply filter_nodup_id. now apply ids_unique_index.
  - intros x Hx E. apply Hni. rewrite <- Hnrid, <- E. now apply in_map.
  - apply (linked_advance_root _ _ _ _ _ Hl H); [discriminate|now left].
  - exists nr. auto.
  - intros x Hx. apply Hin in Hx. exists x. tauto.
Qed.

Lemma add_impl_fresh : forall n ig v vd db db',
  add_impl (Some n) ig v vd db = (db', Ret tt) ->
  index_find (id n) (index db) = None ->
  root db' = root db
  /\ index db' = ordered_insert n (index db)
  /\ exists p, resolve db (previous n) = Some p.
Proof.
  intros n ig v vd db db' H Ef. unfold add_impl in H.
  destruct (root db) as [rt|] eqn:Hrt; [|discriminate].
  unfold get_block_header_impl in H. rewrite Hrt in H. simpl in H.
  assert (Hp : exists p, resolve db (previous n) = Some p).
  { unfold resolve, root_or_block, get_block_impl. rewrite Hrt.
    rewrite N.eqb_sym.
    destruct (id rt =? previous n); [eauto|].
    destruct (index_find (previous n) (index db)) as [p|]; [eauto|].
    discriminate. }
  destruct (if id rt =? previous n then Ret (Some rt)
            else Ret (index_find (previous n) (index db)))
    as [[p|]|e| |]; try discriminate.
  destruct (v && negb (vd n p)); [discriminate|].
  unfold index_insert in H. rewrite Ef in H. simpl in H.
  destruct (ordered_insert n (index db)) as [|c l] eqn:Eo; [discriminate|].
  destruct (is_valid c); inversion H; subst; simpl; auto.
Qed.

Lemma tree_add : forall n ig db r db',
  root db = Some r -> tree db ->
  id n <> id r ->
  (forall p, resolve db (previous n) = Some p -> block_num n = block_num p + 1) ->
  add (Some n) ig db = (db', Ret tt) -> tree db'.
Proof.
  intros n ig db r db' Hr Ht Hnr Hnum H.
  pose proof Ht as [Hu Hres].
  pose proof (ids_unique_index db Hu) as Hnd.
  unfold add in H.
  destruct (index_find (id n) (index db)) as [e|] eqn:Ee.
  { destruct (add_impl_ret_lookup _ _ _ _ _ _ H) as [_ [_ [_ Hdup]]].
    destruct (Hdup e Ee) as [_ ->]. exact Ht. }
  destruct (add_impl_fresh _ _ _ _ _ _ H Ee) as [Hr' [Hi [p Hp]]].
  pose proof (index_find_none _ _ Ee) as Hfresh.
  assert (Hnode : forall x q, resolve db x = Some q -> x <> id n).
  { intros x q Hq E.
    destruct (resolve_cases db r x q Hr Hq) as [[_ Ex]|[Hin [Ex _]]].
    - congruence.
    - apply (Hfresh q Hin). congruence. }
  assert (Hres' : forall x, x <> id n -> resolve db' x = resolve db x).
  { intros x Hx. unfold resolve, root_or_block, get_block_impl.
    rewrite Hr', Hr, Hi.
    now rewrite (index_find_ordered_insert_other n (index db) x Hx). }
  split.
  - unfold ids_unique. rewrite Hr', Hr, Hi.
    constructor; [|now apply ordered_insert_nodup].
    intros Hin. apply in_map_iff in Hin. destruct Hin as [x [Hid Hx]].
    apply ordered_insert_in in Hx. destruct Hx as [->|Hx]; [congruence|].
    now apply (tree_root_not_in_index db r Hr Hu x).
  - intros x Hx. rewrite Hi in Hx. apply ordered_insert_in in Hx.
    destruct Hx as [->|Hx].
    + exists p. rewrite (Hres' _ (Hnode _ _ Hp)). auto.
    + destruct (Hres x Hx) as [q [Hq Hqn]].
      exists q. rewrite (Hres' _ (Hnode _ _ Hq)). auto.
Qed.

Lemma tree_step : forall o db r db',
  root db = Some r -> tree db -> numbered_call db o ->
  apply_op o db = (db', Ret tt) -> tree db'.
Proof.
  intros o db r db' Hr Ht Hn H. destruct o; simpl in H, Hn.
  - inversion H; subst. split.
    + unfold ids_unique. simpl. repeat constructor. intros [].
    + intros n [].
  - destruct n as [n|].
    + destruct Hn as [Hid Hnum].
      apply (tree_add n ignore_duplicate db r db'); auto.
    + unfold add, add_impl in H. rewrite Hr in H. discriminate.
  - apply (tree_mark_valid h db r db' (Ret tt)); auto.
  - inversion H; subst. now apply (tree_rollback db r).
  - apply (tree_advance_root fuel i db r db'); auto.
  - apply (tree_remove fuel i db r db' (Ret tt)); auto.
  - inversion H; subst. unfold close_impl. rewrite Hr. simpl. split.
    + unfold ids_unique. simpl. repeat constructor. intros [].
    + intros n [].
  - destruct file as [f|]; [contradiction|]. simpl in H.
    now inversion H; subst.
Qed.

(** X22.  The tree stays a tree.  From a tree with its root set, where every
    entry is numbered one above its parent and ids are unique across root and
    index, any call that returns leaves a tree again, provided it is not an
    [open] reading a file and, for an [add], the new block state is numbered
    one above its parent and does not carry the root's id. *)
Theorem tree_is_kept : forall o db r db',
  root db = Some r -> tree db -> numbered_call db o ->
  apply_op o db = (db', Ret tt) -> tree db'.
Proof. exact tree_step. Qed.

Lemma tree_is_kept_witness :
  tree (fst (apply_op (OpAdvanceRoot 5 5) db_fork))
  /\ tree (fst (apply_op (OpAdd (Some (mk_bs 9 6 13 5 false)) false) db_fork)).
Proof.
  split.
  - apply (tree_is_kept (OpAdvanceRoot 5 5) db_fork root0 _ eq_refl
             db_fork_tree I).
    reflexivity.
  - apply (tree_is_kept (OpAdd (Some (mk_bs 9 6 13 5 false)) false) db_fork
             root0 _ eq_refl db_fork_tree).
    + split.
      * intros r E. inversion E. discriminate.
      * intros p E. inversion E. reflexivity.
    + reflexivity.
Defined.

(** ** What no call does to an entry or to the root *)

Lemma index_modify_valid_same : forall b i idx x,
  In x (index_modify_valid b i idx) ->
  exists x0, In x0 idx /\ set_valid (is_valid x0) x = x0.
Proof.
  intros b i idx x Hx. unfold index_modify_valid in Hx.
  destruct (index_find i idx) as [e|] eqn:E.
  - destruct (index_find_some _ _ _ E) as [He _].
    apply ordered_insert_in in Hx. destruct Hx as [->|Hx].
    + exists e. split; [auto|]. now destruct e.
    + apply index_erase_in in Hx. exists x. split; [tauto|].
      apply set_valid_same.
  - exists x. split; [auto|]. apply set_valid_same.
Qed.

Lemma rollback_same : forall ids idx x,
  In x (fold_left (fun acc i => index_modify_valid false i acc) ids idx) ->
  exists x0, In x0 idx /\ set_valid (is_valid x0) x = x0.
Proof.
  induction ids as [|i ids IH]; intros idx x Hx; simpl in Hx.
  - exists x. split; [auto|]. apply set_valid_same.
  - destruct (IH _ _ Hx) as [x1 [Hx1 E1]].
    destruct (index_modify_valid_same _ _ _ _ Hx1) as [x0 [Hx0 E0]].
    exists x0. split; [auto|]. rewrite <- E0 at 2. rewrite <- E1.
    reflexivity.
Qed.

Ltac unchanged Hsame :=
  split; [intros ? ?; left; now apply Hsame|left; auto].

Lemma entries_step : forall o db db' r,
  apply_op o db = (db', r) ->
  match o with
  | OpReset _ | OpOpen _ _ (Some _) => True
  | _ =>
    (forall x, In x (index db') ->
       (exists x0, In x0 (index db) /\ set_valid (is_valid x0) x = x0)
       \/ (exists ig, o = OpAdd (Some x) ig))
    /\ (root db' = root db
        \/ exists fuel i nr,
             o = OpAdvanceRoot fuel i /\ r = Ret tt /\ root db' = Some nr
             /\ In nr (index db) /\ id nr = i)
  end.
Proof.
  intros o db db' r H.
  assert (Hsame : forall x, In x (index db) ->
            exists x0, In x0 (index db) /\ set_valid (is_valid x0) x = x0).
  { intros x Hx. exists x. split; [auto|]. apply set_valid_same. }
  destruct o; simpl in H; [exact I|..].
  - unfold add in H. destruct n as [n|].
    + destruct r as [[]|e| |].
      * destruct (index_find (id n) (index db)) as [e|] eqn:Ee.
        -- destruct (add_impl_ret_lookup _ _ _ _ _ _ H) as [_ [_ [_ Hdup]]].
           destruct (Hdup e Ee) as [_ ->]. unchanged Hsame.
        -- destruct (add_impl_fresh _ _ _ _ _ _ H Ee) as [Hr [Hi _]].
           split; [|auto]. intros x Hx. rewrite Hi in Hx.
           apply ordered_insert_in in Hx. destruct Hx as [->|Hx]; eauto.
      * apply add_impl_throws in H. subst. unchanged Hsame.
      * unfold add_impl in H.
        destruct (root db) eqn:Hrt; [|discriminate].
        destruct (get_block_header_impl db (previous n)) as [[p|]|e| |];
          try discriminate;
          try (inversion H; subst; unchanged Hsame; fail).
        simpl in H. unfold index_insert in H.
        destruct (index_find (id n) (index db)); simpl in H;
          [destruct ignore_duplicate; discriminate|].
        destruct (ordered_insert n (index db)) as [|c l] eqn:Eo;
          [now apply ordered_insert_not_nil in Eo|].
        destruct (is_valid c); discriminate.
      * unfold add_impl in H.
        destruct (root db) eqn:Hrt; [|discriminate].
        destruct (get_block_header_impl db (previous n)) as [[p|]|e| |];
          try discriminate;
          try (inversion H; subst; unchanged Hsame; fail).
        simpl in H. unfold index_insert in H.
        destruct (index_find (id n) (index db)); simpl in H;
          [destruct ignore_duplicate; discriminate|].
        destruct (ordered_insert n (index db)) as [|c l] eqn:Eo;
          [now apply ordered_insert_not_nil in Eo|].
        destruct (is_valid c); discriminate.
    + unfold add_impl in H. destruct (root db) eqn:Hrt; inversion H; subst; unchanged Hsame.
  - unfold mark_valid_impl in H.
    destruct (is_valid h); [inversion H; subst; unchanged Hsame|].
    destruct (index_find (id h) (index db)); [|inversion H; subst; unchanged Hsame].
    assert (G : forall hd',
              (forall x, In x (index (mk_db (index_modify_valid true (id h)
                                               (index db)) (root db) hd')) ->
                 (exists x0, In x0 (index db)
                             /\ set_valid (is_valid x0) x = x0)
                 \/ (exists ig, OpMarkValid h = OpAdd (Some x) ig))
              /\ (root db = root db
                  \/ exists fuel i nr,
                       OpMarkValid h = OpAdvanceRoot fuel i /\ r = Ret tt
                       /\ root db = Some nr /\ In nr (index db) /\ id nr = i)).
    { intros hd'. split; [|auto]. simpl. intros x Hx. left.
      now apply (index_modify_valid_same true (id h)). }
    destruct (index_modify_valid true (id h) (index db)) as [|c l];
      [inversion H; subst; apply (G (head db))|].
    destruct (head_after_modify _ (head db)) as [hd|];
      [|inversion H; subst; apply (G None)].
    destruct (first_preferred c hd); inversion H; subst;
      [apply (G (Some c))|apply (G (Some hd))].
  - inversion H; subst. split; [|auto]. simpl. intros x Hx. left.
    now apply (rollback_same (map id (index db))).
  - destruct (advance_root_impl_filter _ _ _ _ _ H) as [k Hk]. split.
    + intros x Hx. left. rewrite Hk in Hx. apply filter_In in Hx.
      apply Hsame. tauto.
    + unfold advance_root_impl in H.
      destruct (root db) as [rt|] eqn:Hrt; [|inversion H; subst; auto].
      destruct (get_block_impl db i) as [nr|] eqn:Ef;
        [|inversion H; subst; auto].
      destruct (is_valid nr); simpl in H; [|inversion H; subst; auto].
      destruct (collect_blocks_to_remove fuel db (id rt) nr []) as [ids|e| |];
        try (inversion H; subst; auto; fail).
      destruct (remove_each fuel ids _) as [db2 r2] eqn:Er.
      destruct (remove_each_filter _ _ _ _ _ Er) as [Hr2 _]. simpl in Hr2.
      apply index_find_some in Ef.
      destruct r2 as [[]|e| |]; inversion H; subst; simpl; auto.
      right. exists fuel, i, nr. tauto.
  - destruct (remove_impl_filter _ _ _ _ _ H) as [Hr [_ [k Hk]]].
    split; [|auto]. intros x Hx. left. rewrite Hk in Hx.
    apply filter_In in Hx. apply Hsame. tauto.
  - inversion H; subst. unfold close_impl.
    destruct (root db) eqn:Hrt; simpl;
      [split; [intros x []|now left]|unchanged Hsame].
  - destruct file as [f|]; [auto|]. simpl in H. inversion H; subst.
    unchanged Hsame.
Qed.

(** X23.  What no call does.  Apart from [reset] and an [open] that reads a
    file, a call, however it ends, leaves in the index only block states that
    were there before, unchanged but for the validity flag, and the block
    state an [add] was given; and it leaves the root alone, except that an
    [advance_root] that returns makes a former index entry with the given id
    the root. *)
Theorem entries_only_change_validity : forall o db db' r,
  apply_op o db = (db', r) ->
  match o with
  | OpReset _ | OpOpen _ _ (Some _) => True
  | _ =>
    (forall x, In x (index db') ->
       (exists x0, In x0 (index db) /\ set_valid (is_valid x0) x = x0)
       \/ (exists ig, o = OpAdd (Some x) ig))
    /\ (root db' = root db
        \/ exists fuel i nr,
             o = OpAdvanceRoot fuel i /\ r = Ret tt /\ root db' = Some nr
             /\ In nr (index db) /\ id nr = i)
  end.
Proof. exact entries_step. Qed.

Lemma entries_only_change_validity_witness :
  In (set_valid false B6) (index (rollback_head_to_root_impl db_fork))
  /\ exists x0, In x0 (index db_fork)
                /\ set_valid (is_valid x0) (set_valid false B6) = x0.
Proof.
  assert (Hx : In (set_valid false B6)
                  (index (rollback_head_to_root_impl db_fork))).
  { vm_compute. tauto. }
  split; [exact Hx|].
  destruct (entries_only_change_validity OpRollbackHeadToRoot db_fork
              (rollback_head_to_root_impl db_fork) (Ret tt) eq_refl)
    as [H _].
  destruct (H _ Hx) as [H0|[ig F]]; [exact H0|discriminate].
Defined.

(** ** add, then fetch_branch *)

Lemma branch_after_add : forall db r n,
  root db = Some r -> tree db ->
  index_find (id n) (index db) = None -> id n <> id r ->
  forall h l, branch_in_index (index db) h l ->
    (exists q, resolve db h = Some q) ->
    branch_in_index (ordered_insert n (index db)) h l.
Proof.
  intros db r n Hr [Hu Ht] Ef Hnr h l Hb.
  pose proof (index_find_none _ _ Ef) as Hfresh.
  induction Hb as [h Hnone|h m l Hsome Hb IH]; intros [q Hq].
  - constructor.
    destruct (resolve_cases db r h q Hr Hq) as [[_ E]|[Hin [E _]]].
    + rewrite index_find_ordered_insert_other by congruence. exact Hnone.
    + exfalso. apply (index_find_none _ _ Hnone q Hin E).
  - destruct (index_find_some _ _ _ Hsome) as [Hm Hmid].
    apply branch_on.
    + rewrite index_find_ordered_insert_other; [exact Hsome|].
      intros E. apply (Hfresh m Hm). congruence.
    + apply IH. destruct (Ht m Hm) as [p [Hp _]]. eauto.
Qed.

(** X24.  A new block state's branch is the block state followed by its
    parent's branch.  In a tree, after [add] has inserted a block state with
    a fresh id other than the root's, [fetch_branch] of that id returns,
    given fuel, the block state itself (if it passes the trim) in front of
    what [fetch_branch] of its parent's id returned before. *)
Theorem add_extends_the_branch : forall n ig db r db',
  root db = Some r -> tree db ->
  get_block_impl db (id n) = None -> id n <> id r ->
  add (Some n) ig db = (db', Ret tt) ->
  exists l,
    branch_in_index (index db) (previous n) l
    /\ forall fuel trim, (S (length l) < fuel)%nat ->
         fetch_branch_impl fuel db (previous n) trim
         = Ret (filter (fun e => block_num e <=? trim) l)
         /\ fetch_branch_impl fuel db' (id n) trim
            = Ret (filter (fun e => block_num e <=? trim) (n :: l)).
Proof.
  intros n ig db r db' Hr Ht Ef Hnr H. unfold add in H.
  unfold get_block_impl in Ef.
  destruct (add_impl_fresh _ _ _ _ _ _ H Ef) as [Hr' [Hi [p Hp]]].
  destruct (branch_in_index_exists _ (tree_parent_below db r Hr Ht) (previous n))
    as [l Hb].
  pose proof (branch_after_add db r n Hr Ht Ef Hnr _ _ Hb
                (ex_intro _ p Hp)) as Hb'.
  assert (Hbn : branch_in_index (index db') (id n) (n :: l)).
  { rewrite Hi. apply branch_on; [|exact Hb'].
    now apply index_find_ordered_insert_new. }
  exists l. split; [exact Hb|]. intros fuel trim Hf.
  unfold fetch_branch_impl, get_block_impl. split.
  - destruct db as [idx rt hd]. simpl in *.
    rewrite (fetch_branch_loop_spec idx rt hd trim _ l Hb); [reflexivity|lia].
  - destruct db' as [idx' rt' hd']. simpl in *.
    rewrite (fetch_branch_loop_spec idx' rt' hd' trim _ (n :: l) Hbn);
      [reflexivity|simpl; lia].
Qed.

Lemma add_extends_the_branch_witness :
  exists l,
    branch_in_index (index db_pending) (previous C3) l
    /\ forall fuel trim, (S (length l) < fuel)%nat ->
         fetch_branch_impl fuel db_pending (previous C3) trim
         = Ret (filter (fun e => block_num e <=? trim) l)
         /\ fetch_branch_impl fuel db_line (id C3) trim
            = Ret (filter (fun e => block_num e <=? trim) (C3 :: l)).
Proof.
  destruct db_pending_tree as [Ht _].
  apply (add_extends_the_branch C3 false db_pending root0 db_line eq_refl Ht
           eq_refl); [discriminate|reflexivity].
Defined.
